(** * spectrafilm: the film simulation core, embedded and checked

    A shallow embedding of the simulation library of spectrafilm
    (engine.ts, halation.ts, dye_coupling.ts, grain.ts, bloom.ts,
    tonemapping.ts, the density-to-display module and, of the page
    component, auto exposure, the statistics pass, auto levels and
    saturation restoration) together with the properties its
    specification states about it and further properties read off the
    code.

    Numbers.  A JavaScript [number] is a binary64 float.  Two models are
    used, each where the property at hand lives:

    - the order-theoretic and algebraic properties (interpolation
      bounds, clamps, floors, ranges) are stated over the real numbers
      [R]: every arithmetic operation is read as the exact operation,
      so rounding, overflow to an infinity and NaN are outside this
      model;
    - the dye-coupling module, whose specification speaks of results
      that are identical bit for bit and of malformed arrays, is
      embedded over the kernel's binary64 floats ([PrimFloat]), where
      signed zeros, infinities and NaN exist and expressions evaluate;
      [interpolate] is embedded a second time over them, to measure
      what rounding does to a bound proved over the reals. *)

From Stdlib Require Import Reals Lra Lia List ZArith Bool String Ascii.
From Stdlib Require Import Floats.
Import ListNotations.

(** ** JavaScript's [Math] over the reals *)

Module JS.
Local Open Scope R_scope.

(** [Math.max(a, b)] and [Math.min(a, b)]. *)
Definition Math_max (a b : R) : R := Rmax a b.
Definition Math_min (a b : R) : R := Rmin a b.

(** [Math.abs]. *)
Definition Math_abs (a : R) : R := Rabs a.

(** [Math.log10] and [Math.exp]; the logarithm is only ever applied to
    a value clamped to a positive epsilon. *)
Definition Math_log10 (x : R) : R := ln x / ln 10.
Definition Math_exp (x : R) : R := exp x.

(** [Math.pow(b, e)].  The exponent 0 gives 1 for every base; a
    positive base is the real power; base 0 with a positive exponent is
    0; a negative base is defined on integer exponents only.  The two
    cases that JavaScript answers with [Infinity] (base 0, negative
    exponent) or [NaN] (negative base, fractional exponent) have no
    real value and are given 0 here, where the function says nothing
    about the code: the statements on the grain, whose base is
    [iso / 200], assume an iso that is not negative for this reason. *)
Definition Math_pow (b e : R) : R :=
  if Req_dec_T e 0 then 1
  else if Rlt_dec 0 b then Rpower b e
  else if Req_dec_T b 0 then 0
  else if Req_dec_T e (IZR (Int_part e)) then powerRZ b (Int_part e)
  else 0.

(** [Math.floor] and [Math.round] (round half up), as integers. *)
Definition Math_floor (x : R) : Z := Int_part x.
Definition Math_round (x : R) : Z := Int_part (x + 1 / 2).

(** [x || d] on numbers: [0] is falsy. *)
Definition or_else (x d : R) : R := if Req_dec_T x 0 then d else x.

(** Comparisons as booleans, for use in conditions. *)
Definition ltb (a b : R) : bool := if Rlt_dec a b then true else false.
Definition leb (a b : R) : bool := if Rle_dec a b then true else false.

End JS.

(** ** engine.ts: curve and matrix utilities *)

Module Curve.
Import JS.
Local Open Scope R_scope.

Record Point := mkPoint { px : R; py : R }.

Definition Vector3 : Type := (R * R * R)%type.

(** A well-shaped [number[][]] of three rows of three entries.  A
    matrix of another shape cannot be written in this type; what the
    constructor does with one is modelled by [Engine.construct], which
    takes the matrix as the JSON has it. *)
Definition Matrix3x3 : Type := (Vector3 * Vector3 * Vector3)%type.

Definition v0 (v : Vector3) : R := fst (fst v).
Definition v1 (v : Vector3) : R := snd (fst v).
Definition v2 (v : Vector3) : R := snd v.

(** [m[i][j]], for i, j in 0..2. *)
Definition row (m : Matrix3x3) (i : nat) : Vector3 :=
  match i with
  | O => fst (fst m)
  | S O => snd (fst m)
  | _ => snd m
  end.

Definition col (v : Vector3) (j : nat) : R :=
  match j with
  | O => v0 v
  | S O => v1 v
  | _ => v2 v
  end.

Definition at_ (m : Matrix3x3) (i j : nat) : R := col (row m i) j.

Definition multiplyMatrixVector (m : Matrix3x3) (v : Vector3) : Vector3 :=
  (at_ m 0 0 * v0 v + at_ m 0 1 * v1 v + at_ m 0 2 * v2 v,
   at_ m 1 0 * v0 v + at_ m 1 1 * v1 v + at_ m 1 2 * v2 v,
   at_ m 2 0 * v0 v + at_ m 2 1 * v1 v + at_ m 2 2 * v2 v).

(** The [for] loop of [interpolate]: the first [i] with
    [points[i].x <= x < points[i+1].x] decides; when the loop runs out
    the function falls through to its last line, the value [fallback]
    here. *)
Fixpoint interpolate_loop (x : R) (points : list Point) (fallback : R) : R :=
  match points with
  | p :: (q :: _) as rest =>
      if leb (px p) x && ltb x (px q) then
        let t := (x - px p) / (px q - px p) in
        py p + t * (py q - py p)
      else interpolate_loop x rest fallback
  | _ => fallback
  end.

(** [interpolate], with the arithmetic of the reals: the quotient and
    the products are exact.  [Curve64.interpolate] is the same function
    on binary64, where each operation rounds; the two can differ by the
    rounding error, which is enough to leave the range of the y next
    to a knot. *)
Definition interpolate (x : R) (points : list Point) : R :=
  match points with
  | [] => 0
  | p0 :: _ =>
      let pl := last points p0 in
      if leb x (px p0) then py p0
      else if leb (px pl) x then py pl
      else interpolate_loop x points (py pl)
  end.

(** *** Vocabulary for statements about curves *)

(** Control points ordered by x, equal abscissas allowed. *)
Fixpoint nondecreasing (pts : list Point) : Prop :=
  match pts with
  | p :: (q :: _) as rest => px p <= px q /\ nondecreasing rest
  | _ => True
  end.

(** Control points ordered by x with no abscissa repeated. *)
Fixpoint increasing (pts : list Point) : Prop :=
  match pts with
  | p :: (q :: _) as rest => px p < px q /\ increasing rest
  | _ => True
  end.

(** [x] lies in the half-open interval of control points [i], [i+1]. *)
Definition bracket (x : R) (pts : list Point) (i : nat) : Prop :=
  exists p q, nth_error pts i = Some p /\ nth_error pts (S i) = Some q
              /\ px p <= x < px q.

Definition first_bracket (x : R) (pts : list Point) (i : nat) : Prop :=
  bracket x pts i /\ forall j, (j < i)%nat -> ~ bracket x pts j.

Definition between (a b v : R) : Prop := Rmin a b <= v <= Rmax a b.

Definition yAt (pts : list Point) (i : nat) : R :=
  match nth_error pts i with Some p => py p | None => 0 end.

Definition lerp (p q : Point) (x : R) : R :=
  py p + (x - px p) / (px q - px p) * (py q - py p).

(** The interpolation property as the specification words it: the
    nearest endpoint's y outside the domain, and inside it a value
    between the y of the control points of the first interval
    [[p[i].x, p[i+1].x)] that holds [x]. *)
Definition interpolation_claim (pts : list Point) (p0 : Point) (x : R) : Prop :=
  let first := hd p0 pts in
  let lastp := last pts p0 in
  (x < px first -> interpolate x pts = py first)
  /\ (px lastp < x -> interpolate x pts = py lastp)
  /\ (px first <= x <= px lastp ->
      forall i, first_bracket x pts i ->
                between (yAt pts i) (yAt pts (S i)) (interpolate x pts)).

(** A curve that repeats its first abscissa. *)
Definition flat_start : list Point :=
  [mkPoint 0 5; mkPoint 0 1; mkPoint 1 2].

(** Control points whose y never decreases along the curve. *)
Fixpoint rising (pts : list Point) : Prop :=
  match pts with
  | p :: (q :: _) as rest => py p <= py q /\ rising rest
  | _ => True
  end.

(** Control points whose y never increases along the curve, as on a
    reversal film. *)
Fixpoint falling (pts : list Point) : Prop :=
  match pts with
  | p :: (q :: _) as rest => py q <= py p /\ falling rest
  | _ => True
  end.

(** The curve with every y negated. *)
Definition mirror (pts : list Point) : list Point :=
  map (fun p => mkPoint (px p) (- py p)) pts.

End Curve.

(** ** engine.ts: the simulation engine *)

Module Engine.
Import JS Curve.
Local Open Scope R_scope.

Inductive FilmType := negative | reversal | bw_negative.

(** The part of a film profile the engine reads (the declaration of
    [FilmProfile] lives in types.ts).  Optional JSON fields are
    options; [meta_film_type] and [meta_process] are [None] also when
    [meta] itself is missing. *)
Record FilmProfile := mkProfile {
  id : option string;
  meta_film_type : option FilmType;
  meta_process : option string;
  rgb_to_raw_matrix : option Matrix3x3;
  dye_density : option (list (list R));
  sensitometry_red : list Point;
  sensitometry_green : list Point;
  sensitometry_blue : list Point
}.

Record SimulationEngine := mkEngine {
  profile : FilmProfile;
  sensitivityMatrix : Matrix3x3;
  dyeDensity : list (list R);
  wavelengths : list R;
  filmType : FilmType;
  normalizationScale : Vector3;
  dMin : Vector3;
  sensitivityOffsets : Vector3;
  baseResponse : Vector3
}.

(** *** Strings, for [inferFilmType] *)

Definition lower_ascii (c : ascii) : ascii :=
  let n := nat_of_ascii c in
  if (65 <=? n)%nat && (n <=? 90)%nat then ascii_of_nat (n + 32) else c.

Fixpoint toLowerCase (s : string) : string :=
  match s with
  | EmptyString => EmptyString
  | String c r => String (lower_ascii c) (toLowerCase r)
  end.

Fixpoint includes (s sub : string) : bool :=
  String.prefix sub s ||
  match s with
  | EmptyString => false
  | String _ r => includes r sub
  end.

Definition inferFilmType (p : FilmProfile) : FilmType :=
  match meta_film_type p with
  | Some t => t
  | None =>
      let process := option_map toLowerCase (meta_process p) in
      let lid := match id p with Some s => toLowerCase s | None => EmptyString end in
      let processIs (s : string) :=
        match process with Some q => String.eqb q s | None => false end in
      if processIs "e-6"%string || includes lid "provia" || includes lid "velvia"
         || includes lid "ektachrome" then reversal
      else if processIs "bw"%string || includes lid "tri-x" || includes lid "hp5"
              || includes lid "tmax" then bw_negative
      else negative
  end.

(** *** The per-pixel transform *)

Definition eps6 : R := 1 / 1000000.
Definition eps9 : R := 1 / 1000000000.

Definition expose (e : SimulationEngine) (rgb : Vector3) (exposureCompEv : R)
  : Vector3 :=
  let exposureScale := Math_pow 2 exposureCompEv in
  let m := sensitivityMatrix e in
  let rawR := v0 rgb * at_ m 0 0 + v1 rgb * at_ m 1 0 + v2 rgb * at_ m 2 0 in
  let rawG := v0 rgb * at_ m 0 1 + v1 rgb * at_ m 1 1 + v2 rgb * at_ m 2 1 in
  let rawB := v0 rgb * at_ m 0 2 + v1 rgb * at_ m 1 2 + v2 rgb * at_ m 2 2 in
  let rawR := rawR * (v0 (normalizationScale e)
                      * Math_pow 10 (v0 (sensitivityOffsets e)) * exposureScale) in
  let rawG := rawG * (v1 (normalizationScale e)
                      * Math_pow 10 (v1 (sensitivityOffsets e)) * exposureScale) in
  let rawB := rawB * (v2 (normalizationScale e)
                      * Math_pow 10 (v2 (sensitivityOffsets e)) * exposureScale) in
  (Math_log10 (Math_max eps6 rawR),
   Math_log10 (Math_max eps6 rawG),
   Math_log10 (Math_max eps6 rawB)).

(** The second half of [expose]: scaling of a raw response, clamp and
    logarithm. *)
Definition scale_and_log (e : SimulationEngine) (raw : Vector3)
  (exposureCompEv : R) : Vector3 :=
  let exposureScale := Math_pow 2 exposureCompEv in
  (Math_log10 (Math_max eps6
     (v0 raw * (v0 (normalizationScale e)
                * Math_pow 10 (v0 (sensitivityOffsets e)) * exposureScale))),
   Math_log10 (Math_max eps6
     (v1 raw * (v1 (normalizationScale e)
                * Math_pow 10 (v1 (sensitivityOffsets e)) * exposureScale))),
   Math_log10 (Math_max eps6
     (v2 raw * (v2 (normalizationScale e)
                * Math_pow 10 (v2 (sensitivityOffsets e)) * exposureScale)))).

(** [expose] as the specification reads it: the raw response is the
    row-major product [sensitivityMatrix . rgb] of
    [multiplyMatrixVector], then the same scaling, clamp and logarithm. *)
Definition expose_row_major (e : SimulationEngine) (rgb : Vector3)
  (exposureCompEv : R) : Vector3 :=
  scale_and_log e (multiplyMatrixVector (sensitivityMatrix e) rgb) exposureCompEv.

Definition transpose (m : Matrix3x3) : Matrix3x3 :=
  ((at_ m 0 0, at_ m 1 0, at_ m 2 0),
   (at_ m 0 1, at_ m 1 1, at_ m 2 1),
   (at_ m 0 2, at_ m 1 2, at_ m 2 2)).

(** [develop].  Over the reals the three differences are never
    negative on a constructed engine and [Math.max(0, .)] returns them
    as they are; in binary64 a difference can be a rounding error under
    0 ([Curve64.developChannel], [Curve64.undershoot]), which the clamp
    turns into 0. *)
Definition develop (e : SimulationEngine) (logExp : Vector3) : Vector3 :=
  let c := interpolate (v0 logExp) (sensitometry_red (profile e)) - v0 (dMin e) in
  let m := interpolate (v1 logExp) (sensitometry_green (profile e)) - v1 (dMin e) in
  let y := interpolate (v2 logExp) (sensitometry_blue (profile e)) - v2 (dMin e) in
  (Math_max 0 c, Math_max 0 m, Math_max 0 y).

(** The dye coefficients read from one row of the spectral table. *)
Definition dye_row (dye : list R) : R * R * R * R :=
  let len := List.length dye in
  if (5 <=? len)%nat then (nth 1 dye 0, nth 2 dye 0, nth 3 dye 0, nth 4 dye 0)
  else if (4 <=? len)%nat then (nth 1 dye 0, nth 2 dye 0, nth 3 dye 0, 0)
  else if (len =? 2)%nat then (nth 1 dye 0, nth 1 dye 0, nth 1 dye 0, 0)
  else (0, 0, 0, 0).

Definition sigma : R := 20.

Definition gauss (lambda centre : R) : R :=
  Math_exp (- (1 / 2) * Math_pow ((lambda - centre) / sigma) 2).

Record ScanAcc := mkAcc {
  R_trans : R; G_trans : R; B_trans : R; N_r : R; N_g : R; N_b : R
}.

(** The spectral loop of [scan]: the index runs over [wavelengths] and
    reads [dyeDensity[i]]; a table shorter than the wavelength list
    makes [dye.length] a TypeError ([None]). *)
Fixpoint scan_loop (C M Y : R) (wl : list R) (dd : list (list R)) (a : ScanAcc)
  : option ScanAcc :=
  match wl with
  | [] => Some a
  | lambda :: wl' =>
      match dd with
      | [] => None
      | dye :: dd' =>
          let '(dC, dM, dY, dBase) := dye_row dye in
          let totalDensity := C * dC + M * dM + Y * dY + dBase in
          let transmittance := Math_pow 10 (- totalDensity) in
          let sB := gauss lambda 440 in
          let sG := gauss lambda 540 in
          let sR := gauss lambda 650 in
          scan_loop C M Y wl' dd'
            (mkAcc (R_trans a + transmittance * sR)
                   (G_trans a + transmittance * sG)
                   (B_trans a + transmittance * sB)
                   (N_r a + sR) (N_g a + sG) (N_b a + sB))
      end
  end.

Definition scan (e : SimulationEngine) (densityCMY : Vector3) : option Vector3 :=
  let '(C, M, Y) := densityCMY in
  match dyeDensity e with
  | [] => Some (Math_pow 10 (- C), Math_pow 10 (- M), Math_pow 10 (- Y))
  | _ :: _ =>
      match scan_loop C M Y (wavelengths e) (dyeDensity e) (mkAcc 0 0 0 0 0 0) with
      | None => None
      | Some a =>
          Some (R_trans a / or_else (N_r a) 1,
                G_trans a / or_else (N_g a) 1,
                B_trans a / or_else (N_b a) 1)
      end
  end.

Definition invert (e : SimulationEngine) (scannedRGB : Vector3) (gamma : R)
  : Vector3 :=
  let normR := v0 scannedRGB / Math_max eps9 (v0 (baseResponse e)) in
  let normG := v1 scannedRGB / Math_max eps9 (v1 (baseResponse e)) in
  let normB := v2 scannedRGB / Math_max eps9 (v2 (baseResponse e)) in
  (- Math_log10 (Math_max eps9 normR) * gamma,
   - Math_log10 (Math_max eps9 normG) * gamma,
   - Math_log10 (Math_max eps9 normB) * gamma).

Definition processPixel (e : SimulationEngine) (rgb : Vector3) (exposureCompEv : R)
  : option Vector3 :=
  let logExp := expose e rgb exposureCompEv in
  let density := develop e logExp in
  scan e density.

(** *** The constructor *)

(** [Math.min(...pts.map(p => p.y))].  On an empty curve JavaScript
    answers [Infinity]; the constructor has thrown by then (see
    [findMidpointShift]), so the value given here is never used. *)
Definition getMinY (pts : list Point) : R :=
  match pts with
  | [] => 0
  | p :: ps => fold_left Math_min (map py ps) (py p)
  end.

Fixpoint bisect (n : nat) (points : list Point) (dMinVal slope target : R)
  (low high : R) : R * R :=
  match n with
  | O => (low, high)
  | S k =>
      let mid := (low + high) / 2 in
      let analyticalDensity := interpolate mid points - dMinVal in
      if ltb analyticalDensity target then
        if ltb 0 slope then bisect k points dMinVal slope target mid high
        else bisect k points dMinVal slope target low mid
      else
        if ltb 0 slope then bisect k points dMinVal slope target low mid
        else bisect k points dMinVal slope target mid high
  end.

(** [points[points.length-1].y] on an empty curve reads a property of
    [undefined]: a TypeError, [None] here. *)
Definition findMidpointShift (points : list Point) (target : R) : option R :=
  match points with
  | [] => None
  | p0 :: _ =>
      let dMinVal := getMinY points in
      let slope := py (last points p0) - py p0 in
      let '(low, high) := bisect 15 points dMinVal slope target (-4) 4 in
      Some ((low + high) / 2)
  end.

Definition identity3 : Matrix3x3 := ((1, 0, 0), (0, 1, 0), (0, 0, 1)).

Definition MIN_VALID_BASE : R := 1 / 100.

Definition defaultBase (t : FilmType) : Vector3 :=
  match t with
  | reversal => (9 / 10, 9 / 10, 9 / 10)
  | _ => (4 / 10, 15 / 100, 8 / 100)
  end.

(** The engine as it stands when the constructor calls its own
    [expose], [develop] and [scan]: every field but [baseResponse] is
    set (the placeholder is not read by these three methods). *)
Definition preEngine (wl : list R) (p : FilmProfile) (midR midG midB : R)
  : SimulationEngine :=
  let sm := match rgb_to_raw_matrix p with Some m => m | None => identity3 end in
  let rawWhite := multiplyMatrixVector sm (1, 1, 1) in
  {| profile := p;
     sensitivityMatrix := sm;
     dyeDensity := match dye_density p with Some d => d | None => [] end;
     wavelengths := wl;
     filmType := inferFilmType p;
     normalizationScale :=
       (1 / or_else (v0 rawWhite) 1,
        1 / or_else (v1 rawWhite) 1,
        1 / or_else (v2 rawWhite) 1);
     dMin := (getMinY (sensitometry_red p),
              getMinY (sensitometry_green p),
              getMinY (sensitometry_blue p));
     sensitivityOffsets := (0, midG - midR, midB - midR);
     baseResponse := (0, 0, 0) |}.

Definition computedBase (e0 : SimulationEngine) : option Vector3 :=
  let logExpZero := expose e0 (0, 0, 0) (-20) in
  let densityZero := develop e0 logExpZero in
  scan e0 densityZero.

Definition chooseBase (t : FilmType) (cb : Vector3) : Vector3 :=
  if ltb (v0 cb) MIN_VALID_BASE || ltb (v1 cb) MIN_VALID_BASE
     || ltb (v2 cb) MIN_VALID_BASE
  then defaultBase t
  else (Math_max eps6 (v0 cb), Math_max eps6 (v1 cb), Math_max eps6 (v2 cb)).

Definition with_baseResponse (e : SimulationEngine) (b : Vector3)
  : SimulationEngine :=
  {| profile := profile e;
     sensitivityMatrix := sensitivityMatrix e;
     dyeDensity := dyeDensity e;
     wavelengths := wavelengths e;
     filmType := filmType e;
     normalizationScale := normalizationScale e;
     dMin := dMin e;
     sensitivityOffsets := sensitivityOffsets e;
     baseResponse := b |}.

(** [new SimulationEngine(profile)]; [wl] is the wavelength list of
    data/color_constants.json.  [None] is a thrown TypeError. *)
Definition new (wl : list R) (p : FilmProfile) : option SimulationEngine :=
  match findMidpointShift (sensitometry_red p) 1 with
  | None => None
  | Some midR =>
  match findMidpointShift (sensitometry_green p) 1 with
  | None => None
  | Some midG =>
  match findMidpointShift (sensitometry_blue p) 1 with
  | None => None
  | Some midB =>
      let e0 := preEngine wl p midR midG midB in
      match computedBase e0 with
      | None => None
      | Some cb => Some (with_baseResponse e0 (chooseBase (filmType e0) cb))
      end
  end end end.

(** *** The sensitivity matrix as the JSON has it

    [rgb_to_raw_matrix] is declared [number[][]]: nothing holds it to
    three rows of three.  [multiplyMatrixVector] reads [m[0]], [m[1]]
    and [m[2]] and indexes each: a missing row is [undefined], and
    indexing it a TypeError ([None]).  Rows and entries past the third
    are never read.  An entry missing from a row that is there is
    [undefined], NaN in the products, which a matrix of reals cannot
    hold: [row3] is the row read only when it has its three entries
    ([full_rows]). *)
Definition RawMatrix : Type := list (list R).

Definition row3 (r : list R) : Vector3 := (nth 0 r 0, nth 1 r 0, nth 2 r 0).

Definition shape (m : RawMatrix) : option Matrix3x3 :=
  match m with
  | r0 :: r1 :: r2 :: _ => Some (row3 r0, row3 r1, row3 r2)
  | _ => None
  end.

(** Each of the first three rows, where present, has three entries or
    more. *)
Definition full_rows (matrix : option RawMatrix) : Prop :=
  match matrix with
  | Some m => Forall (fun r => (3 <= List.length r)%nat) (firstn 3 m)
  | None => True
  end.

Definition with_matrix (p : FilmProfile) (m : option Matrix3x3) : FilmProfile :=
  {| id := id p;
     meta_film_type := meta_film_type p;
     meta_process := meta_process p;
     rgb_to_raw_matrix := m;
     dye_density := dye_density p;
     sensitometry_red := sensitometry_red p;
     sensitometry_green := sensitometry_green p;
     sensitometry_blue := sensitometry_blue p |}.

(** [new SimulationEngine(profile)] on a profile whose
    [rgb_to_raw_matrix] is [matrix], of any shape ([None]: the field is
    missing; an array, even the empty one, is truthy and is used). *)
Definition construct (wl : list R) (p : FilmProfile) (matrix : option RawMatrix)
  : option SimulationEngine :=
  match matrix with
  | None => new wl (with_matrix p None)
  | Some m =>
      match shape m with
      | None => None
      | Some m3 => new wl (with_matrix p (Some m3))
      end
  end.

(** A matrix that lost its last row. *)
Definition twoRows : RawMatrix := [[1; 0; 0]; [0; 1; 0]].

(** *** Vocabulary for statements about the engine *)

(** The profile carries no spectral dye table: the field is missing
    or is the empty array. *)
Definition no_dye_table (p : FilmProfile) : Prop :=
  dye_density p = None \/ dye_density p = Some [].

(** Some channel of a computed base is under the validity floor. *)
Definition below_floor (cb : Vector3) : Prop :=
  v0 cb < MIN_VALID_BASE \/ v1 cb < MIN_VALID_BASE \/ v2 cb < MIN_VALID_BASE.

(** The three values [invert] divides by. *)
Definition invert_divisors (e : SimulationEngine) : Vector3 :=
  (Math_max eps9 (v0 (baseResponse e)),
   Math_max eps9 (v1 (baseResponse e)),
   Math_max eps9 (v2 (baseResponse e))).

(** Example profiles: one two-point curve on all three channels, with
    the default matrix and with a matrix that is not symmetric. *)
Definition testCurve : list Point :=
  [mkPoint (-3) 0.2; mkPoint 0 2.2].

Definition skewMatrix : Matrix3x3 := ((1, 1, 0), (0, 1, 0), (0, 0, 1)).

Definition skewProfile : FilmProfile :=
  mkProfile None None None (Some skewMatrix) None testCurve testCurve testCurve.

Definition plainProfile : FilmProfile :=
  mkProfile None None None None None testCurve testCurve testCurve.

(** A reversal profile whose three curves step from density 0 at
    log-exposure -1 to density 1 at log-exposure 0. *)
Definition stepCurve : list Point := [mkPoint (-1) 0; mkPoint 0 1].

Definition slideProfile : FilmProfile :=
  mkProfile None (Some reversal) None None None stepCurve stepCurve stepCurve.

(** The quantity the bisection of [findMidpointShift] compares with
    its target: the curve's density above its minimum. *)
Definition densityAbove (pts : list Point) (x : R) : R :=
  interpolate x pts - getMinY pts.

(** [points[points.length - 1].y - points[0].y]. *)
Definition slopeOf (pts : list Point) (p0 : Point) : R :=
  py (last pts p0) - py (hd p0 pts).

(** The target lies between the densities at [lo] and [hi], on the
    side the sign of the slope selects: below at [lo] and reached at
    [hi] on a rising curve, the other way round otherwise. *)
Definition crossing (pts : list Point) (p0 : Point) (target lo hi : R) : Prop :=
  if ltb 0 (slopeOf pts p0)
  then densityAbove pts lo < target <= densityAbove pts hi
  else densityAbove pts hi < target <= densityAbove pts lo.

(** The row sums of the sensitivity matrix: the raw response to scene
    white that the constructor normalises by. *)
Definition rawWhite (e : SimulationEngine) : Vector3 :=
  multiplyMatrixVector (sensitivityMatrix e) (1, 1, 1).







(** The spectral table the constructor stores: [profile.dye_density
    || []]. *)
Definition tableOf (p : FilmProfile) : list (list R) :=
  match dye_density p with Some d => d | None => [] end.

(** The three curves of a profile are ordered by x without repeats and
    all rise, or all fall. *)
Definition ordered_curves (p : FilmProfile) : Prop :=
  increasing (sensitometry_red p) /\ increasing (sensitometry_green p)
  /\ increasing (sensitometry_blue p).

Definition rising_curves (p : FilmProfile) : Prop :=
  rising (sensitometry_red p) /\ rising (sensitometry_green p)
  /\ rising (sensitometry_blue p).

Definition falling_curves (p : FilmProfile) : Prop :=
  falling (sensitometry_red p) /\ falling (sensitometry_green p)
  /\ falling (sensitometry_blue p).

(** Componentwise order on triples. *)
Definition le3 (u v : Vector3) : Prop :=
  v0 u <= v0 v /\ v1 u <= v1 v /\ v2 u <= v2 v.

End Engine.

(** ** halation.ts *)

Module Halation.
Import JS Curve.
Local Open Scope R_scope.

Record HalationOptions := mkOptions {
  strength : R;
  radius : R;
  threshold : option R
}.

Definition applyRedHalation (r g b : R) (options : HalationOptions) : Vector3 :=
  let strength := strength options in
  let threshold := match threshold options with Some t => t | None => 0.6 end in
  let isHighlight := Math_max 0 ((r + g + b) / 3 - threshold) / (1 - threshold) in
  if leb isHighlight 0 then (r, g, b)
  else
    let halationAmount := isHighlight * strength * 0.1 in
    (Math_min 1 (r + halationAmount), g, b).

(** *** Vocabulary for statements about halation *)

Definition thresholdOf (o : HalationOptions) : R :=
  match threshold o with Some t => t | None => 0.6 end.

Definition meanRGB (r g b : R) : R := (r + g + b) / 3.

(** The fraction of the mean above the threshold. *)
Definition highlightFraction (r g b : R) (o : HalationOptions) : R :=
  (meanRGB r g b - thresholdOf o) / (1 - thresholdOf o).

(** The options the page passes. *)
Definition pipelineOptions : HalationOptions := mkOptions 0.15 1.5 None.

End Halation.

(** ** grain.ts *)

Module Grain.
Import JS Curve.
Local Open Scope R_scope.

Record GrainOptions := mkOptions {
  iso : R;
  strength : option R;
  size : option R;
  monochrome : option bool
}.

(** *** The integer hash

    Pixel coordinates are integers.  A product of two integers is a
    double: exact below 2^53 and rounded to 53 significant bits, ties
    to even, above.  The bit operators convert their operands with
    ToInt32 / ToUint32, that is modulo 2^32. *)

Definition fl53 (z : Z) : Z :=
  let a := Z.abs z in
  if (a <? 2 ^ 53)%Z then z
  else
    let k := (Z.log2 a - 52)%Z in
    let q := (a / 2 ^ k)%Z in
    let r := (a mod 2 ^ k)%Z in
    let half := (2 ^ (k - 1))%Z in
    let q' := if (r <? half)%Z then q
              else if (half <? r)%Z then (q + 1)%Z
              else if Z.even q then q else (q + 1)%Z in
    (Z.sgn z * (q' * 2 ^ k))%Z.

Definition mulJS (a b : Z) : Z := fl53 (a * b).
Definition addJS (a b : Z) : Z := fl53 (a + b).

Definition toUint32 (z : Z) : Z := (z mod 2 ^ 32)%Z.

Definition toInt32 (z : Z) : Z :=
  let u := toUint32 z in
  if (2 ^ 31 <=? u)%Z then (u - 2 ^ 32)%Z else u.

(** [a ^ b] and [a >>> n]. *)
Definition xorJS (a b : Z) : Z := Z.lxor (toInt32 a) (toInt32 b).
Definition ushr (a n : Z) : Z := Z.shiftr (toUint32 a) n.

Definition hash (p : Z) : R :=
  let x := ushr p 0 in
  let x := mulJS (xorJS (ushr x 16) x) 73244475 in
  let x := mulJS (xorJS (ushr x 16) x) 73244475 in
  let x := xorJS (ushr x 16) x in
  IZR (ushr x 0) / 4294967296.

Definition luminance (r g b : R) : R := 0.2126 * r + 0.7152 * g + 0.0722 * b.

Definition midtoneWeight (lum : R) : R :=
  Math_max 0 (1 - Math_pow (Math_abs (lum - 0.5) * 2) 1.2).

Definition baseStrength (options : GrainOptions) : R :=
  let strength := match strength options with Some s => s | None => 1 end in
  let isoFactor := Math_pow (iso options / 200) 0.6 in
  0.04 * strength * isoFactor.

Definition amplitude (options : GrainOptions) (r g b : R) : R :=
  baseStrength options * midtoneWeight (luminance r g b).

Definition clamp01 (v : R) : R := Math_max 0 (Math_min 1 v).

Definition applyPhysicalGrain (r g b : R) (x y : Z) (options : GrainOptions)
  : Vector3 :=
  let monochrome := match monochrome options with Some m => m | None => true end in
  let amplitude := amplitude options r g b in
  let n1 := hash (xorJS (mulJS x 1597334677) (mulJS y 3812015801)) in
  let gx := (x / 2)%Z in
  let gy := (y / 2)%Z in
  let n2 := hash (xorJS (mulJS gx 1597334677) (addJS (mulJS gy 3812015801) 1)) in
  let noise := (n1 * 0.7 + n2 * 0.3 - 0.5) * 2 * amplitude in
  if monochrome then
    (clamp01 (r + noise), clamp01 (g + noise), clamp01 (b + noise))
  else
    let noiseR := noise in
    let noiseG :=
      (hash (xorJS (mulJS x 1597334677) (addJS (mulJS y 3812015801) 2)) - 0.5)
      * 2 * amplitude in
    let noiseB :=
      (hash (xorJS (mulJS x 1597334677) (addJS (mulJS y 3812015801) 3)) - 0.5)
      * 2 * amplitude in
    (clamp01 (r + noiseR), clamp01 (g + noiseG), clamp01 (b + noiseB)).

(** An ISO 400 stock with every option left to its default. *)
Definition film400 : GrainOptions := mkOptions 400 None None None.

(** *** [applyFilmGrain]

    The amplitude of [applyFilmGrain]; [size] is only read by the inner
    [getClusteredNoise], which is never called. *)
Definition filmAmplitude (options : GrainOptions) (r g b : R) : R :=
  let strength := match strength options with Some s => s | None => 1 end in
  let isoFactor := Math_pow (iso options / 200) 0.6 in
  let baseStrength := 0.05 * strength * isoFactor in
  let luminance := 0.2126 * r + 0.7152 * g + 0.0722 * b in
  let midtoneWeight :=
    Math_max 0 (1 - Math_pow (Math_abs (luminance - 0.5) * 2) 1.2) in
  baseStrength * midtoneWeight.

(** [Math.random()] is read off a stream of draws: [random n] is the
    n-th draw of the run, [k] the number of draws made before the call;
    the result carries the number of draws made after it. *)
Definition applyFilmGrain (r g b : R) (options : GrainOptions)
  (random : nat -> R) (k : nat) : Vector3 * nat :=
  let monochrome := match monochrome options with Some m => m | None => true end in
  let amplitude := filmAmplitude options r g b in
  if leb amplitude 0 then ((r, g, b), k)
  else
    let seed := random k * 1000 in
    if monochrome then
      let noise := (random (S k) - 0.5) * 2 * amplitude in
      ((Math_max 0 (Math_min 1 (r + noise)),
        Math_max 0 (Math_min 1 (g + noise)),
        Math_max 0 (Math_min 1 (b + noise))), (k + 2)%nat)
    else
      let nR := (random (S k) - 0.5) * 2 * amplitude in
      let nG := (random (S (S k)) - 0.5) * 2 * amplitude in
      let nB := (random (S (S (S k))) - 0.5) * 2 * amplitude in
      ((Math_max 0 (Math_min 1 (r + nR)),
        Math_max 0 (Math_min 1 (g + nG)),
        Math_max 0 (Math_min 1 (b + nB))), (k + 4)%nat).

(** *** Vocabulary for statements about grain *)

(** A value in the unit interval. *)
Definition in01 (v : R) : Prop := 0 <= v <= 1.

(** Two values differ by at most [a]. *)
Definition within (a u v : R) : Prop := Rabs (u - v) <= a.

(** Every draw of the stream is in [0, 1), as [Math.random] promises. *)
Definition uniform (random : nat -> R) : Prop := forall n, 0 <= random n < 1.

(** A stream of draws that are all 0.75. *)
Definition steady : nat -> R := fun _ => 0.75.

(** An ISO 400 colour stock. *)
Definition colour400 : GrainOptions := mkOptions 400 None None (Some false).

End Grain.

(** ** bloom.ts *)

Module Bloom.
Import JS.
Local Open Scope R_scope.

(** An element of a [Float32Array], or the result of reading outside
    one: [None] is NaN (a read out of range is [undefined], and NaN as
    soon as it enters arithmetic).  Rounding to single precision is not
    modelled. *)
Definition num : Type := option R.

Definition lift2 (f : R -> R -> R) (a b : num) : num :=
  match a, b with
  | Some x, Some y => Some (f x y)
  | _, _ => None
  end.

Definition nadd : num -> num -> num := lift2 Rplus.
Definition nmul : num -> num -> num := lift2 Rmult.
Definition ndiv : num -> num -> num := lift2 Rdiv.

(** [a > t]; false on NaN. *)
Definition ngt (a : num) (t : R) : bool :=
  match a with
  | Some x => ltb t x
  | None => false
  end.

(** [data[i]]. *)
Definition rd (data : list num) (i : Z) : num :=
  if (i <? 0)%Z then None else nth (Z.to_nat i) data None.

Record BloomOptions := mkOptions {
  strength : R;
  threshold : R;
  radius : R;
  weights : option (list R)
}.

Record Level := mkLevel { data : list num; w : Z; h : Z }.

(** A zero-filled array of [len] cells in which the loops over
    [0 <= y < height], [0 <= x < width] have stored [f x y c] at
    [(y * width + x) * 4 + c]; stores past the end are dropped. *)
Definition build (len : nat) (width height : Z) (f : Z -> Z -> Z -> num)
  : list num :=
  map (fun n =>
         let k := Z.of_nat n in
         let pix := (k / 4)%Z in
         let c := (k mod 4)%Z in
         if (0 <? width)%Z && (pix <? width * height)%Z
         then f (pix mod width)%Z (pix / width)%Z c
         else Some 0)
      (seq 0 len).

(** The in-range neighbours [centre + d], [-radius <= d <= radius]. *)
Definition window (centre limit radius : Z) : list Z :=
  filter (fun n => (0 <=? n)%Z && (n <? limit)%Z)
         (map (fun k => (centre + (Z.of_nat k - radius))%Z)
              (seq 0 (Z.to_nat (2 * radius + 1)))).

Definition nsum (l : list num) : num := fold_left nadd l (Some 0).

Definition mean (l : list num) : num :=
  ndiv (nsum l) (Some (INR (List.length l))).

Definition boxBlur (data : list num) (width height radius : Z) : list num :=
  if (radius <? 1)%Z then data
  else
    let output :=
      build (List.length data) width height (fun x y c =>
        if (c <? 3)%Z then
          mean (map (fun nx => rd data ((y * width + nx) * 4 + c)%Z)
                    (window x width radius))
        else rd data ((y * width + x) * 4 + 3)%Z) in
    build (List.length output) width height (fun x y c =>
      if (c <? 3)%Z then
        mean (map (fun ny => rd output ((ny * width + x) * 4 + c)%Z)
                  (window y height radius))
      else rd output ((y * width + x) * 4 + 3)%Z).

Definition downsample (data : list num) (width height : Z) : Level :=
  let nw := (width / 2)%Z in
  let nh := (height / 2)%Z in
  mkLevel
    (build (Z.to_nat (nw * nh * 4)) nw nh (fun x y c =>
       rd data ((y * 2 * width + x * 2) * 4 + c)%Z))
    nw nh.

Definition extractHighlights (linearData : list num) (threshold : R) : list num :=
  map (fun n =>
         let k := Z.of_nat n in
         let i := (4 * (k / 4))%Z in
         let c := (k mod 4)%Z in
         let r := rd linearData i in
         let g := rd linearData (i + 1)%Z in
         let b := rd linearData (i + 2)%Z in
         let lum := nadd (nadd (nmul (Some 0.2126) r) (nmul (Some 0.7152) g))
                         (nmul (Some 0.0722) b) in
         if ngt lum threshold then
           let boost := ndiv (nadd lum (Some (- threshold))) (Some (1 - threshold)) in
           if (c <? 3)%Z then nmul (rd linearData (i + c)%Z) boost else Some 1
         else Some 0)
      (seq 0 (List.length linearData)).

Fixpoint pyramid (ws : list R) (l : nat) (radius : R) (current : Level)
  : list Level :=
  match ws with
  | [] => []
  | _ :: ws' =>
      let blurred :=
        boxBlur (data current) (w current) (h current)
                (Z.max 1 (Math_round (radius * (INR l + 1)))) in
      mkLevel blurred (w current) (h current)
      :: pyramid ws' (S l) radius
           (downsample (data current) (w current) (h current))
  end.

Definition compositeLevel (result : list num) (level : Level) (weight : R)
  (width height : Z) : list num :=
  map (fun nv : nat * num =>
         let k := Z.of_nat (fst nv) in
         let pix := (k / 4)%Z in
         let c := (k mod 4)%Z in
         if (0 <? width)%Z && (pix <? width * height)%Z && (c <? 3)%Z then
           let x := (pix mod width)%Z in
           let y := (pix / width)%Z in
           let scaleX := IZR (w level) / IZR width in
           let scaleY := IZR (h level) / IZR height in
           let fy := IZR y * scaleY in
           let y0 := Math_floor fy in
           let y1 := Z.min (h level - 1) (y0 + 1) in
           let dy := fy - IZR y0 in
           let fx := IZR x * scaleX in
           let x0 := Math_floor fx in
           let x1 := Z.min (w level - 1) (x0 + 1) in
           let dx := fx - IZR x0 in
           let i00 := ((y0 * w level + x0) * 4)%Z in
           let i10 := ((y0 * w level + x1) * 4)%Z in
           let i01 := ((y1 * w level + x0) * 4)%Z in
           let i11 := ((y1 * w level + x1) * 4)%Z in
           let w00 := (1 - dx) * (1 - dy) in
           let w10 := dx * (1 - dy) in
           let w01 := (1 - dx) * dy in
           let w11 := dx * dy in
           let d := data level in
           nadd (snd nv)
             (nmul (nadd (nadd (nadd (nmul (rd d (i00 + c)%Z) (Some w00))
                                     (nmul (rd d (i10 + c)%Z) (Some w10)))
                               (nmul (rd d (i01 + c)%Z) (Some w01)))
                         (nmul (rd d (i11 + c)%Z) (Some w11)))
                   (Some weight))
         else snd nv)
      (combine (seq 0 (List.length result)) result).

Fixpoint composite (levels : list Level) (ws : list R) (strength : R)
  (width height : Z) (result : list num) : list num :=
  match levels, ws with
  | level :: levels', wt :: ws' =>
      composite levels' ws' strength width height
        (compositeLevel result level (wt * strength) width height)
  | _, _ => result
  end.

Definition defaultWeights : list R := [0.1; 0.2; 0.4; 0.8; 1; 1].

Definition applyPyramidBloom (linearData : list num) (width height : Z)
  (options : BloomOptions) : list num :=
  let weights :=
    match weights options with Some ws => ws | None => defaultWeights end in
  if leb (strength options) 0 then linearData
  else
    let highlightData := extractHighlights linearData (threshold options) in
    let levels :=
      pyramid weights 0 (radius options) (mkLevel highlightData width height) in
    composite levels weights (strength options) width height linearData.

(** Example data: bloom switched off, and a one-pixel image. *)
Definition bloomOff : BloomOptions := mkOptions 0 0.65 2 None.

Definition onePixel : list num := [Some 0.9; Some 0.8; Some 0.7; Some 1].

(** Bloom switched on, with the threshold and radius the page passes. *)
Definition bloomOn : BloomOptions := mkOptions 0.5 0.65 2 None.

(** *** Vocabulary for statements about bloom *)

(** A buffer of [n] zeros, and the zero image of a given size. *)
Definition zeros (n : nat) : list num := repeat (Some 0) n.
Definition blank (width height : Z) : list num :=
  zeros (Z.to_nat (width * height * 4)).

(** A pyramid level that has at least one pixel and is all zero. *)
Definition zero_level (l : Level) : Prop :=
  data l = blank (w l) (h l) /\ (1 <= w l)%Z /\ (1 <= h l)%Z.

(** [n] successive halvings of [x] all leave at least 1. *)
Fixpoint fits (n : nat) (x : Z) : Prop :=
  match n with
  | O => True
  | S k => (1 <= x)%Z /\ fits k (x / 2)%Z
  end.

(** No cell of the buffer is NaN. *)
Definition defined (linearData : list num) : Prop :=
  Forall (fun v : num => v <> None) linearData.

(** No pixel has a luminance above the threshold. *)
Definition no_highlight (linearData : list num) (threshold : R) : Prop :=
  forall i r g b,
    rd linearData (4 * i)%Z = Some r ->
    rd linearData (4 * i + 1)%Z = Some g ->
    rd linearData (4 * i + 2)%Z = Some b ->
    0.2126 * r + 0.7152 * g + 0.0722 * b <= threshold.

(** A mid-grey image of 32 by 32 pixels. *)
Definition grey32 : list num := repeat (Some 0.5) 4096.

End Bloom.

(** ** The page component: statistics, exposure, levels, saturation *)

Module Pipeline.
Import JS Curve Engine.
Local Open Scope R_scope.

Definition Pixel : Type := (R * R * R * R)%type.

Definition max3 (r g b : R) : R := Math_max (Math_max r g) b.
Definition min3 (r g b : R) : R := Math_min (Math_min r g) b.

Definition getSaturation (r g b : R) : R :=
  let max := max3 r g b in
  let min := min3 r g b in
  if Req_dec_T max 0 then 0 else (max - min) / max.

Record Stats := mkStats {
  inputSatSum : R;
  satAfterInvert : R;
  pixelCount : R
}.

(** One iteration of the first pass, as far as the saturation sums
    go.  [None]: the engine's [scan] threw. *)
Definition pass1_step (engine : SimulationEngine) (totalExposure : R)
  (st : Stats) (px : Pixel) : option Stats :=
  let '(pr, pg, pb, _) := px in
  let r := Math_pow pr 2.2 in
  let g := Math_pow pg 2.2 in
  let b := Math_pow pb 2.2 in
  let inputSat := getSaturation r g b in
  let logExp := expose engine (r, g, b) totalExposure in
  let cmyDensity := develop engine logExp in
  match scan engine cmyDensity with
  | None => None
  | Some scanned =>
      let s :=
        match filmType engine with
        | reversal => getSaturation (v0 scanned) (v1 scanned) (v2 scanned)
        | _ =>
            let inverted := invert engine scanned 1 in
            getSaturation (v0 inverted) (v1 inverted) (v2 inverted)
        end in
      Some (mkStats (inputSatSum st + inputSat) (satAfterInvert st + s)
                    (pixelCount st + 1))
  end.

Fixpoint pass1 (engine : SimulationEngine) (totalExposure : R)
  (pixelData : list Pixel) (st : Stats) : option Stats :=
  match pixelData with
  | [] => Some st
  | px :: rest =>
      match pass1_step engine totalExposure st px with
      | None => None
      | Some st' => pass1 engine totalExposure rest st'
      end
  end.

Definition rawFactor (st : Stats) : R :=
  let avgInputSatFirstPass := inputSatSum st / pixelCount st in
  let avgAfterInvertFirstPass := satAfterInvert st / pixelCount st in
  if ltb 0.001 avgAfterInvertFirstPass
  then avgInputSatFirstPass / avgAfterInvertFirstPass
  else 1.

Definition SATURATION_RESTORE_FACTOR (st : Stats) : R :=
  Math_min (Math_max (rawFactor st * 1.5) 1) 5.

(** The factor the page derives for an image and an engine. *)
Definition saturationFactor (engine : SimulationEngine) (totalExposure : R)
  (pixelData : list Pixel) : option R :=
  option_map SATURATION_RESTORE_FACTOR
    (pass1 engine totalExposure pixelData (mkStats 0 0 0)).

(** *** Vocabulary for statements about the saturation factor *)

Definition avgInput (st : Stats) : R := inputSatSum st / pixelCount st.
Definition avgAfterInvert (st : Stats) : R := satAfterInvert st / pixelCount st.

(** The factor as the specification words it: the ratio of the two
    averages, times 1.5, clamped to [1, 5]. *)
Definition claimed_factor (st : Stats) : R :=
  Math_min (Math_max (avgInput st / avgAfterInvert st * 1.5) 1) 5.

(** Statistics of one pixel that is half saturated on input and almost
    grey after inversion. *)
Definition lowSaturation : Stats := mkStats 0.5 0.0005 1.

(** An engine state with the identity matrix, no dye table and a white
    base, and a one-pixel image. *)
Definition unitEngine : SimulationEngine :=
  mkEngine plainProfile identity3 [] [] negative (1, 1, 1) (0.2, 0.2, 0.2)
           (0, 0, 0) (1, 1, 1).

Definition redPixel : list Pixel := [(1, 0, 0, 1)].

(** An image of one saturated red pixel followed by 999 black ones. *)
Definition blackPixel : Pixel := (0, 0, 0, 1).
Definition redDot : list Pixel := (1, 0, 0, 1) :: repeat blackPixel 999.

(** The calibration state of the engine of [slideProfile]. *)
Definition slide_state (e : SimulationEngine) : Prop :=
  profile e = slideProfile
  /\ sensitivityMatrix e = identity3
  /\ dyeDensity e = []
  /\ filmType e = reversal
  /\ normalizationScale e = (1, 1, 1)
  /\ dMin e = (0, 0, 0)
  /\ sensitivityOffsets e = (0, 0, 0).

(** *** Saturation restoration

    [hue2rgb] and [boostSaturation], the HSL round trip of the third
    pass. *)
Definition hue2rgb (p q t : R) : R :=
  let t := if ltb t 0 then t + 1 else t in
  let t := if ltb 1 t then t - 1 else t in
  if ltb t (1 / 6) then p + (q - p) * 6 * t
  else if ltb t (1 / 2) then q
  else if ltb t (2 / 3) then p + (q - p) * (2 / 3 - t) * 6
  else p.

Definition boostSaturation (r g b factor : R) : Vector3 :=
  let max := max3 r g b in
  let min := min3 r g b in
  let l := (max + min) / 2 in
  if Req_dec_T max min then (r, g, b)
  else
    let d := max - min in
    let s := if ltb 0.5 l then d / (2 - max - min) else d / (max + min) in
    let h :=
      if Req_dec_T max r then ((g - b) / d + (if ltb g b then 6 else 0)) / 6
      else if Req_dec_T max g then ((b - r) / d + 2) / 6
      else ((r - g) / d + 4) / 6 in
    let s := Math_min 1 (s * factor) in
    if Req_dec_T s 0 then (l, l, l)
    else
      let q := if ltb l 0.5 then l * (1 + s) else l + s - l * s in
      let p := 2 * l - q in
      (hue2rgb p q (h + 1 / 3), hue2rgb p q h, hue2rgb p q (h - 1 / 3)).

(** *** Auto exposure

    [Math.log] and [Math.log2]. *)
Definition Math_log (x : R) : R := ln x.
Definition Math_log2 (x : R) : R := ln x / ln 2.

(** The pixels the loop with stride 100 * 4 visits: every hundredth,
    from the first. *)
Fixpoint sampled (pixelData : list Pixel) (skip : nat) : list Pixel :=
  match pixelData with
  | [] => []
  | px :: rest =>
      match skip with
      | O => px :: sampled rest 99
      | S k => sampled rest k
      end
  end.

Definition lux (px : Pixel) : R :=
  let '(r, g, b, _) := px in r * 0.2126 + g * 0.7152 + b * 0.0722.

Definition logLuxSum (samples : list Pixel) : R :=
  fold_left (fun acc px => acc + Math_log (Math_max 0.0001 (lux px))) samples 0.

(** [Math.exp(logLuxSum / count)], for a non-empty sample, with the
    exact logarithm and exponential.  When every sample sits at the
    floor 0.0001 the exact value is the floor itself, and the code's
    comparison [logAvgLux > epsilon] is decided by the rounding of
    [Math.log] and [Math.exp]: the model says nothing about the code at
    the floor, and the statements below keep away from it. *)
Definition logAvgLux (samples : list Pixel) : R :=
  Math_exp (logLuxSum samples / INR (List.length samples)).

(** The bias computed when auto exposure is on.  On an empty image
    [count] is 0, the quotient is NaN and the comparison with epsilon is
    false: the bias stays 0. *)
Definition autoExposureBias (pixelData : list Pixel) : R :=
  let samples := sampled pixelData 0 in
  match samples with
  | [] => 0
  | _ :: _ =>
      if ltb 0.0001 (logAvgLux samples)
      then Math_log2 (0.25 / logAvgLux samples)
      else 0
  end.

(** *** Auto levels

    [arr.sort((a, b) => a - b)]: the ascending order of the numbers. *)
Fixpoint insert (x : R) (l : list R) : list R :=
  match l with
  | [] => [x]
  | y :: l' => if leb x y then x :: l else y :: insert x l'
  end.

Definition sortNumbers (l : list R) : list R := fold_right insert [] l.

(** [arr[i] || d]: a read out of range is [undefined], and 0 is falsy
    too. *)
Definition read_or (arr : list R) (i : Z) (d : R) : R :=
  if (i <? 0)%Z then d
  else match nth_error arr (Z.to_nat i) with
       | Some v => or_else v d
       | None => d
       end.

Record Range := mkRange { min_ : R; max_ : R; scale : R }.

Definition getRange (idxLow idxHigh : Z) (arr : list R) : Range :=
  let min := read_or arr idxLow 0 in
  let max := read_or arr idxHigh 3 in
  let range := max - min in
  mkRange min max (if ltb 0.001 range then 1 / range else 1).

(** The adaptive branch of the range computation, for one channel:
    the densities of the first pass are sorted and the two percentile
    indices are derived from their number. *)
Definition autoLevels (useLinear : bool) (densities : list R) : Range :=
  let sorted := sortNumbers densities in
  let pHigh := if useLinear then 1 else 0.995 in
  let pLow := if useLinear then 0 else 0.005 in
  let idxHigh := (Math_floor (INR (List.length sorted) * pHigh) - 1)%Z in
  let idxLow := Math_floor (INR (List.length sorted) * pLow) in
  getRange idxLow idxHigh sorted.

(** The normalisation of the second pass. *)
Definition normalise (rg : Range) (v : R) : R := (v - min_ rg) * scale rg.

(** *** Vocabulary for statements about the page's passes *)

(** A value in the unit interval. *)
Definition in01 (v : R) : Prop := 0 <= v <= 1.

(** Every channel of every pixel is non-negative. *)
Definition nonneg_pixels (pixelData : list Pixel) : Prop :=
  Forall (fun px : Pixel =>
            let '(r, g, b, _) := px in 0 <= r /\ 0 <= g /\ 0 <= b) pixelData.

(** Ascending order: every element is at most the ones after it. *)
Fixpoint ascending (l : list R) : Prop :=
  match l with
  | [] => True
  | a :: l' => (forall y, In y l' -> a <= y) /\ ascending l'
  end.

(** Red halation runs in the second pass between the density and its
    normalisation, and it can lift the red of a bright pixel over the
    largest red density of the first pass: with red densities 0 and
    0.04 in the image, the pixel (0.04, 3, 3) is normalised to more
    than 1. *)
Definition halation_leaves_range : Prop :=
  let rg := autoLevels true [0; 0.04] in
  1 < normalise rg
        (v0 (Halation.applyRedHalation 0.04 3 3 Halation.pipelineOptions)).

(** A four-pixel image and a uniform grey one. *)
Definition fourPixels : list Pixel :=
  [(1, 0, 0, 1); (0.5, 0.5, 0.5, 1); (0.2, 0.4, 0.6, 1); (0, 0, 0, 1)].

Definition greyImage (v : R) (n : nat) : list Pixel := repeat (v, v, v, 1) n.

End Pipeline.

(** ** engine.ts: [interpolate] and a channel of [develop], over binary64

    The same functions with the arithmetic of the machine, to see what
    rounding does to their results. *)

Module Curve64.
Local Open Scope float_scope.

Record Point := mkPoint { px : float; py : float }.

Fixpoint interpolate_loop (x : float) (points : list Point) (fallback : float)
  : float :=
  match points with
  | p :: (q :: _) as rest =>
      if (px p <=? x) && (x <? px q) then
        let t := (x - px p) / (px q - px p) in
        py p + t * (py q - py p)
      else interpolate_loop x rest fallback
  | _ => fallback
  end.

Definition interpolate (x : float) (points : list Point) : float :=
  match points with
  | [] => 0
  | p0 :: _ =>
      let pl := last points p0 in
      if x <=? px p0 then py p0
      else if px pl <=? x then py pl
      else interpolate_loop x points (py pl)
  end.

(** The curve (-1.6, 0.07), (-0.6, 0.66), and the largest double below
    -0.6, printed -0.6000000000000001. *)
Definition steep : list Point :=
  [mkPoint (-0x1.999999999999ap+0) 0x1.1eb851eb851ecp-4;
   mkPoint (-0x1.3333333333333p-1) 0x1.51eb851eb851fp-1].

Definition below_last : float := -0x1.3333333333334p-1.

(** -0.6 itself, the last abscissa of the curves of this section. *)
Definition at_last : float := -0x1.3333333333333p-1.

(** The falling curve (-1.6, 0.66), (-0.6, 0.07), as a slide film has
    them. *)
Definition sinking : list Point :=
  [mkPoint (-0x1.999999999999ap+0) 0x1.51eb851eb851fp-1;
   mkPoint (-0x1.3333333333333p-1) 0x1.1eb851eb851ecp-4].

(** The rising curve (-3, 0.05), (-1.6, 0.06), (-0.6, 0.57), with a
    toe. *)
Definition kneed : list Point :=
  [mkPoint (-0x1.8p+1) 0x1.999999999999ap-5;
   mkPoint (-0x1.999999999999ap+0) 0x1.eb851eb851eb8p-5;
   mkPoint (-0x1.3333333333333p-1) 0x1.23d70a3d70a3dp-1].

(** The wide falling curve (-3, 4), (0, 0.05), and -1e-17. *)
Definition wide : list Point :=
  [mkPoint (-0x1.8p+1) 0x1p+2; mkPoint 0 0x1.999999999999ap-5].

Definition near_zero : float := -0x1.70ef54646d497p-57.

(** [Math.min] and [Math.max] of two numbers: NaN if either is NaN,
    and [-0] below [+0]. *)
Definition Math_min (a b : float) : float :=
  if is_nan a || is_nan b then nan
  else if a <? b then a
  else if b <? a then b
  else if get_sign a then a else b.

Definition Math_max (a b : float) : float :=
  if is_nan a || is_nan b then nan
  else if a <? b then b
  else if b <? a then a
  else if get_sign a then b else a.

(** [Math.min(...pts.map(p => p.y))]; with no argument [Math.min] is
    [Infinity]. *)
Definition getMinY (pts : list Point) : float :=
  fold_left Math_min (map py pts) infinity.

(** One channel of [develop], with the [dMin] the constructor takes
    from the same curve. *)
Definition developChannel (logExp : float) (pts : list Point) : float :=
  Math_max 0 (interpolate logExp pts - getMinY pts).

(** What binary64 rounding does to the interpolant next to a knot.
    On the falling curve the value just below the last abscissa is
    under the smallest y of the curve, so the difference that [develop]
    clamps is negative. *)
Definition undershoot : Prop :=
  (interpolate below_last sinking <? getMinY sinking) = true
  /\ (interpolate below_last sinking - getMinY sinking <? 0) = true
  /\ developChannel below_last sinking = 0.

(** On the rising curve the value just below the last abscissa is
    above the value at it. *)
Definition step_back : Prop :=
  (below_last <? at_last) = true
  /\ (interpolate at_last steep <? interpolate below_last steep) = true.

(** On the rising curve with a toe the developed density just below
    the last abscissa is above the density at it. *)
Definition density_step_back : Prop :=
  (below_last <? at_last) = true
  /\ (developChannel at_last kneed <? developChannel below_last kneed) = true.

End Curve64.

(** ** dye_coupling.ts, over binary64 *)

Module DyeCoupling.
Local Open Scope float_scope.

Definition Vector3 : Type := (float * float * float)%type.

(** A call either returns or throws an [Error] with a message. *)
Inductive outcome (A : Type) : Type :=
| Return (a : A)
| Throw (message : string).
Arguments Return {A} a.
Arguments Throw {A} message.

(** [matrix[k]] as an operand of [*]: past the end of the array the
    read is [undefined], which arithmetic converts to NaN. *)
Definition elem (matrix : list float) (k : nat) : float := nth k matrix nan.

Definition applyDyeCouplingToDensity (densities : Vector3) (matrix : list float)
  : Vector3 :=
  let '(dr, dg, db) := densities in
  (elem matrix 0 * dr + elem matrix 1 * dg + elem matrix 2 * db,
   elem matrix 3 * dr + elem matrix 4 * dg + elem matrix 5 * db,
   elem matrix 6 * dr + elem matrix 7 * dg + elem matrix 8 * db).

(** [Math.max] of two numbers: NaN if either is NaN, and [+0] above
    [-0]. *)
Definition Math_max (a b : float) : float :=
  if is_nan a || is_nan b then nan
  else if a <? b then b
  else if b <? a then a
  else if get_sign a then b else a.

Section Transmittance.

(** [Math.log10] and [Math.pow] are left to the implementation by the
    language standard; the transmittance variant is parametric in
    them. *)
Variable Math_log10 : float -> float.
Variable Math_pow : float -> float -> float.

(** The literal [1e-6] is the double [0x1.0c6f7a0b5ed8dp-20]. *)
Definition applyDyeCoupling (rgb : Vector3) (matrix : list float)
  : outcome Vector3 :=
  if negb (List.length matrix =? 9)%nat then
    Throw "Dye coupling matrix must have 9 elements (3x3)"
  else
    let '(r, g, b) := rgb in
    let epsilon := 0x1.0c6f7a0b5ed8dp-20 in
    let dr := - Math_log10 (Math_max r epsilon) in
    let dg := - Math_log10 (Math_max g epsilon) in
    let db := - Math_log10 (Math_max b epsilon) in
    let densities_new := applyDyeCouplingToDensity (dr, dg, db) matrix in
    let '(n0, n1, n2) := densities_new in
    Return (Math_pow 10 (- n0), Math_pow 10 (- n1), Math_pow 10 (- n2)).

End Transmittance.

Definition IDENTITY_MATRIX : list float :=
  [1; 0; 0;
   0; 1; 0;
   0; 0; 1].

(** [==] on numbers, componentwise. *)
Definition num_eq (a b : Vector3) : bool :=
  let '(a0, a1, a2) := a in
  let '(b0, b1, b2) := b in
  (a0 =? b0) && (a1 =? b1) && (a2 =? b2).

(** *** Vocabulary for statements about doubles *)

(** The double 1.0 in the kernel's specification format. *)
Definition SF1 : spec_float := S754_finite false 4503599627370496 (-52).

(** A zero or a finite non-zero double: neither an infinity nor NaN. *)
Definition finiteSF (X : spec_float) : bool :=
  match X with
  | S754_zero _ | S754_finite _ _ _ => true
  | _ => false
  end.

Definition signSF (X : spec_float) : bool :=
  match X with
  | S754_zero s | S754_finite s _ _ | S754_infinity s => s
  | S754_nan => false
  end.

Definition finite (x : float) : bool := finiteSF (Prim2SF x).

(** [R] is [X] bit for bit, or [X] is [-0] and [R] is [+0]. *)
Definition keeps (X R : spec_float) : Prop :=
  R = X \/ (X = S754_zero true /\ R = S754_zero false).

Definition kept (x r : float) : Prop :=
  r = x \/ (x = neg_zero /\ r = zero).

(** A matrix argument of three elements. *)
Definition shortMatrix : list float := [1; 0; 0].

End DyeCoupling.

(** ** tonemapping.ts *)

Module ToneMapping.
Import JS.
Local Open Scope R_scope.

(** The string union ['aces' | 'aces_linear' | 'reinhard' | 'simple' |
    'linear']. *)
Inductive ToneMappingMode :=
  | mode_aces | mode_aces_linear | mode_reinhard | mode_simple | mode_linear.

Definition acesToneMapping (linear : R) : R :=
  let x := Math_max linear 0 in
  let a := 2.51 in
  let b := 0.03 in
  let c := 2.43 in
  let d := 0.59 in
  let e := 0.14 in
  let numerator := x * (a * x + b) in
  let denominator := x * (c * x + d) + e in
  let mapped := numerator / denominator in
  let clamped := Math_max 0 (Math_min 1 mapped) in
  Math_pow clamped (1 / 2.2).

Definition acesLinearToneMapping (linear : R) : R :=
  let clamped := Math_max 0 (Math_min 1 linear) in
  Math_pow clamped (1 / 2.2).

(** [whitePoint] defaults to 1. *)
Definition reinhardToneMapping (linear : R) (whitePoint : option R) : R :=
  let whitePoint := match whitePoint with Some w => w | None => 1 end in
  let mapped := linear / (1 + linear / whitePoint) in
  Math_pow mapped (1 / 2.2).

Definition simpleToneMapping (linear : R) : R :=
  let clamped := Math_max 0 (Math_min 1 linear) in
  Math_pow clamped (1 / 2.2).

(** [mode] defaults to ['linear'] and [whitePoint] to 1. *)
Definition applyToneMapping (linear : R) (mode : option ToneMappingMode)
  (whitePoint : option R) : R :=
  let mode := match mode with Some m => m | None => mode_linear end in
  let whitePoint := match whitePoint with Some w => w | None => 1 end in
  match mode with
  | mode_aces => acesToneMapping linear
  | mode_aces_linear => acesLinearToneMapping linear
  | mode_reinhard => reinhardToneMapping linear (Some whitePoint)
  | mode_simple => simpleToneMapping linear
  | mode_linear => simpleToneMapping linear
  end.

(** *** Vocabulary for statements about tone mapping *)


(** The decoding the page applies to an input sample. *)
Definition decode (p : R) : R := Math_pow p 2.2.

(** The modes that clamp and gamma-encode without a curve. *)
Definition plain_mode (m : option ToneMappingMode) : Prop :=
  m = None \/ m = Some mode_aces_linear \/ m = Some mode_simple
  \/ m = Some mode_linear.

End ToneMapping.

(** ** The ACES ADX module: density to display

    The debug logging guarded by [Math.random() < 0.001] writes to the
    console only and is left out. *)

Module Adx.
Import JS Curve.
Local Open Scope R_scope.

Definition negativeDensityToACES (densityCMY : Vector3) : Vector3 :=
  let '(C, M, Y) := densityCMY in
  let T_cyan := Math_pow 10 (- C) in
  let T_magenta := Math_pow 10 (- M) in
  let T_yellow := Math_pow 10 (- Y) in
  (T_cyan, T_magenta, T_yellow).

(** The sRGB transfer function local to [acesToSRGB]. *)
Definition applyGamma (v : R) : R :=
  let v := Math_max 0 (Math_min 1 v) in
  if leb v 0.0031308 then 12.92 * v
  else 1.055 * Math_pow v (1 / 2.4) - 0.055.

Definition acesToSRGB (sceneRGB : Vector3) : Vector3 :=
  let '(R0, G0, B0) := sceneRGB in
  let R1 := R0 / (1 + R0) in
  let G1 := G0 / (1 + G0) in
  let B1 := B0 / (1 + B0) in
  (applyGamma R1, applyGamma G1, applyGamma B1).

Definition negativeDensityToDisplay (densityCMY : Vector3) : Vector3 :=
  let sceneRGB := negativeDensityToACES densityCMY in
  let srgb := acesToSRGB sceneRGB in
  srgb.

Definition densityToDisplay (density : Vector3) : Vector3 :=
  negativeDensityToDisplay density.

End Adx.

(** * Properties *)

(** ** Facts about the numeric primitives *)

Module JSFacts.
Import JS.
Local Open Scope R_scope.

Lemma ltb_true a b : ltb a b = true <-> a < b.
Proof. unfold ltb; destruct (Rlt_dec a b); split; auto; discriminate. Qed.

Lemma ltb_false a b : ltb a b = false <-> b <= a.
Proof.
  unfold ltb; destruct (Rlt_dec a b); split; intros; try discriminate; lra.
Qed.

Lemma leb_true a b : leb a b = true <-> a <= b.
Proof. unfold leb; destruct (Rle_dec a b); split; auto; discriminate. Qed.

Lemma leb_false a b : leb a b = false <-> b < a.
Proof.
  unfold leb; destruct (Rle_dec a b); split; intros; try discriminate; lra.
Qed.

Lemma or_else_nonzero x d : x <> 0 -> or_else x d = x.
Proof.
  intros H. unfold or_else.
  destruct (Req_dec_T x 0); [contradiction | reflexivity].
Qed.

Lemma Math_pow_0_r b : Math_pow b 0 = 1.
Proof. unfold Math_pow. destruct (Req_dec_T 0 0); [reflexivity | lra]. Qed.

Lemma Math_pow_1_l e : Math_pow 1 e = 1.
Proof.
  unfold Math_pow. destruct (Req_dec_T e 0); [reflexivity|].
  destruct (Rlt_dec 0 1); [|lra].
  unfold Rpower. rewrite ln_1, Rmult_0_r. apply exp_0.
Qed.

Lemma Math_pow_0_l e : 0 < e -> Math_pow 0 e = 0.
Proof.
  intros He. unfold Math_pow. destruct (Req_dec_T e 0); [lra|].
  destruct (Rlt_dec 0 0); [lra|].
  destruct (Req_dec_T 0 0); [reflexivity | lra].
Qed.

Lemma Math_pow_nonneg b e : 0 <= b -> 0 < e -> 0 <= Math_pow b e.
Proof.
  intros Hb He. unfold Math_pow. destruct (Req_dec_T e 0); [lra|].
  destruct (Rlt_dec 0 b).
  - left. unfold Rpower. apply exp_pos.
  - destruct (Req_dec_T b 0); lra.
Qed.

Lemma ln_10_pos : 0 < ln 10.
Proof. rewrite <- ln_1. apply ln_increasing; lra. Qed.

Lemma Math_log10_1 : Math_log10 1 = 0.
Proof. unfold Math_log10. rewrite ln_1. lra. Qed.

Lemma Math_log10_lt_1 x : 0 < x < 1 -> Math_log10 x < 0.
Proof.
  intros [H0 H1]. unfold Math_log10.
  assert (ln x < 0) by (rewrite <- ln_1; apply ln_increasing; lra).
  pose proof ln_10_pos.
  apply Ropp_lt_cancel. rewrite Ropp_0.
  replace (- (ln x / ln 10)) with ((- ln x) * / ln 10) by (unfold Rdiv; lra).
  apply Rmult_lt_0_compat; [lra | now apply Rinv_0_lt_compat].
Qed.

Lemma Math_log10_gt_1 x : 1 < x -> 0 < Math_log10 x.
Proof.
  intros H1. unfold Math_log10.
  assert (0 < ln x) by (rewrite <- ln_1; apply ln_increasing; lra).
  pose proof ln_10_pos.
  apply Rmult_lt_0_compat; [lra | now apply Rinv_0_lt_compat].
Qed.

(** A clamp [min(max(x, lo), hi)] lands in [[lo, hi]]. *)
Lemma clamp_range x lo hi :
  lo <= hi -> lo <= Math_min (Math_max x lo) hi <= hi.
Proof.
  intros H. unfold Math_min, Math_max. split.
  - apply Rmin_glb; [apply Rmax_r | exact H].
  - apply Rmin_r.
Qed.

(** *** Powers and logarithms of positive numbers *)

Lemma Math_pow_pos_base b e : 0 < b -> Math_pow b e = Rpower b e.
Proof.
  intros Hb. unfold Math_pow. destruct (Req_dec_T e 0) as [-> | He].
  - symmetry. apply Rpower_O. exact Hb.
  - destruct (Rlt_dec 0 b); [reflexivity | contradiction].
Qed.

Lemma Math_pow_gt_0 b e : 0 < b -> 0 < Math_pow b e.
Proof. intros Hb. rewrite Math_pow_pos_base by exact Hb. apply exp_pos. Qed.





(** [Math.pow] is monotone in a non-negative base, for a positive
    exponent. *)
Lemma Math_pow_le_compat a b e :
  0 < e -> 0 <= a <= b -> Math_pow a e <= Math_pow b e.
Proof.
  intros He [Ha Hab].
  destruct (Req_dec_T a 0) as [-> | Hna].
  - rewrite Math_pow_0_l by exact He. apply Math_pow_nonneg; lra.
  - rewrite !Math_pow_pos_base by lra. apply Rle_Rpower_l; lra.
Qed.


Lemma Math_pow_unit_range a e :
  0 < e -> 0 <= a <= 1 -> 0 <= Math_pow a e <= 1.
Proof.
  intros He Ha. split; [apply Math_pow_nonneg; lra|].
  rewrite <- (Math_pow_1_l e). apply Math_pow_le_compat; lra.
Qed.

End JSFacts.

(** ** Curve interpolation *)

Module CurveFacts.
Import JS JSFacts Curve.
Local Open Scope R_scope.

Lemma last_default (l : list Point) : forall a d d',
  last (a :: l) d = last (a :: l) d'.
Proof.
  induction l as [|b l IH]; intros a d d'; [reflexivity|].
  change (last (b :: l) d = last (b :: l) d'). apply IH.
Qed.

Lemma lerp_between p q x :
  px p <= x < px q -> between (py p) (py q) (lerp p q x).
Proof.
  intros [H1 H2]. unfold between, lerp.
  set (t := (x - px p) / (px q - px p)).
  assert (Ht : 0 <= t < 1).
  { unfold t. split.
    - apply Rmult_le_pos; [lra|]. left. apply Rinv_0_lt_compat. lra.
    - apply (Rmult_lt_reg_r (px q - px p)); [lra|].
      unfold Rdiv. rewrite Rmult_assoc, Rinv_l by lra. lra. }
  unfold Rmin, Rmax. destruct (Rle_dec (py p) (py q)); split; nra.
Qed.

Lemma bracket_cons x p pts i :
  bracket x (p :: pts) (S i) <-> bracket x pts i.
Proof. unfold bracket. cbn [nth_error]. tauto. Qed.

Lemma bracket_zero x p q pts :
  bracket x (p :: q :: pts) 0 <-> px p <= x < px q.
Proof.
  unfold bracket. cbn [nth_error]. split.
  - intros (p' & q' & Hp & Hq & H). now inversion Hp; inversion Hq; subst.
  - intros H. now exists p, q.
Qed.

Lemma first_bracket_cons x p pts i :
  ~ bracket x (p :: pts) 0 ->
  first_bracket x pts i -> first_bracket x (p :: pts) (S i).
Proof.
  intros H0 [Hb Hf]. split.
  - now apply bracket_cons.
  - intros [|j] Hj; [exact H0|]. rewrite bracket_cons. apply Hf. lia.
Qed.

Lemma first_bracket_tail x p pts i :
  first_bracket x (p :: pts) (S i) -> first_bracket x pts i.
Proof.
  intros [Hb Hf]. split.
  - now apply bracket_cons in Hb.
  - intros j Hj Hbj. apply (Hf (S j)); [lia|]. now apply bracket_cons.
Qed.

Lemma first_bracket_unique x pts i j :
  first_bracket x pts i -> first_bracket x pts j -> i = j.
Proof.
  intros [Hi Hfi] [Hj Hfj].
  destruct (Nat.lt_trichotomy i j) as [H | [H | H]]; auto.
  - exfalso. exact (Hfj i H Hi).
  - exfalso. exact (Hfi j H Hj).
Qed.

(** The loop returns the interpolant of the first interval holding x. *)
Lemma loop_at_first_bracket pts : forall x fb i p q,
  first_bracket x pts i ->
  nth_error pts i = Some p -> nth_error pts (S i) = Some q ->
  interpolate_loop x pts fb = lerp p q x.
Proof.
  induction pts as [|a [|b rest] IH]; intros x fb i p q Hfb Hp Hq.
  - destruct i; discriminate.
  - destruct i as [|[|i]]; cbn in Hq; try discriminate; destruct i; discriminate.
  - destruct i as [|i].
    + cbn in Hp, Hq. inversion Hp; inversion Hq; subst.
      destruct Hfb as [Hb _]. apply bracket_zero in Hb.
      cbn [interpolate_loop].
      destruct Hb as [H1 H2].
      apply leb_true in H1. apply ltb_true in H2. rewrite H1, H2. reflexivity.
    + assert (Hn : ~ bracket x (a :: b :: rest) 0).
      { destruct Hfb as [_ Hf]. apply Hf. lia. }
      rewrite bracket_zero in Hn.
      cbn [interpolate_loop].
      destruct (leb (px a) x && ltb x (px b)) eqn:E.
      * exfalso. apply andb_prop in E. destruct E as [E1 E2].
        apply leb_true in E1. apply ltb_true in E2. tauto.
      * apply (IH x fb i p q); auto. now apply first_bracket_tail in Hfb.
Qed.

(** Between the first abscissa (inclusive) and the last (exclusive)
    some interval holds x, on any curve. *)
Lemma bracket_exists pts : forall p0 x,
  px (hd p0 pts) <= x -> x < px (last pts p0) -> pts <> [] ->
  exists i, first_bracket x pts i.
Proof.
  induction pts as [|a [|b rest] IH]; intros p0 x Hlo Hhi Hne.
  - congruence.
  - cbn in *. lra.
  - destruct (Rlt_dec x (px b)) as [Hb | Hb].
    + exists 0%nat. split.
      * apply bracket_zero. cbn in Hlo. lra.
      * intros j Hj; lia.
    + destruct (IH p0 x) as [i Hi].
      * cbn. lra.
      * exact Hhi.
      * discriminate.
      * exists (S i). apply first_bracket_cons; auto.
        rewrite bracket_zero. lra.
Qed.

Lemma nondecreasing_nth_last pts : forall p0 k q,
  nondecreasing pts -> nth_error pts k = Some q -> px q <= px (last pts p0).
Proof.
  induction pts as [|a [|b rest] IH]; intros p0 k q Hnd Hk.
  - destruct k; discriminate.
  - destruct k as [|k]; cbn in Hk; [inversion Hk; subst; cbn; lra|].
    destruct k; discriminate.
  - change (last (a :: b :: rest) p0) with (last (b :: rest) p0).
    destruct Hnd as [H1 H2]. destruct k as [|k].
    + cbn in Hk. inversion Hk; subst.
      specialize (IH p0 0%nat b H2 eq_refl). lra.
    + apply (IH p0 k q H2). exact Hk.
Qed.

Lemma nondecreasing_last pts p0 :
  pts <> [] -> nondecreasing pts -> px (hd p0 pts) <= px (last pts p0).
Proof.
  destruct pts as [|a rest]; [congruence|]. intros _ H.
  apply (nondecreasing_nth_last (a :: rest) p0 0%nat a H eq_refl).
Qed.

Lemma increasing_nondecreasing pts : increasing pts -> nondecreasing pts.
Proof.
  induction pts as [|a [|b rest] IH]; cbn; auto.
  intros [H1 H2]. split; [lra | now apply IH].
Qed.

(** The three branches of [interpolate]. *)
Lemma interpolate_low pts p0 x :
  pts <> [] -> x <= px (hd p0 pts) -> interpolate x pts = py (hd p0 pts).
Proof.
  destruct pts as [|a rest]; [congruence|]. intros _ H. cbn [hd] in *.
  unfold interpolate. apply leb_true in H. now rewrite H.
Qed.

Lemma interpolate_high pts p0 x :
  pts <> [] -> px (hd p0 pts) < x -> px (last pts p0) <= x ->
  interpolate x pts = py (last pts p0).
Proof.
  destruct pts as [|a rest]; [congruence|]. intros _ H1 H2. cbn [hd] in *.
  unfold interpolate. rewrite (last_default rest a a p0).
  assert (E1 : leb x (px a) = false) by (apply leb_false; lra).
  assert (E2 : leb (px (last (a :: rest) p0)) x = true) by (apply leb_true; lra).
  now rewrite E1, E2.
Qed.

Lemma interpolate_inside pts p0 x :
  pts <> [] -> px (hd p0 pts) < x < px (last pts p0) ->
  exists i p q,
    first_bracket x pts i
    /\ nth_error pts i = Some p /\ nth_error pts (S i) = Some q
    /\ interpolate x pts = lerp p q x.
Proof.
  intros Hne [H1 H2].
  destruct (bracket_exists pts p0 x) as [i Hi]; [lra | lra | exact Hne |].
  pose proof Hi as [(p & q & Hp & Hq & Hx) _].
  exists i, p, q. repeat split; try assumption; try apply Hi.
  destruct pts as [|a rest]; [congruence|]. cbn [hd] in *.
  unfold interpolate. rewrite (last_default rest a a p0).
  assert (E1 : leb x (px a) = false) by (apply leb_false; lra).
  assert (E2 : leb (px (last (a :: rest) p0)) x = false) by (apply leb_false; lra).
  rewrite E1, E2. now apply loop_at_first_bracket with (i := i).
Qed.

(** C4, as the code has it.  On a non-empty curve ordered by x,
    [interpolate] returns the first point's y for every x at or below
    the first abscissa, and the last point's y for every x at or above
    the last abscissa that is also above the first; strictly inside the
    domain the loop stops at the first interval [[p[i].x, p[i+1].x)]
    holding x, with control points p and q, and the result is the
    linear interpolant
    [p.y + (x - p.x) / (q.x - p.x) * (q.y - p.y)],
    which in exact arithmetic lies between p.y and q.y. *)
Theorem interpolate_spec pts p0 x :
  pts <> [] -> nondecreasing pts ->
  let first := hd p0 pts in
  let lastp := last pts p0 in
  (x <= px first -> interpolate x pts = py first)
  /\ (px lastp < x -> interpolate x pts = py lastp)
  /\ (px first < x -> x = px lastp -> interpolate x pts = py lastp)
  /\ (px first < x < px lastp ->
      exists i p q,
        first_bracket x pts i
        /\ nth_error pts i = Some p /\ nth_error pts (S i) = Some q
        /\ interpolate x pts
           = py p + (x - px p) / (px q - px p) * (py q - py p)
        /\ between (yAt pts i) (yAt pts (S i)) (interpolate x pts)).
Proof.
  intros Hne Hnd first lastp.
  pose proof (nondecreasing_last pts p0 Hne Hnd) as Hfl.
  fold first lastp in Hfl.
  split; [|split; [|split]].
  - now apply interpolate_low.
  - intros H. apply interpolate_high; auto; fold first lastp; lra.
  - intros H1 H2. apply interpolate_high; auto; fold first lastp; lra.
  - intros H.
    destruct (interpolate_inside pts p0 x Hne H)
      as (i & p & q & Hfb & Hp & Hq & E).
    exists i, p, q.
    split; [exact Hfb|]. split; [exact Hp|]. split; [exact Hq|].
    split; [exact E|].
    unfold yAt. rewrite Hp, Hq, E. apply lerp_between.
    destruct Hfb as [(p' & q' & Hp' & Hq' & Hx) _]. congruence.
Qed.

Lemma interpolate_spec_witness :
  interpolate 0 flat_start = 5
  /\ exists i p q,
       first_bracket (1 / 2) flat_start i
       /\ nth_error flat_start i = Some p
       /\ nth_error flat_start (S i) = Some q
       /\ interpolate (1 / 2) flat_start
          = py p + (1 / 2 - px p) / (px q - px p) * (py q - py p)
       /\ between (yAt flat_start i) (yAt flat_start (S i))
                  (interpolate (1 / 2) flat_start).
Proof.
  assert (Hne : flat_start <> []) by discriminate.
  assert (Hnd : nondecreasing flat_start) by (cbn; lra).
  destruct (interpolate_spec flat_start (mkPoint 0 0) 0 Hne Hnd)
    as (H1 & _ & _ & _).
  destruct (interpolate_spec flat_start (mkPoint 0 0) (1 / 2) Hne Hnd)
    as (_ & _ & _ & H4).
  split.
  - apply H1. cbn. lra.
  - apply H4. cbn. lra.
Defined.

(** On a curve that repeats its first abscissa the clamp answers
    before the scan: at x = 0 on (0,5), (0,1), (1,2) the first interval
    holding x is the second one, whose y run from 1 to 2, and
    [interpolate] returns 5. *)
Lemma repeated_first_abscissa :
  ~ (forall pts p0 x, pts <> [] -> nondecreasing pts ->
                      interpolation_claim pts p0 x).
Proof.
  intros H.
  assert (Hne : flat_start <> []) by discriminate.
  assert (Hnd : nondecreasing flat_start) by (cbn; lra).
  destruct (H flat_start (mkPoint 0 0) 0 Hne Hnd) as (_ & _ & H3).
  assert (Hfb : first_bracket 0 flat_start 1).
  { split.
    - exists (mkPoint 0 1), (mkPoint 1 2). cbn. repeat split; lra.
    - intros j Hj. assert (j = 0%nat) by lia. subst j.
      unfold flat_start. rewrite bracket_zero. cbn. lra. }
  specialize (H3 ltac:(cbn; lra) 1%nat Hfb).
  rewrite (interpolate_low flat_start (mkPoint 0 0) 0 Hne) in H3
    by (cbn; lra).
  unfold between, yAt in H3. cbn in H3.
  unfold Rmax in H3. destruct (Rle_dec 1 2); lra.
Qed.

(** In binary64 the interpolant can leave the bracket by a rounding
    error: on (-1.6, 0.07), (-0.6, 0.66) at the largest double below
    -0.6 the result is 0.6600000000000001, above 0.66. *)
Lemma binary64_overshoot :
  let x := Curve64.below_last in
  let p := nth 0 Curve64.steep (Curve64.mkPoint 0 0) in
  let q := nth 1 Curve64.steep (Curve64.mkPoint 0 0) in
  (PrimFloat.ltb (Curve64.px p) (Curve64.px q)
   && PrimFloat.leb (Curve64.px p) x && PrimFloat.ltb x (Curve64.px q)
   && PrimFloat.ltb (Curve64.py p) (Curve64.py q))%bool = true
  /\ Curve64.interpolate x Curve64.steep = 0x1.51eb851eb8520p-1%float
  /\ PrimFloat.ltb (Curve64.py q) (Curve64.interpolate x Curve64.steep) = true.
Proof. cbv zeta. repeat split; vm_compute; reflexivity. Qed.

(** The rounding error is not confined to the last place: on the wide
    falling curve (-3, 4), (0, 0.05) at x = -1e-17 the binary64 result
    is 0.04999999999999982, 26 units in the last place below 0.05, the
    smaller of the two bracketing y. *)
Lemma binary64_undershoot_wide :
  let x := Curve64.near_zero in
  let q := nth 1 Curve64.wide (Curve64.mkPoint 0 0) in
  Curve64.interpolate x Curve64.wide = 0x1.999999999998p-5%float
  /\ PrimFloat.ltb (Curve64.interpolate x Curve64.wide) (Curve64.py q) = true
  /\ PrimFloat.sub (Curve64.py q) (Curve64.interpolate x Curve64.wide)
     = PrimFloat.mul 26 0x1p-57%float.
Proof. cbv zeta. repeat split; vm_compute; reflexivity. Qed.

(** The same rounding on a falling curve takes the interpolant under
    the smallest y of the curve: on (-1.6, 0.66), (-0.6, 0.07) at the
    largest double below -0.6 the result is 0.06999999999999995, the
    difference to the minimum 0.07 is -2^-54, and the clamp of
    [develop] returns 0. *)
Lemma binary64_undershoot : Curve64.undershoot.
Proof. unfold Curve64.undershoot. repeat split; vm_compute; reflexivity. Qed.

Lemma binary64_undershoot_value :
  Curve64.interpolate Curve64.below_last Curve64.sinking
  = 0x1.1eb851eb851e8p-4%float
  /\ PrimFloat.sub (Curve64.interpolate Curve64.below_last Curve64.sinking)
                   (Curve64.getMinY Curve64.sinking)
     = PrimFloat.opp 0x1p-54%float.
Proof. split; vm_compute; reflexivity. Qed.

(** And it breaks monotonicity next to a knot: on the rising curve
    (-1.6, 0.07), (-0.6, 0.66) the value 0.6600000000000001 just below
    -0.6 is above the value 0.66 at -0.6. *)
Lemma binary64_step_back : Curve64.step_back.
Proof. unfold Curve64.step_back. split; vm_compute; reflexivity. Qed.

(** On (-3, 0.05), (-1.6, 0.06), (-0.6, 0.57) the developed density is
    0.52 just below -0.6 and 0.5199999999999999 at -0.6. *)
Lemma binary64_density_step_back : Curve64.density_step_back.
Proof. unfold Curve64.density_step_back. split; vm_compute; reflexivity. Qed.

Lemma binary64_density_values :
  Curve64.developChannel Curve64.below_last Curve64.kneed
  = 0x1.0a3d70a3d70a4p-1%float
  /\ Curve64.developChannel Curve64.at_last Curve64.kneed
     = 0x1.0a3d70a3d70a3p-1%float.
Proof. split; vm_compute; reflexivity. Qed.

(** C4 as worded fails twice over: over the reals at a repeated first
    abscissa, where the clamp answers 5 for a bracket whose y run from
    1 to 2; and in binary64 on a curve with distinct abscissas, where
    the rounded interpolant 0.6600000000000001 exceeds both bracketing
    y, 0.07 and 0.66. *)
Lemma interpolation_claim_counterexample :
  ~ (forall pts p0 x, pts <> [] -> nondecreasing pts ->
                      interpolation_claim pts p0 x)
  /\ PrimFloat.ltb (Curve64.py (nth 1 Curve64.steep (Curve64.mkPoint 0 0)))
                   (Curve64.interpolate Curve64.below_last Curve64.steep)
     = true.
Proof.
  split; [exact repeated_first_abscissa | exact (proj2 (proj2 binary64_overshoot))].
Qed.

(** When no abscissa is repeated the property holds as worded, over
    the reals. *)
Lemma interpolation_claim_increasing pts p0 x :
  pts <> [] -> increasing pts -> interpolation_claim pts p0 x.
Proof.
  intros Hne Hinc.
  assert (Hnd := increasing_nondecreasing pts Hinc).
  pose proof (nondecreasing_last pts p0 Hne Hnd) as Hfl.
  unfold interpolation_claim. split; [|split].
  - intros H. apply interpolate_low; auto. lra.
  - intros H. apply interpolate_high; auto; lra.
  - intros [Hlo Hhi] i Hfb.
    destruct (Rle_lt_or_eq_dec _ _ Hlo) as [Hlt | Heq].
    + destruct (Rle_lt_or_eq_dec _ _ Hhi) as [Hlt' | Heq'].
      * destruct (interpolate_inside pts p0 x Hne (conj Hlt Hlt'))
          as (i' & p & q & Hfb' & Hp & Hq & E).
        rewrite (first_bracket_unique x pts i i' Hfb Hfb').
        unfold yAt. rewrite Hp, Hq, E. apply lerp_between.
        destruct Hfb' as [(p' & q' & Hp' & Hq' & Hx) _]. congruence.
      * exfalso. destruct Hfb as [(p & q & Hp & Hq & Hx) _].
        pose proof (nondecreasing_nth_last pts p0 (S i) q Hnd Hq). lra.
    + destruct pts as [|a [|b rest]]; [congruence| |].
      * destruct Hfb as [(p & q & Hp & Hq & Hx) _].
        destruct i; discriminate.
      * cbn [hd] in *. destruct Hinc as [Hab _].
        assert (Hb0 : bracket x (a :: b :: rest) 0)
          by (apply bracket_zero; lra).
        assert (Hi0 : i = 0%nat).
        { destruct i as [|k]; auto. exfalso.
          destruct Hfb as [_ Hf]. apply (Hf 0%nat); [lia | exact Hb0]. }
        subst i.
        rewrite (interpolate_low (a :: b :: rest) p0 x) by (cbn; auto; lra).
        unfold yAt, between. cbn.
        unfold Rmin, Rmax. destruct (Rle_dec (py a) (py b)); lra.
Qed.

End CurveFacts.

(** ** The simulation engine *)

Module EngineFacts.
Import JS JSFacts Curve Engine.
Local Open Scope R_scope.

Lemma Math_max_eps6_ge x : eps6 <= x -> Math_max eps6 x = x.
Proof. intros H. unfold Math_max. now apply Rmax_right. Qed.

Lemma Math_max_eps6_le x : x <= eps6 -> Math_max eps6 x = eps6.
Proof. intros H. unfold Math_max. now apply Rmax_left. Qed.

Lemma Math_log10_eps6 : Math_log10 eps6 <= -1.
Proof.
  unfold Math_log10, eps6.
  pose proof ln_10_pos as H10.
  assert (H : ln (1 / 1000000) < ln (/ 10)) by (apply ln_increasing; lra).
  rewrite ln_Rinv in H by lra.
  apply (Rmult_le_reg_r (ln 10)); [exact H10|].
  unfold Rdiv. rewrite Rmult_assoc, Rinv_l by lra. lra.
Qed.

Lemma Math_pow_10_m1 : Math_pow 10 (Ropp 1) = / 10.
Proof.
  unfold Math_pow. destruct (Req_dec_T (Ropp 1) 0); [lra|].
  destruct (Rlt_dec 0 10); [|lra].
  unfold Rpower. replace (Ropp 1 * ln 10) with (- ln 10) by lra.
  rewrite exp_Ropp, exp_ln by lra. reflexivity.
Qed.

Lemma Math_pow_10_m0 : Math_pow 10 (Ropp 0) = 1.
Proof. rewrite Ropp_0. apply Math_pow_0_r. Qed.

Lemma interpolate_step_high : interpolate 0 stepCurve = 1.
Proof.
  unfold interpolate, stepCurve. cbn [px py last].
  assert (E1 : leb 0 (-1) = false) by (apply leb_false; lra).
  assert (E2 : leb 0 0 = true) by (apply leb_true; lra).
  rewrite E1, E2. reflexivity.
Qed.

Lemma interpolate_step_low x : x <= -1 -> interpolate x stepCurve = 0.
Proof.
  intros H. unfold interpolate, stepCurve. cbn [px py].
  apply leb_true in H. rewrite H. reflexivity.
Qed.

(** *** Construction *)

Lemma findMidpointShift_some pts t :
  pts <> [] -> exists m, findMidpointShift pts t = Some m.
Proof.
  destruct pts as [|p0 rest]; [congruence|]. intros _.
  unfold findMidpointShift.
  destruct (bisect 15 _ _ _ _ _ _) as [low high]. now eexists.
Qed.

(** The constructor throws on an empty curve and only there. *)
Lemma findMidpointShift_none pts t :
  findMidpointShift pts t = None <-> pts = [].
Proof.
  split.
  - destruct pts as [|p0 rest]; auto. intros H.
    destruct (findMidpointShift_some (p0 :: rest) t) as [m Hm];
      [discriminate | congruence].
  - intros ->. reflexivity.
Qed.

Lemma new_inv wl p e :
  new wl p = Some e ->
  exists midR midG midB cb,
    findMidpointShift (sensitometry_red p) 1 = Some midR
    /\ findMidpointShift (sensitometry_green p) 1 = Some midG
    /\ findMidpointShift (sensitometry_blue p) 1 = Some midB
    /\ computedBase (preEngine wl p midR midG midB) = Some cb
    /\ e = with_baseResponse (preEngine wl p midR midG midB)
             (chooseBase (inferFilmType p) cb).
Proof.
  unfold new.
  destruct (findMidpointShift (sensitometry_red p) 1) as [midR|]; [|discriminate].
  destruct (findMidpointShift (sensitometry_green p) 1) as [midG|]; [|discriminate].
  destruct (findMidpointShift (sensitometry_blue p) 1) as [midB|]; [|discriminate].
  destruct (computedBase _) as [cb|] eqn:E; [|discriminate].
  intros H. inversion H. now exists midR, midG, midB, cb.
Qed.

Lemma scan_empty e d :
  dyeDensity e = [] ->
  scan e d
  = Some (Math_pow 10 (- v0 d), Math_pow 10 (- v1 d), Math_pow 10 (- v2 d)).
Proof.
  intros H. destruct d as [[C M] Y]. unfold scan. rewrite H. reflexivity.
Qed.

Lemma preEngine_dye wl p a b c :
  no_dye_table p -> dyeDensity (preEngine wl p a b c) = [].
Proof.
  intros [H | H]; cbn [dyeDensity preEngine]; rewrite H; reflexivity.
Qed.

(** Construction succeeds on a profile with three non-empty curves and
    no dye table. *)
Lemma new_succeeds wl p :
  sensitometry_red p <> [] -> sensitometry_green p <> [] ->
  sensitometry_blue p <> [] -> no_dye_table p ->
  exists e, new wl p = Some e.
Proof.
  intros Hr Hg Hb Hd. unfold new.
  destruct (findMidpointShift_some _ 1 Hr) as [midR ->].
  destruct (findMidpointShift_some _ 1 Hg) as [midG ->].
  destruct (findMidpointShift_some _ 1 Hb) as [midB ->].
  unfold computedBase.
  rewrite scan_empty by (apply preEngine_dye; exact Hd).
  eexists. reflexivity.
Qed.

(** *** C1: the sensitivity product *)

(** What [expose] computes: the product with the transposed matrix. *)
Lemma expose_transposed e rgb ev :
  expose e rgb ev
  = scale_and_log e
      (multiplyMatrixVector (transpose (sensitivityMatrix e)) rgb) ev.
Proof.
  unfold expose, scale_and_log, multiplyMatrixVector, transpose.
  destruct (sensitivityMatrix e) as [[[[a b] c] [[d f] g]] [[h i] j]].
  destruct rgb as [[r gg] bb]. cbn.
  f_equal; [f_equal|]; do 3 f_equal; ring.
Qed.

Lemma skew_engine e :
  new [] skewProfile = Some e ->
  sensitivityMatrix e = skewMatrix
  /\ normalizationScale e = (1 / 2, 1 / 1, 1 / 1)
  /\ exists m, sensitivityOffsets e = (0, m - m, m - m).
Proof.
  intros H.
  destruct (new_inv _ _ _ H) as (a & b & c & cb & Ha & Hb & Hc & _ & ->).
  cbn [sensitometry_red sensitometry_green sensitometry_blue skewProfile]
    in Ha, Hb, Hc.
  rewrite Ha in Hb, Hc. inversion Hb; inversion Hc; subst.
  split; [reflexivity|]. split.
  - cbn [normalizationScale with_baseResponse preEngine rgb_to_raw_matrix
         skewProfile].
    unfold multiplyMatrixVector, skewMatrix. cbn [at_ row col v0 v1 v2 fst snd].
    rewrite !or_else_nonzero by lra.
    repeat f_equal; lra.
  - exists c. reflexivity.
Qed.

(** C1: [expose] does not compute the row-major product
    [sensitivityMatrix . rgb] that the specification states and that the
    constructor's normalisation uses.  On the engine built from a
    profile whose matrix has rows (1,1,0), (0,1,0), (0,0,1): pure red
    (1,0,0) at EV 0 exposes the green layer at log-exposure 0, where the
    row-major product leaves it at the clamp, log10 of 1e-6; and scene
    white (1,1,1) exposes the green layer at log10 2 instead of the 0 the
    normalisation is there to give. *)
Theorem expose_is_not_row_major :
  exists e, new [] skewProfile = Some e
    /\ v1 (expose e (1, 0, 0) 0) = 0
    /\ v1 (expose_row_major e (1, 0, 0) 0) = Math_log10 eps6
    /\ Math_log10 eps6 < 0
    /\ v1 (expose e (1, 1, 1) 0) = Math_log10 2
    /\ v1 (expose_row_major e (1, 1, 1) 0) = 0
    /\ 0 < Math_log10 2.
Proof.
  destruct (new_succeeds [] skewProfile) as [e He];
    try discriminate; [left; reflexivity|].
  exists e. split; [exact He|].
  destruct (skew_engine e He) as (Hm & Hn & m & Ho).
  assert (Hk : 1 / 1 * Math_pow 10 (m - m) * Math_pow 2 0 = 1).
  { replace (m - m) with 0 by lra. rewrite !Math_pow_0_r. lra. }
  unfold expose_row_major, scale_and_log, expose, multiplyMatrixVector.
  rewrite Hm, Hn, Ho. unfold skewMatrix.
  cbn [at_ row col v0 v1 v2 fst snd]. rewrite Hk.
  repeat split.
  - rewrite Math_max_eps6_ge by (unfold eps6; lra).
    replace ((1 * 1 + 0 * 1 + 0 * 0) * 1) with 1 by lra. apply Math_log10_1.
  - rewrite Math_max_eps6_le by (unfold eps6; lra). reflexivity.
  - apply Math_log10_lt_1. unfold eps6. lra.
  - rewrite Math_max_eps6_ge by (unfold eps6; lra). f_equal. lra.
  - rewrite Math_max_eps6_ge by (unfold eps6; lra).
    replace ((0 * 1 + 1 * 1 + 0 * 1) * 1) with 1 by lra. apply Math_log10_1.
  - apply Math_log10_gt_1. lra.
Qed.

(** On a symmetric matrix the two products agree. *)
Lemma expose_row_major_symmetric e rgb ev :
  transpose (sensitivityMatrix e) = sensitivityMatrix e ->
  expose e rgb ev = expose_row_major e rgb ev.
Proof.
  intros H. rewrite expose_transposed, H. reflexivity.
Qed.

(** *** C2: scanning without a dye table *)

(** C2: on the engine of any profile whose spectral dye table is
    missing or empty, whatever its film type, [scan] of a density triple
    (C, M, Y) returns exactly (10^-C, 10^-M, 10^-Y). *)
Theorem scan_without_dye_table wl p e C M Y :
  new wl p = Some e -> no_dye_table p ->
  scan e (C, M, Y)
  = Some (Math_pow 10 (- C), Math_pow 10 (- M), Math_pow 10 (- Y)).
Proof.
  intros Hn Hd.
  destruct (new_inv wl p e Hn) as (a & b & c & cb & _ & _ & _ & _ & ->).
  apply (scan_empty _ (C, M, Y)).
  cbn [dyeDensity with_baseResponse]. apply preEngine_dye. exact Hd.
Qed.

Lemma scan_without_dye_table_witness :
  exists e, new [] plainProfile = Some e
    /\ scan e (1, 2, 3)
       = Some (Math_pow 10 (- 1), Math_pow 10 (- 2), Math_pow 10 (- 3)).
Proof.
  destruct (new_succeeds [] plainProfile) as [e He];
    try discriminate; [left; reflexivity|].
  exists e. split; [exact He|].
  apply (scan_without_dye_table [] plainProfile e 1 2 3 He). left; reflexivity.
Defined.

(** *** C10: the floor under the base response *)

Lemma chooseBase_floor t cb :
  0.01 <= v0 (chooseBase t cb) /\ 0.01 <= v1 (chooseBase t cb)
  /\ 0.01 <= v2 (chooseBase t cb).
Proof.
  unfold chooseBase, MIN_VALID_BASE.
  destruct (ltb (v0 cb) (1/100)) eqn:E0; cbn [orb].
  { destruct t; cbn; lra. }
  destruct (ltb (v1 cb) (1/100)) eqn:E1; cbn [orb].
  { destruct t; cbn; lra. }
  destruct (ltb (v2 cb) (1/100)) eqn:E2; cbn [orb].
  { destruct t; cbn; lra. }
  apply ltb_false in E0, E1, E2. cbn. unfold Math_max, eps6.
  repeat split; (eapply Rle_trans; [|apply Rmax_r]); lra.
Qed.

Lemma chooseBase_cases t cb :
  (below_floor cb -> chooseBase t cb = defaultBase t)
  /\ (~ below_floor cb -> chooseBase t cb = cb).
Proof.
  unfold chooseBase, below_floor. split.
  - intros H.
    destruct (ltb (v0 cb) MIN_VALID_BASE) eqn:E0; [reflexivity|].
    destruct (ltb (v1 cb) MIN_VALID_BASE) eqn:E1; [reflexivity|].
    destruct (ltb (v2 cb) MIN_VALID_BASE) eqn:E2; [reflexivity|].
    apply ltb_false in E0, E1, E2. lra.
  - intros H.
    destruct (ltb (v0 cb) MIN_VALID_BASE) eqn:E0;
      [apply ltb_true in E0; tauto|].
    destruct (ltb (v1 cb) MIN_VALID_BASE) eqn:E1;
      [apply ltb_true in E1; tauto|].
    destruct (ltb (v2 cb) MIN_VALID_BASE) eqn:E2;
      [apply ltb_true in E2; tauto|].
    apply ltb_false in E0, E1, E2. cbn [orb].
    unfold MIN_VALID_BASE in *.
    rewrite !Math_max_eps6_ge by (unfold eps6; lra).
    destruct cb as [[x y] z]. reflexivity.
Qed.

Lemma defaultBase_floor t :
  0.08 <= v0 (defaultBase t) /\ 0.08 <= v1 (defaultBase t)
  /\ 0.08 <= v2 (defaultBase t).
Proof. destruct t; cbn; lra. Qed.

(** C10: on every constructed engine each component of [baseResponse]
    is at least 0.01.  When a channel of the computed zero-exposure
    response is under the 0.01 floor the whole triple is the default of
    the film type, whose components are all at least 0.08 (0.08 is the
    blue of the negative default); otherwise it is the computed triple
    itself.  Hence each of the three divisors of [invert] is at least
    0.01. *)
Theorem baseResponse_floor wl p e :
  new wl p = Some e ->
  (0.01 <= v0 (baseResponse e) /\ 0.01 <= v1 (baseResponse e)
   /\ 0.01 <= v2 (baseResponse e))
  /\ (exists midR midG midB cb,
        computedBase (preEngine wl p midR midG midB) = Some cb
        /\ (below_floor cb ->
            baseResponse e = defaultBase (filmType e)
            /\ 0.08 <= v0 (baseResponse e) /\ 0.08 <= v1 (baseResponse e)
            /\ 0.08 <= v2 (baseResponse e))
        /\ (~ below_floor cb -> baseResponse e = cb))
  /\ v2 (defaultBase negative) = 0.08
  /\ (0.01 <= v0 (invert_divisors e) /\ 0.01 <= v1 (invert_divisors e)
      /\ 0.01 <= v2 (invert_divisors e)).
Proof.
  intros H.
  destruct (new_inv _ _ _ H) as (a & b & c & cb & _ & _ & _ & Hcb & ->).
  cbn [baseResponse with_baseResponse filmType preEngine].
  pose proof (chooseBase_floor (inferFilmType p) cb) as Hf.
  split; [exact Hf|]. split; [|split].
  - exists a, b, c, cb. split; [exact Hcb|].
    destruct (chooseBase_cases (inferFilmType p) cb) as [H1 H2]. split.
    + intros Hb. rewrite (H1 Hb). split; [reflexivity|]. apply defaultBase_floor.
    + exact H2.
  - cbn. lra.
  - unfold invert_divisors. cbn [baseResponse with_baseResponse v0 v1 v2 fst snd].
    unfold Math_max.
    repeat split; (eapply Rle_trans; [|apply Rmax_r]); apply Hf.
Qed.

Lemma baseResponse_floor_witness :
  exists e, new [] plainProfile = Some e
    /\ 0.01 <= v0 (baseResponse e) /\ 0.01 <= v1 (baseResponse e)
    /\ 0.01 <= v2 (baseResponse e).
Proof.
  destruct (new_succeeds [] plainProfile) as [e He];
    try discriminate; [left; reflexivity|].
  exists e. split; [exact He|].
  exact (proj1 (baseResponse_floor [] plainProfile e He)).
Defined.

(** *** The calibration bisection *)

Lemma bisect_width n : forall pts d s t lo hi,
  lo <= hi ->
  let '(l, h) := bisect n pts d s t lo hi in
  lo <= l /\ l <= h /\ h <= hi /\ h - l = (hi - lo) / 2 ^ n.
Proof.
  induction n as [|n IH]; intros pts d s t lo hi Hle.
  - cbn [bisect pow]. repeat split; lra.
  - cbn [bisect].
    assert (Hp : 0 < 2 ^ n) by (apply pow_lt; lra).
    destruct (ltb _ t); destruct (ltb 0 s);
    match goal with
    | |- context [bisect n pts d s t ?a ?b] =>
        specialize (IH pts d s t a b ltac:(lra));
        destruct (bisect n pts d s t a b) as [l h];
        destruct IH as (H1 & H2 & H3 & H4);
        repeat split; try lra;
        rewrite H4; cbn [pow]; field; lra
    end.
Qed.

Lemma bisect_crossing_up n : forall pts d t lo hi s,
  0 < s ->
  interpolate lo pts - d < t <= interpolate hi pts - d ->
  let '(l, h) := bisect n pts d s t lo hi in
  interpolate l pts - d < t <= interpolate h pts - d.
Proof.
  induction n as [|n IH]; intros pts d t lo hi s Hs H.
  - cbn [bisect]. exact H.
  - cbn [bisect]. apply ltb_true in Hs. rewrite Hs. apply ltb_true in Hs.
    destruct (ltb _ t) eqn:E.
    + apply ltb_true in E. apply IH; [exact Hs | lra].
    + apply ltb_false in E. apply IH; [exact Hs | lra].
Qed.

Lemma bisect_crossing_down n : forall pts d t lo hi s,
  s <= 0 ->
  interpolate hi pts - d < t <= interpolate lo pts - d ->
  let '(l, h) := bisect n pts d s t lo hi in
  interpolate h pts - d < t <= interpolate l pts - d.
Proof.
  induction n as [|n IH]; intros pts d t lo hi s Hs H.
  - cbn [bisect]. exact H.
  - cbn [bisect]. apply ltb_false in Hs. rewrite Hs. apply ltb_false in Hs.
    destruct (ltb _ t) eqn:E.
    + apply ltb_true in E. apply IH; [exact Hs | lra].
    + apply ltb_false in E. apply IH; [exact Hs | lra].
Qed.



(** X1: on a non-empty curve [findMidpointShift] returns the midpoint
    of an interval [l, h] of width 8 / 2^15 inside [-4, 4]; when the
    target density is crossed between -4 and 4 in the direction of the
    curve's slope, it is still crossed between [l] and [h], so the
    returned log-exposure is within 8 / 2^16 of a crossing. *)
Theorem findMidpointShift_brackets pts p0 t :
  pts <> [] ->
  crossing pts p0 t (-4) 4 ->
  exists l h,
    findMidpointShift pts t = Some ((l + h) / 2)
    /\ -4 <= l /\ l < h /\ h <= 4 /\ h - l = 8 / 2 ^ 15
    /\ crossing pts p0 t l h.
Proof.
  intros Hne. destruct pts as [|a rest]; [congruence|].
  unfold crossing, findMidpointShift, slopeOf, densityAbove. cbn [hd].
  rewrite (CurveFacts.last_default rest a p0 a).
  set (d := getMinY (a :: rest)). set (s := py (last (a :: rest) a) - py a).
  pose proof (bisect_width 15 (a :: rest) d s t (-4) 4 ltac:(lra)) as Hw.
  pose proof (bisect_crossing_up 15 (a :: rest) d t (-4) 4 s) as Hu.
  pose proof (bisect_crossing_down 15 (a :: rest) d t (-4) 4 s) as Hd.
  destruct (bisect 15 (a :: rest) d s t (-4) 4) as [l h].
  destruct Hw as (H1 & H2 & H3 & H4).
  intros Hc. exists l, h. split; [reflexivity|].
  assert (Hp : 0 < 2 ^ 15) by (apply pow_lt; lra).
  assert (Hq : 0 < 8 / 2 ^ 15) by (apply Rdiv_lt_0_compat; lra).
  replace (4 - -4) with 8 in H4 by lra.
  split; [lra|]. split; [lra|]. split; [lra|]. split; [lra|].
  destruct (ltb 0 s) eqn:E.
  - apply ltb_true in E. now apply Hu.
  - apply ltb_false in E. now apply Hd.
Qed.

Lemma testCurve_crossing : crossing testCurve (mkPoint 0 0) 1 (-4) 4.
Proof.
  unfold crossing, slopeOf, densityAbove, testCurve, getMinY.
  cbn [hd last py map fold_left].
  assert (E : ltb 0 (2.2 - 0.2) = true) by (apply ltb_true; lra).
  rewrite E.
  assert (E1 : interpolate (-4) [mkPoint (-3) 0.2; mkPoint 0 2.2] = 0.2).
  { unfold interpolate. cbn [px py].
    assert (L : leb (-4) (-3) = true) by (apply leb_true; lra).
    rewrite L. reflexivity. }
  assert (E2 : interpolate 4 [mkPoint (-3) 0.2; mkPoint 0 2.2] = 2.2).
  { unfold interpolate. cbn [px py last].
    assert (L1 : leb 4 (-3) = false) by (apply leb_false; lra).
    assert (L2 : leb 0 4 = true) by (apply leb_true; lra).
    rewrite L1, L2. reflexivity. }
  rewrite E1, E2. unfold Math_min. rewrite Rmin_left by lra. lra.
Qed.

Lemma findMidpointShift_brackets_witness :
  testCurve <> []
  /\ crossing testCurve (mkPoint 0 0) 1 (-4) 4
  /\ exists l h,
       findMidpointShift testCurve 1 = Some ((l + h) / 2)
       /\ -4 <= l /\ l < h /\ h <= 4 /\ h - l = 8 / 2 ^ 15
       /\ crossing testCurve (mkPoint 0 0) 1 l h.
Proof.
  split; [discriminate|]. split; [exact testCurve_crossing|].
  apply (findMidpointShift_brackets testCurve (mkPoint 0 0) 1);
    [discriminate | exact testCurve_crossing].
Defined.

(** *** The range of [interpolate] and of [develop] *)

Lemma interpolate_loop_range x lo hi : forall pts fb,
  (forall p, In p pts -> lo <= py p <= hi) -> lo <= fb <= hi ->
  lo <= interpolate_loop x pts fb <= hi.
Proof.
  induction pts as [|a [|b rest] IH]; intros fb Hin Hfb.
  - exact Hfb.
  - exact Hfb.
  - cbn [interpolate_loop].
    destruct (leb (px a) x && ltb x (px b)) eqn:E.
    + apply andb_prop in E. destruct E as [E1 E2].
      apply leb_true in E1. apply ltb_true in E2.
      pose proof (CurveFacts.lerp_between a b x (conj E1 E2)) as Hb.
      unfold between, lerp in Hb.
      pose proof (Hin a (or_introl eq_refl)) as Ha.
      pose proof (Hin b (or_intror (or_introl eq_refl))) as Hb'.
      unfold Rmin, Rmax in Hb. destruct (Rle_dec (py a) (py b)); lra.
    + apply IH; [|exact Hfb]. intros p Hp. apply Hin. now right.
Qed.

Lemma last_In (a : Point) l : In (last (a :: l) a) (a :: l).
Proof.
  revert a. induction l as [|b l IH]; intros a.
  - now left.
  - right. change (last (a :: b :: l) a) with (last (b :: l) a).
    rewrite (CurveFacts.last_default l b a b). apply IH.
Qed.

Lemma interpolate_range_gen pts x lo hi :
  pts <> [] ->
  (forall p, In p pts -> lo <= py p <= hi) ->
  lo <= interpolate x pts <= hi.
Proof.
  destruct pts as [|a rest]; [congruence|]. intros _ Hin.
  unfold interpolate.
  pose proof (Hin a (or_introl eq_refl)) as Ha.
  pose proof (Hin _ (last_In a rest)) as Hl.
  destruct (leb x (px a)); [exact Ha|].
  destruct (leb (px (last (a :: rest) a)) x); [exact Hl|].
  apply interpolate_loop_range; assumption.
Qed.

Lemma fold_min_le l : forall a, fold_left Math_min l a <= a.
Proof.
  induction l as [|b l IH]; intros a; cbn [fold_left]; [lra|].
  eapply Rle_trans; [apply IH|]. apply Rmin_l.
Qed.

Lemma fold_min_In l : forall a y, In y l -> fold_left Math_min l a <= y.
Proof.
  induction l as [|b l IH]; intros a y Hy; [destruct Hy|].
  cbn [fold_left]. destruct Hy as [-> | Hy].
  - eapply Rle_trans; [apply fold_min_le|]. apply Rmin_r.
  - now apply IH.
Qed.

Lemma getMinY_le pts p : In p pts -> getMinY pts <= py p.
Proof.
  destruct pts as [|a rest]; [intros []|]. intros [-> | H]; unfold getMinY.
  - apply fold_min_le.
  - apply fold_min_In. now apply in_map.
Qed.

Lemma getMinY_le_interpolate pts x :
  pts <> [] -> getMinY pts <= interpolate x pts.
Proof.
  intros Hne.
  destruct pts as [|a rest]; [congruence|].
  set (pts := a :: rest) in *.
  assert (Hub : exists hi, forall p, In p pts -> py p <= hi).
  { clear. induction pts as [|b l IH].
    - exists 0. intros p [].
    - destruct IH as [hi Hhi]. exists (Rmax hi (py b)).
      intros p [-> | Hp].
      + apply Rmax_r.
      + eapply Rle_trans; [apply Hhi; exact Hp | apply Rmax_l]. }
  destruct Hub as [hi Hhi].
  apply (interpolate_range_gen pts x (getMinY pts) hi Hne).
  intros p Hp. split; [now apply getMinY_le | now apply Hhi].
Qed.

(** X2: in exact arithmetic, on any non-empty curve, ordered by x or
    not, [interpolate] returns a value inside every interval that holds
    the y of all the control points, and so never goes under the
    curve's minimum [getMinY].  The binary64 evaluation can: on the
    falling curve (-1.6, 0.66), (-0.6, 0.07), at the largest double
    below -0.6, it returns 0.06999999999999995, under the minimum
    0.07. *)
Theorem interpolate_within_y_range pts x lo hi :
  pts <> [] ->
  (forall p, In p pts -> lo <= py p <= hi) ->
  (lo <= interpolate x pts <= hi /\ getMinY pts <= interpolate x pts)
  /\ Curve64.undershoot.
Proof.
  intros Hne Hin. split; [split|].
  - now apply interpolate_range_gen.
  - now apply getMinY_le_interpolate.
  - exact CurveFacts.binary64_undershoot.
Qed.

Lemma interpolate_within_y_range_witness :
  testCurve <> []
  /\ (forall x, 0.2 <= interpolate x testCurve <= 2.2
                /\ getMinY testCurve <= interpolate x testCurve).
Proof.
  split; [discriminate|]. intros x.
  refine (proj1 (interpolate_within_y_range testCurve x 0.2 2.2 _ _));
    [discriminate|].
  intros p [<- | [<- | []]]; cbn [py]; lra.
Defined.

(** X3: what the clamp at 0 of [develop] is for.  On a constructed
    engine every dye density is non-negative, and in exact arithmetic
    it is the curve's value minus the curve's minimum, which is never
    negative: the clamp can only absorb rounding.  In binary64 it does:
    on the falling curve (-1.6, 0.66), (-0.6, 0.07), at the largest
    double below -0.6, the difference is -2^-54 and the clamp returns
    0. *)
Theorem develop_density wl p e logExp :
  new wl p = Some e ->
  (develop e logExp
   = (interpolate (v0 logExp) (sensitometry_red p) - getMinY (sensitometry_red p),
      interpolate (v1 logExp) (sensitometry_green p) - getMinY (sensitometry_green p),
      interpolate (v2 logExp) (sensitometry_blue p) - getMinY (sensitometry_blue p))
   /\ 0 <= v0 (develop e logExp) /\ 0 <= v1 (develop e logExp)
   /\ 0 <= v2 (develop e logExp))
  /\ Curve64.undershoot.
Proof.
  intros H. split; [|exact CurveFacts.binary64_undershoot].
  destruct (new_inv _ _ _ H) as (a & b & c & cb & Ha & Hb & Hc & _ & ->).
  assert (Hr : sensitometry_red p <> []).
  { intros E. apply (findMidpointShift_none _ 1) in E. congruence. }
  assert (Hg : sensitometry_green p <> []).
  { intros E. apply (findMidpointShift_none _ 1) in E. congruence. }
  assert (Hbl : sensitometry_blue p <> []).
  { intros E. apply (findMidpointShift_none _ 1) in E. congruence. }
  unfold develop.
  cbn [profile dMin with_baseResponse preEngine v0 v1 v2 fst snd].
  pose proof (getMinY_le_interpolate _ (v0 logExp) Hr).
  pose proof (getMinY_le_interpolate _ (v1 logExp) Hg).
  pose proof (getMinY_le_interpolate _ (v2 logExp) Hbl).
  unfold Math_max.
  rewrite !Rmax_right by lra.
  repeat split; lra.
Qed.

Lemma develop_density_witness :
  exists e, new [] plainProfile = Some e
    /\ 0 <= v0 (develop e (0, 0, 0)) /\ 0 <= v1 (develop e (0, 0, 0))
    /\ 0 <= v2 (develop e (0, 0, 0)).
Proof.
  destruct (new_succeeds [] plainProfile) as [e He];
    try discriminate; [left; reflexivity|].
  exists e. split; [exact He|].
  exact (proj2 (proj1 (develop_density [] plainProfile e (0, 0, 0) He))).
Defined.

(** *** [scan]: failure and range *)

Lemma scan_loop_none C M Y wl : forall dd a,
  scan_loop C M Y wl dd a = None <-> (List.length dd < List.length wl)%nat.
Proof.
  induction wl as [|lambda wl IH]; intros dd a.
  - cbn. split; [discriminate | lia].
  - destruct dd as [|dye dd].
    + cbn. split; [lia | reflexivity].
    + cbn [scan_loop List.length]. destruct (dye_row dye) as [[[dC dM] dY] dBase].
      rewrite IH. lia.
Qed.

Lemma scan_none_iff e d :
  scan e d = None
  <-> dyeDensity e <> []
      /\ (List.length (dyeDensity e) < List.length (wavelengths e))%nat.
Proof.
  destruct d as [[C M] Y]. unfold scan.
  destruct (dyeDensity e) as [|row dd] eqn:E.
  - split; [discriminate | intros [H _]; congruence].
  - destruct (scan_loop C M Y (wavelengths e) (row :: dd) _) as [a|] eqn:El.
    + split; [discriminate|]. intros [_ H].
      apply (scan_loop_none C M Y) with (a := mkAcc 0 0 0 0 0 0) in H.
      congruence.
    + split; [|reflexivity]. intros _. split; [discriminate|].
      eapply scan_loop_none. exact El.
Qed.

(** X4: [scan] throws exactly when the engine has a non-empty dye table
    with fewer rows than there are wavelengths; with a table and no
    wavelength at all it returns black. *)
Theorem scan_throws_iff e d :
  (scan e d = None
   <-> dyeDensity e <> []
       /\ (List.length (dyeDensity e) < List.length (wavelengths e))%nat)
  /\ (dyeDensity e <> [] -> wavelengths e = [] -> scan e d = Some (0, 0, 0)).
Proof.
  split; [apply scan_none_iff|].
  destruct d as [[C M] Y]. unfold scan.
  intros Hd Hw. rewrite Hw.
  destruct (dyeDensity e) as [|row dd]; [congruence|].
  cbn [scan_loop R_trans G_trans B_trans N_r N_g N_b].
  unfold or_else. destruct (Req_dec_T 0 0); [|lra].
  repeat f_equal; lra.
Qed.








(** *** The pixel transform without a dye table *)

Lemma new_fields wl p e :
  new wl p = Some e ->
  exists midR midG midB cb,
    findMidpointShift (sensitometry_red p) 1 = Some midR
    /\ findMidpointShift (sensitometry_green p) 1 = Some midG
    /\ findMidpointShift (sensitometry_blue p) 1 = Some midB
    /\ computedBase e = Some cb
    /\ baseResponse e = chooseBase (inferFilmType p) cb
    /\ sensitivityOffsets e = (0, midG - midR, midB - midR)
    /\ dyeDensity e = match dye_density p with Some d => d | None => [] end
    /\ profile e = p.
Proof.
  intros H.
  destruct (new_inv _ _ _ H) as (a & b & c & cb & Ha & Hb & Hc & Hcb & ->).
  exists a, b, c, cb. repeat split; assumption || reflexivity.
Qed.

Lemma no_table_dye wl p e :
  new wl p = Some e -> no_dye_table p -> dyeDensity e = [].
Proof.
  intros H Hd.
  destruct (new_fields _ _ _ H) as (a & b & c & cb & _ & _ & _ & _ & _ & _ & E & _).
  rewrite E. destruct Hd as [-> | ->]; reflexivity.
Qed.









(** *** Inversion *)








(** *** Exposure compensation *)





(** *** Calibration *)



(** *** When the constructor throws *)

(** With a matrix of three rows of three, or none, the constructor
    throws exactly when one of the three sensitometry curves is empty,
    or the profile has a non-empty dye table with fewer rows than there
    are wavelengths. *)
Lemma new_none_iff wl p :
  new wl p = None
  <-> sensitometry_red p = [] \/ sensitometry_green p = []
      \/ sensitometry_blue p = []
      \/ (tableOf p <> []
          /\ (List.length (tableOf p) < List.length wl)%nat).
Proof.
  unfold new.
  destruct (findMidpointShift (sensitometry_red p) 1) as [midR|] eqn:Er.
  2:{ apply findMidpointShift_none in Er. tauto. }
  destruct (findMidpointShift (sensitometry_green p) 1) as [midG|] eqn:Eg.
  2:{ apply findMidpointShift_none in Eg. tauto. }
  destruct (findMidpointShift (sensitometry_blue p) 1) as [midB|] eqn:Eb.
  2:{ apply findMidpointShift_none in Eb. tauto. }
  assert (Nr : sensitometry_red p <> [])
    by (intros E; apply (findMidpointShift_none _ 1) in E; congruence).
  assert (Ng : sensitometry_green p <> [])
    by (intros E; apply (findMidpointShift_none _ 1) in E; congruence).
  assert (Nb : sensitometry_blue p <> [])
    by (intros E; apply (findMidpointShift_none _ 1) in E; congruence).
  unfold computedBase.
  match goal with
  | |- context [scan ?e ?d] =>
      pose proof (scan_none_iff e d) as Hs; destruct (scan e d) as [cb|]
  end.
  - split; [discriminate|]. intros [H | [H | [H | H]]]; try contradiction.
    apply Hs in H. discriminate.
  - split; [|reflexivity]. intros _. right. right. right.
    apply Hs. reflexivity.
Qed.

Lemma shape_none_iff m : shape m = None <-> (List.length m < 3)%nat.
Proof.
  destruct m as [|r0 [|r1 [|r2 m]]]; cbn; split;
    intros H; try reflexivity; try lia; discriminate.
Qed.

(** X28: [new SimulationEngine(profile)] throws exactly when one of
    the three sensitometry curves is empty, or the profile has a
    non-empty dye table with fewer rows than there are wavelengths, or
    it carries a sensitivity matrix with fewer than three rows (the
    empty array included); the rows of the matrix that are there are
    taken to have their three entries. *)
Theorem constructor_throws_iff wl p matrix :
  full_rows matrix ->
  construct wl p matrix = None
  <-> sensitometry_red p = [] \/ sensitometry_green p = []
      \/ sensitometry_blue p = []
      \/ (tableOf p <> []
          /\ (List.length (tableOf p) < List.length wl)%nat)
      \/ (exists m, matrix = Some m /\ (List.length m < 3)%nat).
Proof.
  intros _. unfold construct. destruct matrix as [m|].
  - destruct (shape m) as [m3|] eqn:Es.
    + rewrite new_none_iff. unfold tableOf. cbn [with_matrix sensitometry_red
        sensitometry_green sensitometry_blue dye_density].
      split.
      * intros [H | [H | [H | H]]]; tauto.
      * intros [H | [H | [H | [H | (m' & Hm & Hl)]]]]; try tauto.
        inversion Hm; subst m'. apply shape_none_iff in Hl. congruence.
    + split; [|reflexivity]. intros _. right. right. right. right.
      exists m. split; [reflexivity | now apply shape_none_iff].
  - rewrite new_none_iff. unfold tableOf. cbn [with_matrix sensitometry_red
      sensitometry_green sensitometry_blue dye_density].
    split.
    + intros [H | [H | [H | H]]]; tauto.
    + intros [H | [H | [H | [H | (m' & Hm & _)]]]]; try tauto. discriminate.
Qed.

Lemma constructor_throws_iff_witness :
  full_rows (Some twoRows) /\ construct [] plainProfile (Some twoRows) = None.
Proof.
  assert (Hw : full_rows (Some twoRows)).
  { cbn. repeat constructor. }
  split; [exact Hw|].
  apply (constructor_throws_iff [] plainProfile (Some twoRows) Hw).
  right. right. right. right. exists twoRows.
  split; [reflexivity | cbn; lia].
Defined.

(** *** Monotone curves *)

Lemma rising_from_first pts : forall a p,
  rising (a :: pts) -> In p (a :: pts) -> py a <= py p.
Proof.
  induction pts as [|b pts IH]; intros a p Hr Hp.
  - destruct Hp as [<- | []]. lra.
  - destruct Hr as [Hab Hr]. destruct Hp as [<- | Hp]; [lra|].
    specialize (IH b p Hr Hp). lra.
Qed.

(** At or above every y of the curve's first point, on a rising curve. *)
Lemma interpolate_ge_first a pts x :
  rising (a :: pts) -> py a <= interpolate x (a :: pts).
Proof.
  intros Hr.
  assert (Hub : exists hi, forall p, In p (a :: pts) -> py p <= hi).
  { clear. induction (a :: pts) as [|b l IH].
    - exists 0. intros p [].
    - destruct IH as [hi Hhi]. exists (Rmax hi (py b)).
      intros p [-> | Hp].
      + apply Rmax_r.
      + eapply Rle_trans; [apply Hhi; exact Hp | apply Rmax_l]. }
  destruct Hub as [hi Hhi].
  apply (interpolate_range_gen (a :: pts) x (py a) hi); [discriminate|].
  intros p Hp. split; [exact (rising_from_first pts a p Hr Hp) | now apply Hhi].
Qed.

Lemma increasing_first_le_last a b rest :
  increasing (a :: b :: rest) -> px b <= px (last (a :: b :: rest) a).
Proof.
  intros [_ Hi].
  change (last (a :: b :: rest) a) with (last (b :: rest) a).
  apply (CurveFacts.nondecreasing_nth_last (b :: rest) a 0%nat b);
    [now apply CurveFacts.increasing_nondecreasing | reflexivity].
Qed.

(** Inside the first interval the result is the first interpolant. *)
Lemma interpolate_first_interval a b rest x :
  increasing (a :: b :: rest) -> px a < x < px b ->
  interpolate x (a :: b :: rest) = lerp a b x.
Proof.
  intros Hi [H1 H2].
  pose proof (increasing_first_le_last a b rest Hi) as Hl.
  unfold interpolate.
  assert (E1 : leb x (px a) = false) by (apply leb_false; lra).
  assert (E2 : leb (px (last (a :: b :: rest) a)) x = false)
    by (apply leb_false; lra).
  rewrite E1, E2. cbn [interpolate_loop].
  assert (E3 : leb (px a) x = true) by (apply leb_true; lra).
  assert (E4 : ltb x (px b) = true) by (apply ltb_true; lra).
  rewrite E3, E4. reflexivity.
Qed.

(** From the second abscissa on, the first point plays no part. *)
Lemma interpolate_tail a b rest x :
  increasing (a :: b :: rest) -> px b <= x ->
  interpolate x (a :: b :: rest) = interpolate x (b :: rest).
Proof.
  intros Hi Hx. pose proof Hi as [Hab Hi'].
  pose proof (increasing_first_le_last a b rest Hi) as Hl.
  unfold interpolate.
  change (last (a :: b :: rest) a) with (last (b :: rest) a) in *.
  rewrite (CurveFacts.last_default rest b a b) in *.
  assert (E1 : leb x (px a) = false) by (apply leb_false; lra).
  rewrite E1.
  destruct (leb (px (last (b :: rest) b)) x) eqn:E2.
  - destruct (leb x (px b)) eqn:E3; [|reflexivity].
    apply leb_true in E2, E3.
    assert (Ex : x = px b) by lra.
    (* the last abscissa is at most px b, hence equal: the last point is b *)
    destruct rest as [|c rest]; [reflexivity|].
    exfalso. destruct Hi' as [Hbc Hi''].
    change (last (b :: c :: rest) b) with (last (c :: rest) b) in E2.
    pose proof (CurveFacts.nondecreasing_nth_last (c :: rest) b 0%nat c
                  (CurveFacts.increasing_nondecreasing _ Hi'') eq_refl).
    lra.
  - apply leb_false in E2. cbn [interpolate_loop].
    assert (E4 : leb (px a) x && ltb x (px b) = false).
    { apply andb_false_iff. right. apply ltb_false. lra. }
    rewrite E4.
    destruct (leb x (px b)) eqn:E3; [|reflexivity].
    apply leb_true in E3. assert (Ex : x = px b) by lra.
    destruct rest as [|c rest]; [cbn in E2; lra|].
    destruct Hi' as [Hbc _]. cbn [interpolate_loop].
    assert (E5 : leb (px b) x = true) by (apply leb_true; lra).
    assert (E6 : ltb x (px c) = true) by (apply ltb_true; lra).
    rewrite E5, E6. cbn [andb]. rewrite Ex.
    replace (px b - px b) with 0 by lra. unfold Rdiv. lra.
Qed.

Lemma lerp_mono a b x x' :
  px a < px b -> py a <= py b -> x <= x' -> lerp a b x <= lerp a b x'.
Proof.
  intros Hab Hy Hx. unfold lerp.
  assert (I : 0 < / (px b - px a)) by (apply Rinv_0_lt_compat; lra).
  assert (H : 0 <= (x' - x) * (/ (px b - px a) * (py b - py a)))
    by (apply Rmult_le_pos; [lra | apply Rmult_le_pos; lra]).
  replace (py a + (x' - px a) / (px b - px a) * (py b - py a))
    with (py a + (x - px a) / (px b - px a) * (py b - py a)
          + (x' - x) * (/ (px b - px a) * (py b - py a)))
    by (unfold Rdiv; ring).
  lra.
Qed.

Lemma interpolate_monotone pts : forall x x',
  increasing pts -> rising pts -> x <= x' ->
  interpolate x pts <= interpolate x' pts.
Proof.
  induction pts as [|a [|b rest] IH]; intros x x' Hi Hr Hx.
  - cbn. lra.
  - unfold interpolate. cbn [last px].
    destruct (leb x (px a)) eqn:E1; destruct (leb x' (px a)) eqn:E2;
      try lra;
      destruct (leb (px a) x); destruct (leb (px a) x'); cbn; lra.
  - pose proof Hi as [Hab Hi']. pose proof Hr as [Hyab Hr'].
    destruct (Rle_dec x' (px a)) as [H1 | H1].
    { rewrite !(CurveFacts.interpolate_low _ a) by (try discriminate; cbn; lra).
      lra. }
    destruct (Rle_dec x (px a)) as [H2 | H2].
    { rewrite (CurveFacts.interpolate_low _ a x) by (try discriminate; cbn; lra).
      cbn [hd]. now apply interpolate_ge_first. }
    destruct (Rlt_dec x' (px b)) as [H3 | H3].
    { rewrite !interpolate_first_interval by (try assumption; lra).
      now apply lerp_mono. }
    destruct (Rlt_dec x (px b)) as [H4 | H4].
    { rewrite (interpolate_first_interval a b rest x) by (try assumption; lra).
      rewrite (interpolate_tail a b rest x') by (try assumption; lra).
      pose proof (CurveFacts.lerp_between a b x ltac:(lra)) as Hb.
      unfold between in Hb. rewrite Rmax_right in Hb by lra.
      pose proof (interpolate_ge_first b rest x' Hr'). lra. }
    rewrite !(interpolate_tail a b rest) by (try assumption; lra).
    apply IH; assumption.
Qed.

Lemma mirror_last pts : forall a,
  last (mirror (a :: pts)) (mkPoint (px a) (- py a))
  = mkPoint (px (last (a :: pts) a)) (- py (last (a :: pts) a)).
Proof.
  induction pts as [|b pts IH]; intros a; [reflexivity|].
  change (mirror (a :: b :: pts))
    with (mkPoint (px a) (- py a) :: mirror (b :: pts)).
  change (last (a :: b :: pts) a) with (last (b :: pts) a).
  rewrite (CurveFacts.last_default pts b a b).
  rewrite <- IH.
  change (mirror (b :: pts)) with (mkPoint (px b) (- py b) :: mirror pts).
  change (last (mkPoint (px a) (- py a) :: mkPoint (px b) (- py b) :: mirror pts)
               (mkPoint (px a) (- py a)))
    with (last (mkPoint (px b) (- py b) :: mirror pts) (mkPoint (px a) (- py a))).
  apply CurveFacts.last_default.
Qed.

Lemma mirror_loop x : forall pts fb,
  interpolate_loop x (mirror pts) (- fb) = - interpolate_loop x pts fb.
Proof.
  induction pts as [|a [|b rest] IH]; intros fb; try reflexivity.
  change (mirror (a :: b :: rest))
    with (mkPoint (px a) (- py a) :: mirror (b :: rest)).
  change (mirror (b :: rest)) with (mkPoint (px b) (- py b) :: mirror rest).
  cbn [interpolate_loop px py].
  destruct (leb (px a) x && ltb x (px b)).
  - unfold Rdiv. ring.
  - change (mkPoint (px b) (- py b) :: mirror rest) with (mirror (b :: rest)).
    apply IH.
Qed.

(** Negating the y of a curve negates the interpolation. *)
Lemma interpolate_mirror x pts :
  pts <> [] -> interpolate x (mirror pts) = - interpolate x pts.
Proof.
  destruct pts as [|a rest]; [congruence|]. intros _.
  change (mirror (a :: rest)) with (mkPoint (px a) (- py a) :: mirror rest).
  unfold interpolate.
  change (mkPoint (px a) (- py a) :: mirror rest) with (mirror (a :: rest)).
  rewrite mirror_last. cbn [px py].
  destruct (leb x (px a)); [reflexivity|].
  destruct (leb (px (last (a :: rest) a)) x); [reflexivity|].
  apply mirror_loop.
Qed.

Lemma mirror_increasing pts : increasing pts -> increasing (mirror pts).
Proof.
  induction pts as [|a [|b rest] IH]; intros H; try exact I.
  destruct H as [H1 H2]. split; [exact H1 | now apply IH].
Qed.

Lemma mirror_rising pts : falling pts -> rising (mirror pts).
Proof.
  induction pts as [|a [|b rest] IH]; intros H; try exact I.
  destruct H as [H1 H2]. split; [cbn [py]; lra | now apply IH].
Qed.

Lemma interpolate_antitone pts x x' :
  increasing pts -> falling pts -> x <= x' ->
  interpolate x' pts <= interpolate x pts.
Proof.
  intros Hi Hf Hx. destruct pts as [|a rest]; [cbn; lra|].
  pose proof (interpolate_monotone (mirror (a :: rest)) x x'
                (mirror_increasing _ Hi) (mirror_rising _ Hf) Hx) as H.
  rewrite !interpolate_mirror in H by discriminate. lra.
Qed.

(** X29: in exact arithmetic a monotone curve interpolates
    monotonically.  On a curve ordered by x without repeated abscissas,
    [interpolate] never decreases in x when the y of the control points
    never decrease, and never increases in x when they never increase.
    The binary64 evaluation can step back by a rounding error next to a
    knot: on the rising curve (-1.6, 0.07), (-0.6, 0.66) it returns
    0.6600000000000001 at the largest double below -0.6 and 0.66 at
    -0.6. *)
Theorem interpolate_follows_curve pts x x' :
  increasing pts -> x <= x' ->
  ((rising pts -> interpolate x pts <= interpolate x' pts)
   /\ (falling pts -> interpolate x' pts <= interpolate x pts))
  /\ Curve64.step_back.
Proof.
  intros Hi Hx. split; [split; intros H|].
  - now apply interpolate_monotone.
  - now apply interpolate_antitone.
  - exact CurveFacts.binary64_step_back.
Qed.

Lemma interpolate_follows_curve_witness :
  interpolate (-2) testCurve <= interpolate (-1) testCurve.
Proof.
  refine (proj1 (proj1 (interpolate_follows_curve testCurve (-2) (-1) _ _)) _).
  - cbn. split; [lra | exact I].
  - lra.
  - cbn. split; [lra | exact I].
Defined.

(** *** More light *)

Lemma Math_log10_le a b : 0 < a -> a <= b -> Math_log10 a <= Math_log10 b.
Proof.
  intros Ha Hab. unfold Math_log10. pose proof ln_10_pos as H10.
  assert (ln a <= ln b).
  { destruct Hab as [Hab | ->]; [left; apply ln_increasing; assumption | lra]. }
  apply (Rmult_le_reg_r (ln 10)); [exact H10|].
  unfold Rdiv. rewrite !Rmult_assoc, Rinv_l by lra. lra.
Qed.

Lemma log_clamp_mono r k ev ev' :
  ev <= ev' ->
  Math_log10 (Math_max eps6 (r * (k * Math_pow 2 ev)))
  <= Math_log10 (Math_max eps6 (r * (k * Math_pow 2 ev'))).
Proof.
  intros Hev.
  assert (He : 0 < eps6) by (unfold eps6; lra).
  assert (Hp : 0 < Math_pow 2 ev <= Math_pow 2 ev').
  { split; [apply Math_pow_gt_0; lra|].
    rewrite !Math_pow_pos_base by lra. apply Rle_Rpower; lra. }
  apply Math_log10_le.
  - unfold Math_max. pose proof (Rmax_l eps6 (r * (k * Math_pow 2 ev))). lra.
  - unfold Math_max. destruct (Rle_dec 0 (r * k)) as [Hc | Hc].
    + apply Rle_max_compat_l.
      replace (r * (k * Math_pow 2 ev)) with (r * k * Math_pow 2 ev) by ring.
      replace (r * (k * Math_pow 2 ev')) with (r * k * Math_pow 2 ev') by ring.
      apply Rmult_le_compat_l; lra.
    + assert (r * k < 0) by lra.
      assert (r * (k * Math_pow 2 ev) <= 0) by nra.
      rewrite Rmax_left by lra. apply Rmax_l.
Qed.

Lemma expose_mono e rgb ev ev' :
  ev <= ev' -> le3 (expose e rgb ev) (expose e rgb ev').
Proof.
  intros H. unfold le3, expose. cbn [v0 v1 v2 fst snd].
  split; [|split]; apply log_clamp_mono; exact H.
Qed.

Lemma pow10_antitone d d' :
  d <= d' -> Math_pow 10 (- d') <= Math_pow 10 (- d).
Proof.
  intros H. rewrite !Math_pow_pos_base by lra. apply Rle_Rpower; lra.
Qed.

Lemma clamp0_mono u v : u <= v -> Math_max 0 u <= Math_max 0 v.
Proof. intros H. unfold Math_max. now apply Rle_max_compat_l. Qed.

(** X30: more light, in exact arithmetic.  On the engine of a profile
    without a dye table whose three curves are ordered by x without
    repeats, raising the exposure compensation never raises a channel
    of [processPixel] when the curves rise (a negative gets denser) and
    never lowers one when they fall (a slide gets clearer).  In
    binary64 the [develop] step can go the other way by a rounding
    error next to a knot: on the rising curve (-3, 0.05), (-1.6, 0.06),
    (-0.6, 0.57) the density is 0.52 at the largest double below -0.6
    and 0.5199999999999999 at -0.6. *)
Theorem more_light wl p e rgb ev ev' s s' :
  new wl p = Some e -> no_dye_table p -> ordered_curves p -> ev <= ev' ->
  processPixel e rgb ev = Some s -> processPixel e rgb ev' = Some s' ->
  ((rising_curves p -> le3 s' s) /\ (falling_curves p -> le3 s s'))
  /\ Curve64.density_step_back.
Proof.
  intros H Hd (Or & Og & Ob) Hev Hs Hs'.
  split; [|exact CurveFacts.binary64_density_step_back].
  pose proof (no_table_dye _ _ _ H Hd) as Hnd.
  destruct (new_fields _ _ _ H) as (a & b & c & cb & _ & _ & _ & _ & _ & _ & _ & Hp).
  unfold processPixel in Hs, Hs'.
  rewrite scan_empty in Hs, Hs' by exact Hnd.
  inversion Hs; inversion Hs'; subst s s'. clear Hs Hs'.
  destruct (expose_mono e rgb ev ev' Hev) as (E0 & E1 & E2).
  unfold le3, develop. rewrite Hp. cbn [v0 v1 v2 fst snd].
  split.
  - intros (Rr & Rg & Rb).
    split; [|split]; apply pow10_antitone, clamp0_mono;
      apply Rplus_le_compat_r; apply interpolate_monotone; assumption.
  - intros (Fr & Fg & Fb).
    split; [|split]; apply pow10_antitone, clamp0_mono;
      apply Rplus_le_compat_r; apply interpolate_antitone; assumption.
Qed.

Lemma more_light_witness :
  exists e s s', new [] plainProfile = Some e
    /\ processPixel e (0.18, 0.18, 0.18) 0 = Some s
    /\ processPixel e (0.18, 0.18, 0.18) 1 = Some s'
    /\ le3 s' s.
Proof.
  destruct (new_succeeds [] plainProfile) as [e He];
    try discriminate; [left; reflexivity|].
  assert (Hd : no_dye_table plainProfile) by (left; reflexivity).
  pose proof (no_table_dye _ _ _ He Hd) as Hnd.
  exists e. eexists. eexists. split; [exact He|].
  split; [unfold processPixel; apply scan_empty; exact Hnd|].
  split; [unfold processPixel; apply scan_empty; exact Hnd|].
  assert (Hi : increasing testCurve) by (cbn; split; [lra | exact I]).
  assert (Hr : rising testCurve) by (cbn; split; [lra | exact I]).
  refine (proj1 (proj1 (more_light [] plainProfile e (0.18, 0.18, 0.18) 0 1
                          _ _ He Hd _ _ _ _)) _).
  - split; [exact Hi | split; exact Hi].
  - lra.
  - unfold processPixel; apply scan_empty; exact Hnd.
  - unfold processPixel; apply scan_empty; exact Hnd.
  - split; [exact Hr | split; exact Hr].
Defined.

End EngineFacts.

(** ** Red halation *)

Module HalationFacts.
Import JS JSFacts Curve Halation.
Local Open Scope R_scope.

(** At or below the threshold nothing changes. *)
Lemma halation_dark r g b o :
  thresholdOf o <> 1 -> meanRGB r g b <= thresholdOf o ->
  applyRedHalation r g b o = (r, g, b).
Proof.
  intros Ht Hm. unfold applyRedHalation. fold (thresholdOf o).
  unfold meanRGB in Hm. unfold Math_max.
  rewrite Rmax_left by lra.
  replace (0 / (1 - thresholdOf o)) with 0 by (unfold Rdiv; lra).
  assert (E : leb 0 0 = true) by (apply leb_true; lra).
  rewrite E. reflexivity.
Qed.

(** A threshold above 1 turns the effect off. *)
Lemma halation_high_threshold r g b o :
  1 < thresholdOf o -> applyRedHalation r g b o = (r, g, b).
Proof.
  intros Ht. unfold applyRedHalation. fold (thresholdOf o).
  set (m := Math_max 0 ((r + g + b) / 3 - thresholdOf o)).
  assert (Hm : 0 <= m) by apply Rmax_l.
  assert (E : leb (m / (1 - thresholdOf o)) 0 = true).
  { apply leb_true. unfold Rdiv.
    assert (/ (1 - thresholdOf o) < 0) by (apply Rinv_lt_0_compat; lra).
    nra. }
  rewrite E. reflexivity.
Qed.

(** Above the threshold the red channel gets the boost, capped at 1. *)
Lemma halation_bright r g b o :
  thresholdOf o < 1 -> thresholdOf o < meanRGB r g b ->
  0 < highlightFraction r g b o
  /\ applyRedHalation r g b o
     = (Math_min 1 (r + highlightFraction r g b o * strength o * 0.1), g, b).
Proof.
  intros Ht Hm. unfold applyRedHalation, highlightFraction. fold (thresholdOf o).
  unfold meanRGB in *. unfold Math_max.
  rewrite Rmax_right by lra.
  set (f := ((r + g + b) / 3 - thresholdOf o) / (1 - thresholdOf o)).
  assert (Hf : 0 < f).
  { unfold f, Rdiv. apply Rmult_lt_0_compat; [lra|].
    apply Rinv_0_lt_compat. lra. }
  split; [exact Hf|].
  assert (E : leb f 0 = false) by (apply leb_false; lra).
  rewrite E. reflexivity.
Qed.

(** C7, as the code has it.  [applyRedHalation] never touches green
    or blue.  For a threshold other than 1: when the mean of r, g, b is
    at or below the threshold the output is the input; when the
    threshold is below 1 and the mean above it, the highlight fraction
    (mean - threshold) / (1 - threshold) is positive and the red output
    is min(1, r + fraction * strength * 0.1).  So for a non-negative
    strength and a red input of at most 1 the red output lies between
    the red input and 1. *)
Theorem halation_spec r g b o :
  let out := applyRedHalation r g b o in
  v1 out = g /\ v2 out = b
  /\ (thresholdOf o <> 1 -> meanRGB r g b <= thresholdOf o -> out = (r, g, b))
  /\ (thresholdOf o < 1 -> thresholdOf o < meanRGB r g b ->
      0 < highlightFraction r g b o
      /\ v0 out = Rmin 1 (r + highlightFraction r g b o * strength o * 0.1))
  /\ (thresholdOf o <> 1 -> 0 <= strength o -> r <= 1 -> r <= v0 out <= 1).
Proof.
  cbv zeta. split; [|split; [|split; [|split]]].
  - unfold applyRedHalation. destruct (leb _ 0); reflexivity.
  - unfold applyRedHalation. destruct (leb _ 0); reflexivity.
  - apply halation_dark.
  - intros Ht Hm. destruct (halation_bright r g b o Ht Hm) as [Hf ->].
    split; [exact Hf | reflexivity].
  - intros Ht Hs Hr.
    destruct (Rlt_le_dec 1 (thresholdOf o)) as [Hgt | Hle].
    { rewrite halation_high_threshold by exact Hgt. cbn [v0 fst]. lra. }
    destruct (Rle_lt_dec (meanRGB r g b) (thresholdOf o)) as [Hd | Hb].
    { rewrite halation_dark by assumption. cbn [v0 fst]. lra. }
    destruct (halation_bright r g b o) as [Hf ->]; [lra | exact Hb |].
    cbn [v0 fst]. unfold Math_min.
    assert (0 <= highlightFraction r g b o * strength o * 0.1) by nra.
    unfold Rmin. destruct (Rle_dec 1 _); lra.
Qed.

(** C7 as worded fails where the cap bites: with the options the page
    passes, the pixel (2, 0.5, 0.5) has mean 1, above the default
    threshold 0.6, and its red comes out as 1, below the input 2. *)
Lemma halation_lowers_bright_red :
  ~ (forall r g b o, r <= v0 (applyRedHalation r g b o)).
Proof.
  intros H. specialize (H 2 0.5 0.5 pipelineOptions).
  destruct (halation_bright 2 0.5 0.5 pipelineOptions) as [Hf E].
  - unfold thresholdOf, pipelineOptions. cbn [threshold]. lra.
  - unfold meanRGB, thresholdOf, pipelineOptions. cbn [threshold]. lra.
  - rewrite E in H. cbn [v0 fst] in H. unfold Math_min in H.
    assert (0 <= highlightFraction 2 0.5 0.5 pipelineOptions
                 * strength pipelineOptions * 0.1).
    { cbn [strength pipelineOptions]. nra. }
    rewrite Rmin_left in H by lra. lra.
Qed.

End HalationFacts.

(** ** Film grain *)

Module GrainFacts.
Import JS JSFacts Curve Grain.
Local Open Scope R_scope.

Lemma midtoneWeight_bounds lum : 0 <= midtoneWeight lum <= 1.
Proof.
  unfold midtoneWeight, Math_max, Math_abs. split; [apply Rmax_l|].
  apply Rmax_lub; [lra|].
  assert (0 <= Math_pow (Rabs (lum - 0.5) * 2) 1.2).
  { apply Math_pow_nonneg; [|lra]. pose proof (Rabs_pos (lum - 0.5)). lra. }
  lra.
Qed.

Lemma midtoneWeight_mid : midtoneWeight 0.5 = 1.
Proof.
  unfold midtoneWeight, Math_max, Math_abs.
  replace (0.5 - 0.5) with 0 by lra. rewrite Rabs_R0, Rmult_0_l.
  rewrite Math_pow_0_l by lra. rewrite Rmax_right; lra.
Qed.

Lemma midtoneWeight_extremes lum : lum = 0 \/ lum = 1 -> midtoneWeight lum = 0.
Proof.
  intros H. unfold midtoneWeight, Math_max, Math_abs.
  assert (E : Rabs (lum - 0.5) * 2 = 1).
  { destruct H as [-> | ->]; unfold Rabs; destruct (Rcase_abs _); lra. }
  rewrite E, Math_pow_1_l. rewrite Rmax_left; lra.
Qed.

Lemma clamp01_id v : 0 <= v <= 1 -> clamp01 v = v.
Proof.
  intros [H0 H1]. unfold clamp01, Math_max, Math_min.
  rewrite Rmin_right by lra. rewrite Rmax_right by lra. reflexivity.
Qed.

(** With no amplitude the noise vanishes and only the clamp is left. *)
Lemma grain_without_amplitude r g b x y o :
  amplitude o r g b = 0 ->
  applyPhysicalGrain r g b x y o = (clamp01 r, clamp01 g, clamp01 b).
Proof.
  intros Ha. unfold applyPhysicalGrain. rewrite Ha. cbv zeta.
  rewrite !Rmult_0_r, !Rplus_0_r.
  destruct (match monochrome o with Some m => m | None => true end); reflexivity.
Qed.

Lemma amplitude_extremes o r g b :
  luminance r g b = 0 \/ luminance r g b = 1 -> amplitude o r g b = 0.
Proof.
  intros H. unfold amplitude. rewrite midtoneWeight_extremes by exact H. lra.
Qed.

(** C6.  For any iso that is not negative, any strength and size, and
    any pixel coordinates, at an RGB triple of the documented domain
    (every channel in [0, 1]) whose Rec.709 luminance is exactly 0 or
    exactly 1 the grain amplitude is 0 and [applyPhysicalGrain] returns
    the input triple unchanged.  At luminance exactly 0.5 the amplitude
    is the base strength 0.04 * strength * (iso / 200)^0.6: no amplitude
    exceeds it in absolute value, and none exceeds it at all when the
    strength is not negative. *)
Theorem grain_extremes r g b x y o :
  0 <= iso o ->
  in01 r -> in01 g -> in01 b ->
  luminance r g b = 0 \/ luminance r g b = 1 ->
  amplitude o r g b = 0
  /\ applyPhysicalGrain r g b x y o = (r, g, b)
  /\ (forall r1 g1 b1 r2 g2 b2,
        luminance r1 g1 b1 = 0.5 ->
        amplitude o r1 g1 b1 = baseStrength o
        /\ Rabs (amplitude o r2 g2 b2) <= Rabs (amplitude o r1 g1 b1)
        /\ (0 <= match strength o with Some s => s | None => 1 end ->
            amplitude o r2 g2 b2 <= amplitude o r1 g1 b1)).
Proof.
  intros Hiso Hr Hg Hb Hl.
  pose proof (amplitude_extremes o r g b Hl) as Ha.
  split; [exact Ha|]. split.
  - rewrite grain_without_amplitude by exact Ha.
    unfold in01 in *. rewrite !clamp01_id by assumption. reflexivity.
  - intros r1 g1 b1 r2 g2 b2 Hm. unfold amplitude. rewrite Hm, midtoneWeight_mid.
    pose proof (midtoneWeight_bounds (luminance r2 g2 b2)) as [H0 H1].
    split; [lra|]. split.
    + rewrite Rmult_1_r, Rabs_mult.
      rewrite (Rabs_right (midtoneWeight _)) by lra.
      pose proof (Rabs_pos (baseStrength o)). nra.
    + intros Hs.
      assert (0 <= baseStrength o).
      { unfold baseStrength. cbv zeta.
        apply Rmult_le_pos; [nra|]. apply Math_pow_nonneg; lra. }
      nra.
Qed.

Lemma grain_extremes_witness :
  applyPhysicalGrain 1 1 1 10 20 film400 = (1, 1, 1)
  /\ applyPhysicalGrain 0 0 0 10 20 film400 = (0, 0, 0).
Proof.
  assert (Hiso : 0 <= iso film400) by (cbn; lra).
  assert (H1 : in01 1) by (unfold in01; lra).
  assert (H0 : in01 0) by (unfold in01; lra).
  split.
  - apply (grain_extremes 1 1 1 10 20 film400 Hiso H1 H1 H1).
    right. unfold luminance. lra.
  - apply (grain_extremes 0 0 0 10 20 film400 Hiso H0 H0 H0).
    left. unfold luminance. lra.
Defined.

(** The hypothesis on the channels is needed.  The result is clamped
    to [0, 1], so a triple outside the documented domain is changed
    even with no amplitude: (-0.7152, 0.2126, 0) has luminance exactly
    0 and its red comes back as 0. *)
Lemma grain_clamps_out_of_range :
  ~ (forall r g b x y o,
       luminance r g b = 0 \/ luminance r g b = 1 ->
       applyPhysicalGrain r g b x y o = (r, g, b)).
Proof.
  intros H.
  assert (Hl : luminance (-0.7152) 0.2126 0 = 0) by (unfold luminance; lra).
  specialize (H (-0.7152) 0.2126 0 0%Z 0%Z film400 (or_introl Hl)).
  rewrite grain_without_amplitude in H
    by (apply amplitude_extremes; left; exact Hl).
  assert (E : clamp01 (-0.7152) = 0).
  { unfold clamp01, Math_max, Math_min. rewrite Rmin_right by lra.
    rewrite Rmax_left by lra. reflexivity. }
  rewrite E in H.
  assert (E0 : 0 = -0.7152) by (apply (f_equal v0) in H; exact H).
  lra.
Qed.

(** *** Bounds on the grain *)

Lemma toUint32_range z : (0 <= toUint32 z < 2 ^ 32)%Z.
Proof. unfold toUint32. apply Z.mod_pos_bound. reflexivity. Qed.

Lemma hash_range p : 0 <= hash p < 1.
Proof.
  unfold hash, ushr. rewrite !Z.shiftr_0_r.
  match goal with |- context [IZR (toUint32 ?z)] =>
    pose proof (toUint32_range z) as [H0 H1]; set (u := toUint32 z) in *
  end.
  apply IZR_le in H0. apply IZR_lt in H1.
  replace (IZR (2 ^ 32)) with 4294967296 in H1 by (cbn; lra).
  split.
  - apply Rmult_le_pos; [exact H0|]. left. apply Rinv_0_lt_compat. lra.
  - apply (Rmult_lt_reg_r 4294967296); [lra|].
    unfold Rdiv. rewrite Rmult_assoc, Rinv_l by lra. lra.
Qed.

Lemma clamp01_unit v : in01 (clamp01 v).
Proof.
  unfold in01, clamp01, Math_max, Math_min. split; [apply Rmax_l|].
  apply Rmax_lub; [lra | apply Rmin_l].
Qed.

(** The clamp moves an in-range value by no more than the noise. *)
Lemma clamp01_within c n a :
  in01 c -> Rabs n <= a -> within a (clamp01 (c + n)) c.
Proof.
  unfold in01, within, clamp01, Math_max, Math_min. intros Hc Hn.
  assert (Hn' : - a <= n <= a).
  { split; [pose proof (Rle_abs (- n)) as H; rewrite Rabs_Ropp in H; lra
           | pose proof (Rle_abs n); lra]. }
  apply Rabs_le.
  unfold Rmax, Rmin.
  destruct (Rle_dec 1 (c + n)); destruct (Rle_dec 0 _); lra.
Qed.

Lemma noise_bound u a : 0 <= u < 1 -> Rabs ((u - 0.5) * 2 * a) <= Rabs a.
Proof.
  intros Hu. rewrite Rabs_mult.
  assert (Rabs ((u - 0.5) * 2) <= 1) by (apply Rabs_le; lra).
  pose proof (Rabs_pos a). nra.
Qed.

Lemma mixed_noise_bound n1 n2 a :
  0 <= n1 < 1 -> 0 <= n2 < 1 ->
  Rabs ((n1 * 0.7 + n2 * 0.3 - 0.5) * 2 * a) <= Rabs a.
Proof.
  intros H1 H2. rewrite Rabs_mult.
  assert (Rabs ((n1 * 0.7 + n2 * 0.3 - 0.5) * 2) <= 1) by (apply Rabs_le; lra).
  pose proof (Rabs_pos a). nra.
Qed.

Lemma amplitude_le_base o r g b :
  Rabs (amplitude o r g b) <= Rabs (baseStrength o).
Proof.
  unfold amplitude. rewrite Rabs_mult.
  pose proof (midtoneWeight_bounds (luminance r g b)) as [H0 H1].
  rewrite (Rabs_right (midtoneWeight _)) by lra.
  pose proof (Rabs_pos (baseStrength o)). nra.
Qed.

(** X15: the grain is bounded, in exact arithmetic.  For every pixel
    position and every option set whose iso is not negative, on an
    input in the unit cube each channel [applyPhysicalGrain] returns
    lies in [0, 1] and differs from the input by at most the absolute
    amplitude, which is at most the absolute base strength
    0.04 * strength * (iso / 200)^0.6.  (A negative iso makes
    [Math.pow] and every channel NaN.) *)
Theorem physical_grain_bounded r g b x y o :
  0 <= iso o ->
  in01 r -> in01 g -> in01 b ->
  let out := applyPhysicalGrain r g b x y o in
  let a := Rabs (amplitude o r g b) in
  (in01 (v0 out) /\ in01 (v1 out) /\ in01 (v2 out))
  /\ (within a (v0 out) r /\ within a (v1 out) g /\ within a (v2 out) b)
  /\ a <= Rabs (baseStrength o).
Proof.
  intros Hiso Hr Hg Hb out a.
  assert (Hout :
    exists nr ng nb,
      out = (clamp01 (r + nr), clamp01 (g + ng), clamp01 (b + nb))
      /\ Rabs nr <= a /\ Rabs ng <= a /\ Rabs nb <= a).
  { unfold out, applyPhysicalGrain.
    destruct (match monochrome o with Some m => m | None => true end);
      eexists; eexists; eexists; (split; [reflexivity|]);
      repeat split;
      first [ apply mixed_noise_bound; apply hash_range
            | apply noise_bound; apply hash_range ]. }
  destruct Hout as (nr & ng & nb & -> & Nr & Ng & Nb).
  cbn [v0 v1 v2 fst snd].
  split; [repeat split; apply clamp01_unit|].
  split; [|apply amplitude_le_base].
  split; [|split]; apply clamp01_within; assumption.
Qed.

Lemma physical_grain_bounded_witness :
  let out := applyPhysicalGrain 0.5 0.5 0.5 3 4 film400 in
  let a := Rabs (amplitude film400 0.5 0.5 0.5) in
  (in01 (v0 out) /\ in01 (v1 out) /\ in01 (v2 out))
  /\ (within a (v0 out) 0.5 /\ within a (v1 out) 0.5 /\ within a (v2 out) 0.5)
  /\ a <= Rabs (baseStrength film400).
Proof.
  apply (physical_grain_bounded 0.5 0.5 0.5 3 4 film400);
    unfold in01; cbn [iso film400]; lra.
Defined.

(** X16: [applyFilmGrain], in exact arithmetic and for an iso that is
    not negative (a negative one makes the amplitude NaN).  When the
    amplitude is not positive the pixel comes back untouched, unclamped
    even outside [0, 1], and no random number is drawn.  Otherwise two
    draws are made for monochrome grain and four for colour grain (the
    first one is the unused seed), every channel returned lies in
    [0, 1], and with draws in [0, 1) a channel of an input in the unit
    cube moves by at most the amplitude. *)
Theorem film_grain_cases r g b o random k :
  0 <= iso o ->
  let a := filmAmplitude o r g b in
  let out := applyFilmGrain r g b o random k in
  (a <= 0 -> out = ((r, g, b), k))
  /\ (0 < a ->
      snd out = (if match monochrome o with Some m => m | None => true end
                 then k + 2 else k + 4)%nat
      /\ (in01 (v0 (fst out)) /\ in01 (v1 (fst out)) /\ in01 (v2 (fst out)))
      /\ (uniform random -> in01 r -> in01 g -> in01 b ->
          within a (v0 (fst out)) r /\ within a (v1 (fst out)) g
          /\ within a (v2 (fst out)) b)).
Proof.
  intros Hiso a out. split.
  - intros Ha. unfold out, applyFilmGrain. fold a.
    apply leb_true in Ha. rewrite Ha. reflexivity.
  - intros Ha. unfold out, applyFilmGrain. fold a.
    assert (E : leb a 0 = false) by (apply leb_false; exact Ha).
    rewrite E.
    assert (Hb : forall u, 0 <= u < 1 -> Rabs ((u - 0.5) * 2 * a) <= a).
    { intros u Hu. pose proof (noise_bound u a Hu) as H.
      rewrite (Rabs_right a) in H by lra. exact H. }
    destruct (match monochrome o with Some m => m | None => true end);
      cbn [fst snd v0 v1 v2]; (split; [reflexivity|]);
      (split; [repeat split; apply clamp01_unit|]);
      intros Hu Hr Hg Hbb;
      (split; [|split]); apply clamp01_within; try assumption;
      apply Hb; apply Hu.
Qed.

Lemma film_grain_cases_witness :
  let a := filmAmplitude colour400 0.5 0.5 0.5 in
  let out := applyFilmGrain 0.5 0.5 0.5 colour400 steady 0 in
  (a <= 0 -> out = ((0.5, 0.5, 0.5), 0%nat))
  /\ (0 < a ->
      snd out = 4%nat
      /\ (in01 (v0 (fst out)) /\ in01 (v1 (fst out)) /\ in01 (v2 (fst out)))
      /\ (uniform steady -> in01 0.5 -> in01 0.5 -> in01 0.5 ->
          within a (v0 (fst out)) 0.5 /\ within a (v1 (fst out)) 0.5
          /\ within a (v2 (fst out)) 0.5)).
Proof.
  apply (film_grain_cases 0.5 0.5 0.5 colour400 steady 0).
  cbn [iso colour400]. lra.
Defined.

End GrainFacts.

(** ** Pyramid bloom *)

Module BloomFacts.
Import JS JSFacts Bloom.
Local Open Scope R_scope.

(** C8: for every buffer, every width and height and every options
    value whose strength is at most 0, [applyPyramidBloom] returns the
    input buffer itself: no highlight is extracted, no pyramid built,
    nothing composited. *)
Theorem bloom_off linearData width height options :
  strength options <= 0 ->
  applyPyramidBloom linearData width height options = linearData.
Proof.
  intros H. unfold applyPyramidBloom.
  apply leb_true in H. rewrite H. reflexivity.
Qed.

Lemma bloom_off_witness :
  applyPyramidBloom onePixel 1 1 bloomOff = onePixel.
Proof.
  apply (bloom_off onePixel 1 1 bloomOff).
  unfold bloomOff. cbn [strength]. lra.
Defined.

(** Every pass keeps the length of the buffer, so with a positive
    strength too the result has the size of the input. *)
Lemma compositeLevel_length result level weight width height :
  List.length (compositeLevel result level weight width height)
  = List.length result.
Proof.
  unfold compositeLevel.
  rewrite length_map, length_combine, length_seq. apply Nat.min_id.
Qed.

Lemma composite_length levels : forall ws strength width height result,
  List.length (composite levels ws strength width height result)
  = List.length result.
Proof.
  induction levels as [|l levels IH]; intros ws s wd ht result; [reflexivity|].
  destruct ws as [|wt ws]; [reflexivity|].
  cbn [composite]. rewrite IH. apply compositeLevel_length.
Qed.

Lemma applyPyramidBloom_length linearData width height options :
  List.length (applyPyramidBloom linearData width height options)
  = List.length linearData.
Proof.
  unfold applyPyramidBloom. destruct (leb (strength options) 0); [reflexivity|].
  apply composite_length.
Qed.

(** *** What compositing changes *)

Lemma nth_map_combine_seq (f : nat * num -> num) (l : list num) d :
  forall s k, (k < List.length l)%nat ->
  nth k (map f (combine (seq s (List.length l)) l)) d = f ((s + k)%nat, nth k l d).
Proof.
  induction l as [|a l IH]; intros s k Hk; [cbn in Hk; lia|].
  cbn [List.length seq combine map]. destruct k as [|k].
  - cbn [nth]. now rewrite Nat.add_0_r.
  - cbn [nth]. rewrite IH by (cbn in Hk; lia). f_equal. f_equal. lia.
Qed.




(** *** Images smaller than the pyramid *)

Lemma rd_nil i : rd [] i = None.
Proof.
  unfold rd. destruct (i <? 0)%Z; [reflexivity|].
  destruct (Z.to_nat i); reflexivity.
Qed.

(** Compositing a level whose buffer is empty turns every colour
    channel of the image into NaN. *)
Lemma compositeLevel_empty result level weight width height k d :
  data level = [] ->
  (k < List.length result)%nat ->
  (0 < width)%Z -> (Z.of_nat k / 4 < width * height)%Z ->
  (Z.of_nat k mod 4 < 3)%Z ->
  nth k (compositeLevel result level weight width height) d = None.
Proof.
  intros Hd Hk Hw Hp Hc. unfold compositeLevel.
  rewrite (nth_map_combine_seq _ result d 0 k Hk).
  cbn [fst snd Nat.add].
  apply Z.ltb_lt in Hw, Hp, Hc. rewrite Hw, Hp, Hc. cbn [andb].
  rewrite Hd, !rd_nil. cbn [nmul nadd lift2].
  unfold nadd, nmul, lift2. destruct (nth k result d); reflexivity.
Qed.

Lemma build_nil width height f : build 0 width height f = [].
Proof. reflexivity. Qed.

Lemma boxBlur_nil width height radius : boxBlur [] width height radius = [].
Proof. unfold boxBlur. destruct (radius <? 1)%Z; reflexivity. Qed.

Lemma halved_five_times n :
  (0 < n < 32)%Z -> (n / 2 / 2 / 2 / 2 / 2 = 0)%Z.
Proof.
  intros H. rewrite !Z.div_div by lia. apply Z.div_small. lia.
Qed.

(** X18: with the default six pyramid levels and a positive strength,
    an image narrower or shorter than 32 pixels comes out of
    [applyPyramidBloom] with NaN in the colour channels of every pixel:
    the sixth level has no pixel, and compositing reads its empty
    buffer. *)
Theorem bloom_small_image linearData width height options k d :
  0 < strength options -> weights options = None ->
  (0 < width)%Z -> (0 < height)%Z -> (width < 32 \/ height < 32)%Z ->
  (k < List.length linearData)%nat ->
  (Z.of_nat k / 4 < width * height)%Z -> (Z.of_nat k mod 4 < 3)%Z ->
  nth k (applyPyramidBloom linearData width height options) d = None.
Proof.
  intros Hs Hws Hw Hh Hsmall Hk Hp Hc. unfold applyPyramidBloom.
  assert (E : leb (strength options) 0 = false) by (apply leb_false; exact Hs).
  rewrite E, Hws. unfold defaultWeights.
  cbn [pyramid composite].
  apply compositeLevel_empty; try assumption.
  - cbn [data]. unfold downsample. cbn [data w h].
    match goal with
    | |- boxBlur (build (Z.to_nat ?n) _ _ _) _ _ _ = [] =>
        assert (En : n = 0%Z)
    end.
    { destruct Hsmall as [H | H].
      - rewrite (halved_five_times width) by lia. reflexivity.
      - rewrite (halved_five_times height) by lia. lia. }
    rewrite En. change (Z.to_nat 0) with 0%nat. rewrite build_nil.
    apply boxBlur_nil.
  - rewrite !compositeLevel_length. exact Hk.
Qed.

Lemma bloom_small_image_witness :
  nth 0 (applyPyramidBloom onePixel 1 1 bloomOn) (Some 0) = None.
Proof.
  apply (bloom_small_image onePixel 1 1 bloomOn 0 (Some 0)).
  - cbn [strength bloomOn]. lra.
  - reflexivity.
  - lia.
  - lia.
  - left. lia.
  - cbn. lia.
  - reflexivity.
  - reflexivity.
Defined.

(** *** Images without highlights *)

Lemma map_const_seq (v : option R) n : forall s,
  map (fun _ : nat => v) (seq s n) = repeat v n.
Proof.
  induction n as [|n IH]; intros s; [reflexivity|].
  cbn [seq map repeat]. now rewrite IH.
Qed.

Lemma zeros_length n : List.length (zeros n) = n.
Proof. apply repeat_length. Qed.

Lemma rd_zeros n i : (0 <= i < Z.of_nat n)%Z -> rd (zeros n) i = Some 0.
Proof.
  intros H. unfold rd, zeros.
  assert (E : (i <? 0)%Z = false) by (apply Z.ltb_ge; lia).
  rewrite E. apply nth_repeat_lt. lia.
Qed.

Lemma rd_blank width height i :
  (0 <= i < width * height * 4)%Z -> rd (blank width height) i = Some 0.
Proof. intros H. unfold blank. apply rd_zeros. lia. Qed.

Lemma pixel_coordinates k width height :
  (0 < width)%Z -> (0 <= k)%Z -> (k / 4 < width * height)%Z ->
  (0 <= (k / 4) mod width < width)%Z /\ (0 <= k / 4 / width < height)%Z
  /\ (0 <= k mod 4 < 4)%Z.
Proof.
  intros Hw Hk Hp.
  assert (0 <= k / 4)%Z by (apply Z.div_pos; lia).
  split; [apply Z.mod_pos_bound; lia|]. split; [|apply Z.mod_pos_bound; lia].
  split; [apply Z.div_pos; lia|].
  apply Z.div_lt_upper_bound; lia.
Qed.

(** A buffer built from a function that is 0 on every pixel is zero. *)
Lemma build_zeros len width height f :
  (forall x y c, (0 <= x < width)%Z -> (0 <= y < height)%Z -> (0 <= c < 4)%Z ->
                 f x y c = Some 0) ->
  build len width height f = zeros len.
Proof.
  intros Hf. unfold build, zeros. rewrite <- (map_const_seq (Some 0) len 0%nat).
  apply map_ext_in. intros n _. cbv zeta.
  destruct (0 <? width)%Z eqn:Ew; [|reflexivity].
  destruct (Z.of_nat n / 4 <? width * height)%Z eqn:Ep; [|reflexivity].
  cbn [andb]. apply Z.ltb_lt in Ew, Ep.
  destruct (pixel_coordinates (Z.of_nat n) width height Ew ltac:(lia) Ep)
    as (Hx & Hy & Hc).
  now apply Hf.
Qed.

Lemma nsum_zeros (l : list num) :
  (forall v, In v l -> v = Some 0) -> nsum l = Some 0.
Proof.
  unfold nsum. intros H.
  assert (G : forall a, a = Some 0 -> fold_left nadd l a = Some 0).
  { induction l as [|x l IH]; intros a Ha; [exact Ha|].
    cbn [fold_left]. apply IH.
    - intros v Hv. apply H. now right.
    - rewrite Ha, (H x (or_introl eq_refl)). cbn. f_equal. lra. }
  now apply G.
Qed.

Lemma mean_zeros (l : list num) :
  (forall v, In v l -> v = Some 0) -> mean l = Some 0.
Proof.
  intros H. unfold mean. rewrite nsum_zeros by exact H.
  cbn. f_equal. unfold Rdiv. apply Rmult_0_l.
Qed.

Lemma window_range centre limit radius n :
  In n (window centre limit radius) -> (0 <= n < limit)%Z.
Proof.
  unfold window. intros H. apply filter_In in H. destruct H as [_ H].
  apply andb_prop in H. destruct H as [H1 H2].
  apply Z.leb_le in H1. apply Z.ltb_lt in H2. lia.
Qed.

Lemma boxBlur_blank width height radius :
  (0 <= width)%Z -> (0 <= height)%Z ->
  boxBlur (blank width height) width height radius = blank width height.
Proof.
  intros Hw Hh. unfold boxBlur.
  destruct (radius <? 1)%Z; [reflexivity|].
  assert (E1 : build (List.length (blank width height)) width height
                 (fun x y c =>
                    if (c <? 3)%Z
                    then mean (map (fun nx => rd (blank width height)
                                                ((y * width + nx) * 4 + c)%Z)
                                   (window x width radius))
                    else rd (blank width height) ((y * width + x) * 4 + 3)%Z)
               = blank width height).
  { unfold blank at 1. rewrite zeros_length. apply build_zeros.
    intros x y c Hx Hy Hc. destruct (c <? 3)%Z eqn:Ec.
    - apply Z.ltb_lt in Ec. apply mean_zeros. intros v Hv.
      apply in_map_iff in Hv. destruct Hv as (nx & <- & Hnx).
      apply window_range in Hnx. apply rd_blank. nia.
    - apply rd_blank. nia. }
  rewrite E1.
  unfold blank at 1. rewrite zeros_length. apply build_zeros.
  intros x y c Hx Hy Hc. destruct (c <? 3)%Z eqn:Ec.
  - apply Z.ltb_lt in Ec. apply mean_zeros. intros v Hv.
    apply in_map_iff in Hv. destruct Hv as (ny & <- & Hny).
    apply window_range in Hny. apply rd_blank. nia.
  - apply rd_blank. nia.
Qed.

Lemma downsample_blank width height :
  (0 <= width)%Z -> (0 <= height)%Z ->
  downsample (blank width height) width height
  = mkLevel (blank (width / 2) (height / 2)) (width / 2) (height / 2).
Proof.
  intros Hw Hh. unfold downsample. f_equal.
  apply build_zeros. intros x y c Hx Hy Hc.
  apply rd_blank.
  assert (2 * (width / 2) <= width)%Z by (apply Z.mul_div_le; lia).
  assert (2 * (height / 2) <= height)%Z by (apply Z.mul_div_le; lia).
  nia.
Qed.

(** Every level of a pyramid built on a zero image is zero, as long as
    the image can be halved often enough. *)
Lemma pyramid_blank ws radius : forall l width height,
  fits (List.length ws) width -> fits (List.length ws) height ->
  Forall zero_level
    (pyramid ws l radius (mkLevel (blank width height) width height)).
Proof.
  induction ws as [|a ws IH]; intros l width height Fw Fh; [constructor|].
  cbn [List.length] in Fw, Fh. destruct Fw as [Hw Fw]. destruct Fh as [Hh Fh].
  cbn [pyramid data w h]. constructor.
  - unfold zero_level. cbn [data w h].
    rewrite boxBlur_blank by lia. auto.
  - rewrite downsample_blank by lia. apply IH; assumption.
Qed.

Lemma floor_scale x width wl :
  (0 <= x < width)%Z -> (1 <= wl)%Z ->
  (0 <= Math_floor (IZR x * (IZR wl / IZR width)) <= wl - 1)%Z.
Proof.
  intros Hx Hwl. unfold Math_floor.
  set (fx := IZR x * (IZR wl / IZR width)).
  assert (Hwd : 0 < IZR width) by (apply IZR_lt; lia).
  assert (Hx0 : 0 <= IZR x) by (apply IZR_le; lia).
  assert (Hx1 : IZR x + 1 <= IZR width)
    by (rewrite <- plus_IZR; apply IZR_le; lia).
  assert (Hl : 1 <= IZR wl) by (apply IZR_le; lia).
  assert (Hq : 0 < IZR wl / IZR width) by (apply Rdiv_lt_0_compat; lra).
  assert (H0 : 0 <= fx) by (unfold fx; apply Rmult_le_pos; lra).
  assert (H1 : fx < IZR wl).
  { unfold fx.
    replace (IZR wl) with (IZR width * (IZR wl / IZR width)) at 2
      by (field; lra).
    apply Rmult_lt_compat_r; lra. }
  destruct (base_Int_part fx) as [B1 B2].
  split.
  - assert (IZR (-1) < IZR (Int_part fx)) by (cbn; lra).
    apply lt_IZR in H. lia.
  - assert (IZR (Int_part fx) < IZR wl) by lra.
    apply lt_IZR in H. lia.
Qed.

Lemma map_combine_seq_id (f : nat * num -> num) (l : list num) : forall s,
  (forall k v, In (k, v) (combine (seq s (List.length l)) l) -> f (k, v) = v) ->
  map f (combine (seq s (List.length l)) l) = l.
Proof.
  induction l as [|a l IH]; intros s H; [reflexivity|].
  cbn [List.length seq combine map]. f_equal.
  - apply H. now left.
  - apply IH. intros k v Hin. apply H. now right.
Qed.

(** Compositing a zero level changes nothing in a buffer without NaN. *)
Lemma compositeLevel_zero result level weight width height :
  zero_level level -> defined result ->
  compositeLevel result level weight width height = result.
Proof.
  intros (Hd & Hw & Hh) Hdef. unfold compositeLevel.
  apply map_combine_seq_id. intros k v Hin. cbn [fst snd].
  destruct ((0 <? width)%Z && (Z.of_nat k / 4 <? width * height)%Z
            && (Z.of_nat k mod 4 <? 3)%Z) eqn:Ec; [|reflexivity].
  apply andb_prop in Ec. destruct Ec as [Ec Ec3].
  apply andb_prop in Ec. destruct Ec as [Ec1 Ec2].
  apply Z.ltb_lt in Ec1, Ec2, Ec3.
  destruct (pixel_coordinates (Z.of_nat k) width height Ec1 ltac:(lia) Ec2)
    as (Hx & Hy & Hc).
  pose proof (floor_scale _ _ (w level) Hx Hw) as Fx.
  pose proof (floor_scale _ _ (h level) Hy Hh) as Fy.
  cbv zeta.
  set (x0 := Math_floor (IZR ((Z.of_nat k / 4) mod width)
                         * (IZR (w level) / IZR width))) in *.
  set (y0 := Math_floor (IZR (Z.of_nat k / 4 / width)
                         * (IZR (h level) / IZR height))) in *.
  set (c := (Z.of_nat k mod 4)%Z) in *.
  assert (Hv : v <> None).
  { apply in_combine_r in Hin. unfold defined in Hdef.
    rewrite Forall_forall in Hdef. now apply Hdef. }
  destruct v as [x|]; [|congruence].
  rewrite Hd.
  rewrite !rd_blank by nia.
  cbn [nadd nmul lift2]. unfold nadd, nmul, lift2. f_equal. lra.
Qed.

Lemma composite_zero levels : forall ws strength width height result,
  Forall zero_level levels -> defined result ->
  composite levels ws strength width height result = result.
Proof.
  induction levels as [|l levels IH]; intros ws s wd ht result Hz Hdef;
    [reflexivity|].
  destruct ws as [|wt ws]; [reflexivity|].
  inversion Hz as [|? ? Hl Hrest]; subst.
  cbn [composite]. rewrite compositeLevel_zero by assumption.
  now apply IH.
Qed.

Lemma extractHighlights_none linearData threshold :
  no_highlight linearData threshold ->
  extractHighlights linearData threshold = zeros (List.length linearData).
Proof.
  intros Hn. unfold extractHighlights, zeros.
  rewrite <- (map_const_seq (Some 0) (List.length linearData) 0%nat).
  apply map_ext. intros n. cbv zeta.
  specialize (Hn (Z.of_nat n / 4)%Z).
  destruct (rd linearData (4 * (Z.of_nat n / 4))%Z) as [r|]; [|reflexivity].
  destruct (rd linearData (4 * (Z.of_nat n / 4) + 1)%Z) as [g|]; [|reflexivity].
  destruct (rd linearData (4 * (Z.of_nat n / 4) + 2)%Z) as [b|]; [|reflexivity].
  specialize (Hn r g b eq_refl eq_refl eq_refl).
  cbn [nmul nadd lift2 ngt]. unfold nadd, nmul, lift2, ngt.
  assert (E : ltb threshold (0.2126 * r + 0.7152 * g + 0.0722 * b) = false)
    by (apply ltb_false; exact Hn).
  rewrite E. reflexivity.
Qed.

(** X26: bloom leaves an image without highlights alone.  When no
    pixel of a NaN-free buffer of [width * height] pixels has a
    luminance above the threshold, and the image can be halved once per
    pyramid level after the first without vanishing (32 by 32 pixels or
    more for the default six levels), [applyPyramidBloom] returns the
    input, whatever the strength and radius. *)
Theorem bloom_without_highlights linearData width height options :
  List.length linearData = Z.to_nat (width * height * 4) ->
  defined linearData ->
  no_highlight linearData (threshold options) ->
  let n := List.length (match weights options with
                        | Some ws => ws | None => defaultWeights end) in
  fits n width -> fits n height ->
  applyPyramidBloom linearData width height options = linearData.
Proof.
  intros Hlen Hdef Hn n Fw Fh. unfold applyPyramidBloom.
  destruct (leb (strength options) 0); [reflexivity|].
  rewrite extractHighlights_none by exact Hn.
  rewrite Hlen. fold (blank width height).
  apply composite_zero; [|exact Hdef].
  apply pyramid_blank; assumption.
Qed.

Lemma rd_repeat (v : option R) n i x : rd (repeat v n) i = Some x -> v = Some x.
Proof.
  unfold rd. destruct (i <? 0)%Z; [discriminate|].
  intros H.
  destruct (Nat.lt_ge_cases (Z.to_nat i) n) as [Hlt | Hge].
  - rewrite nth_repeat_lt in H by exact Hlt. exact H.
  - rewrite nth_overflow in H by (rewrite repeat_length; exact Hge).
    discriminate.
Qed.

Lemma bloom_without_highlights_witness :
  applyPyramidBloom grey32 32 32 bloomOn = grey32.
Proof.
  apply (bloom_without_highlights grey32 32 32 bloomOn).
  - unfold grey32. rewrite repeat_length. reflexivity.
  - unfold defined, grey32. apply Forall_forall. intros v Hv.
    apply repeat_spec in Hv. subst v. discriminate.
  - unfold no_highlight, grey32. cbn [threshold bloomOn].
    intros i r g b Hr Hg Hb.
    apply rd_repeat in Hr, Hg, Hb.
    inversion Hr; inversion Hg; inversion Hb; subst. lra.
  - cbn. lia.
  - cbn. lia.
Defined.

End BloomFacts.

(** ** The saturation-restoration factor *)

Module PipelineFacts.
Import JS JSFacts Curve Engine Pipeline EngineFacts.
Local Open Scope R_scope.

(** Above the guard the factor is the clamped ratio. *)
Lemma factor_guarded st :
  0.001 < avgAfterInvert st -> SATURATION_RESTORE_FACTOR st = claimed_factor st.
Proof.
  intros H. unfold SATURATION_RESTORE_FACTOR, claimed_factor, rawFactor.
  fold (avgAfterInvert st). fold (avgInput st).
  apply ltb_true in H. rewrite H. reflexivity.
Qed.

(** At or below the guard the raw factor falls back to 1. *)
Lemma factor_fallback st :
  avgAfterInvert st <= 0.001 -> SATURATION_RESTORE_FACTOR st = 1.5.
Proof.
  intros H. unfold SATURATION_RESTORE_FACTOR, rawFactor.
  fold (avgAfterInvert st). apply ltb_false in H. rewrite H.
  unfold Math_min, Math_max.
  rewrite Rmax_left by lra. rewrite Rmin_left by lra. lra.
Qed.

(** The first pass returns statistics whenever the engine has no dye
    table (its [scan] cannot throw). *)
Lemma pass1_total engine totalExposure pixelData : forall st,
  dyeDensity engine = [] ->
  exists st', pass1 engine totalExposure pixelData st = Some st'.
Proof.
  induction pixelData as [|px rest IH]; intros st Hd.
  - exists st. reflexivity.
  - cbn [pass1]. unfold pass1_step. destruct px as [[[pr pg] pb] pa].
    unfold scan. rewrite Hd.
    destruct (develop engine _) as [[C M] Y].
    apply IH. exact Hd.
Qed.

(** *** An image under the guard *)

Lemma getSaturation_grey a : getSaturation a a a = 0.
Proof.
  unfold getSaturation, max3, min3, Math_max, Math_min.
  rewrite (Rmax_left a a) by lra. rewrite (Rmax_left a a) by lra.
  rewrite (Rmin_left a a) by lra. rewrite (Rmin_left a a) by lra.
  destruct (Req_dec_T a 0); [reflexivity|].
  replace (a - a) with 0 by lra. unfold Rdiv. apply Rmult_0_l.
Qed.

Lemma getSaturation_red : getSaturation 1 0 0 = 1.
Proof.
  unfold getSaturation, max3, min3, Math_max, Math_min.
  rewrite (Rmax_left 1 0), (Rmax_left 1 0), (Rmin_right 1 0), (Rmin_left 0 0) by lra.
  destruct (Req_dec_T 1 0); lra.
Qed.

Lemma getSaturation_cyan : getSaturation (/ 10) 1 1 = 0.9.
Proof.
  unfold getSaturation, max3, min3, Math_max, Math_min.
  rewrite (Rmax_right (/ 10) 1), (Rmax_left 1 1), (Rmin_left (/ 10) 1),
    (Rmin_left (/ 10) 1) by lra.
  destruct (Req_dec_T 1 0); lra.
Qed.

Lemma slide_engine e : new [] slideProfile = Some e -> slide_state e.
Proof.
  intros H.
  destruct (new_inv _ _ _ H) as (a & b & c & cb & Ha & Hb & Hc & _ & ->).
  cbn [sensitometry_red sensitometry_green sensitometry_blue slideProfile]
    in Ha, Hb, Hc.
  rewrite Ha in Hb, Hc. inversion Hb; inversion Hc; subst.
  unfold slide_state.
  cbn [profile sensitivityMatrix dyeDensity filmType normalizationScale dMin
       sensitivityOffsets with_baseResponse preEngine rgb_to_raw_matrix
       dye_density slideProfile sensitometry_red sensitometry_green
       sensitometry_blue].
  repeat split.
  - unfold multiplyMatrixVector, identity3. cbn [at_ row col v0 v1 v2 fst snd].
    rewrite !or_else_nonzero by lra. repeat f_equal; lra.
  - unfold getMinY, stepCurve, Math_min. cbn [map fold_left py].
    rewrite Rmin_left by lra. reflexivity.
  - repeat f_equal; lra.
Qed.

Lemma slide_expose e r g b :
  slide_state e ->
  expose e (r, g, b) 0
  = (Math_log10 (Math_max eps6 r), Math_log10 (Math_max eps6 g),
     Math_log10 (Math_max eps6 b)).
Proof.
  intros (_ & Hm & _ & _ & Hn & _ & Ho).
  unfold expose. rewrite Hm, Hn, Ho. unfold identity3.
  cbn [at_ row col v0 v1 v2 fst snd]. rewrite !Math_pow_0_r.
  repeat f_equal; lra.
Qed.

Lemma slide_step e st pr pg pb pa (lr lg lb : R) (dr dg db : R) :
  slide_state e ->
  Math_log10 (Math_max eps6 (Math_pow pr 2.2)) = lr ->
  Math_log10 (Math_max eps6 (Math_pow pg 2.2)) = lg ->
  Math_log10 (Math_max eps6 (Math_pow pb 2.2)) = lb ->
  Math_max 0 (interpolate lr stepCurve - 0) = dr ->
  Math_max 0 (interpolate lg stepCurve - 0) = dg ->
  Math_max 0 (interpolate lb stepCurve - 0) = db ->
  pass1_step e 0 st (pr, pg, pb, pa)
  = Some (mkStats
            (inputSatSum st
             + getSaturation (Math_pow pr 2.2) (Math_pow pg 2.2) (Math_pow pb 2.2))
            (satAfterInvert st
             + getSaturation (Math_pow 10 (- dr)) (Math_pow 10 (- dg))
                             (Math_pow 10 (- db)))
            (pixelCount st + 1)).
Proof.
  intros Hs Hr Hg Hb Hdr Hdg Hdb.
  pose proof Hs as (Hp & _ & Hd & Ht & _ & Hmin & _).
  unfold pass1_step. rewrite (slide_expose e _ _ _ Hs), Hr, Hg, Hb.
  unfold develop. rewrite Hp, Hmin.
  cbn [sensitometry_red sensitometry_green sensitometry_blue slideProfile
       v0 v1 v2 fst snd].
  rewrite Hdr, Hdg, Hdb.
  rewrite (scan_empty e (dr, dg, db) Hd). rewrite Ht.
  cbn [v0 v1 v2 fst snd]. reflexivity.
Qed.

Lemma eps6_clamp0 : Math_log10 (Math_max eps6 0) = Math_log10 eps6.
Proof. rewrite Math_max_eps6_le by (unfold eps6; lra). reflexivity. Qed.

Lemma density_dark : Math_max 0 (interpolate (Math_log10 eps6) stepCurve - 0) = 0.
Proof.
  rewrite interpolate_step_low by apply Math_log10_eps6.
  unfold Math_max. rewrite Rmax_left by lra. reflexivity.
Qed.

Lemma density_lit : Math_max 0 (interpolate 0 stepCurve - 0) = 1.
Proof.
  rewrite interpolate_step_high. unfold Math_max. rewrite Rmax_right by lra. lra.
Qed.

Lemma slide_step_black e st :
  slide_state e ->
  pass1_step e 0 st blackPixel
  = Some (mkStats (inputSatSum st + 0) (satAfterInvert st + 0) (pixelCount st + 1)).
Proof.
  intros Hs. unfold blackPixel.
  rewrite (slide_step e st 0 0 0 1 (Math_log10 eps6) (Math_log10 eps6)
             (Math_log10 eps6) 0 0 0 Hs);
    try (rewrite Math_pow_0_l by lra; apply eps6_clamp0);
    try apply density_dark.
  rewrite !getSaturation_grey. reflexivity.
Qed.

Lemma slide_step_red e st :
  slide_state e ->
  pass1_step e 0 st (1, 0, 0, 1)
  = Some (mkStats (inputSatSum st + 1) (satAfterInvert st + 0.9) (pixelCount st + 1)).
Proof.
  intros Hs.
  rewrite (slide_step e st 1 0 0 1 0 (Math_log10 eps6) (Math_log10 eps6) 1 0 0 Hs);
    try (rewrite Math_pow_0_l by lra; apply eps6_clamp0);
    try apply density_dark; try apply density_lit.
  - rewrite Math_pow_1_l, !Math_pow_0_l by lra.
    rewrite getSaturation_red, Math_pow_10_m1, Math_pow_10_m0, getSaturation_cyan.
    reflexivity.
  - rewrite Math_pow_1_l, Math_max_eps6_ge by (unfold eps6; lra).
    apply Math_log10_1.
Qed.

Lemma slide_pass_black e n : forall st,
  slide_state e ->
  exists st', pass1 e 0 (repeat blackPixel n) st = Some st'
    /\ inputSatSum st' = inputSatSum st
    /\ satAfterInvert st' = satAfterInvert st
    /\ pixelCount st' = pixelCount st + INR n.
Proof.
  induction n as [|n IH]; intros st Hs.
  - exists st. cbn [repeat pass1 INR]. repeat split; lra.
  - cbn [repeat pass1]. rewrite (slide_step_black e st Hs).
    destruct (IH (mkStats (inputSatSum st + 0) (satAfterInvert st + 0)
                          (pixelCount st + 1)) Hs) as (st' & E & H1 & H2 & H3).
    exists st'. split; [exact E|].
    cbn [inputSatSum satAfterInvert pixelCount] in H1, H2, H3.
    rewrite S_INR. repeat split; lra.
Qed.

(** One saturated red pixel among 999 black ones, on the slide
    profile: the averages are 0.001 and 0.0009, the code derives 1.5
    and the clamped ratio is 5/3. *)
Lemma low_saturation_image :
  exists e st,
    new [] slideProfile = Some e
    /\ pass1 e 0 redDot (mkStats 0 0 0) = Some st
    /\ avgAfterInvert st <= 0.001
    /\ SATURATION_RESTORE_FACTOR st = 1.5
    /\ claimed_factor st = 5 / 3.
Proof.
  destruct (new_succeeds [] slideProfile) as [e He];
    try discriminate; [left; reflexivity|].
  pose proof (slide_engine e He) as Hs.
  unfold redDot. 
  destruct (slide_pass_black e 999 (mkStats (0 + 1) (0 + 0.9) (0 + 1)) Hs)
    as (st & E & H1 & H2 & H3).
  cbn [inputSatSum satAfterInvert pixelCount] in H1, H2, H3.
  exists e, st. split; [exact He|]. split.
  { cbn [pass1]. rewrite (slide_step_red e _ Hs).
    cbn [inputSatSum satAfterInvert pixelCount]. exact E. }
  assert (Hn : pixelCount st = 1000).
  { rewrite H3. change 999%nat with (Z.to_nat 999). rewrite INR_IZR_INZ.
    rewrite Z2Nat.id by lia. lra. }
  assert (Ha : avgAfterInvert st = 0.0009).
  { unfold avgAfterInvert. rewrite H2, Hn. lra. }
  split; [lra|]. split.
  - apply factor_fallback. lra.
  - unfold claimed_factor. rewrite Ha. unfold avgInput. rewrite H1, Hn.
    unfold Math_min, Math_max.
    replace ((0 + 1) / 1000 / 0.0009 * 1.5) with (5 / 3) by lra.
    rewrite Rmax_left by lra. rewrite Rmin_left by lra. reflexivity.
Qed.

(** C9, as the code has it.  With [st] the statistics of the first
    pass over an image, the derived factor always lies in [1, 5]; it is
    the ratio of the average input saturation to the average
    post-invert saturation, times 1.5, clamped to [1, 5], when the
    average post-invert saturation exceeds 0.001; otherwise the raw
    factor is 1 and the derived factor 1.5. *)
Theorem saturation_factor_spec engine totalExposure pixelData st :
  pass1 engine totalExposure pixelData (mkStats 0 0 0) = Some st ->
  saturationFactor engine totalExposure pixelData
  = Some (SATURATION_RESTORE_FACTOR st)
  /\ 1 <= SATURATION_RESTORE_FACTOR st <= 5
  /\ (0.001 < avgAfterInvert st ->
      SATURATION_RESTORE_FACTOR st = claimed_factor st)
  /\ (avgAfterInvert st <= 0.001 -> SATURATION_RESTORE_FACTOR st = 1.5).
Proof.
  intros H. split; [|split; [|split]].
  - unfold saturationFactor. rewrite H. reflexivity.
  - unfold SATURATION_RESTORE_FACTOR. apply clamp_range. lra.
  - apply factor_guarded.
  - apply factor_fallback.
Qed.

Lemma saturation_factor_spec_witness :
  exists st, pass1 unitEngine 0 redPixel (mkStats 0 0 0) = Some st
             /\ 1 <= SATURATION_RESTORE_FACTOR st <= 5.
Proof.
  destruct (pass1_total unitEngine 0 redPixel (mkStats 0 0 0) eq_refl)
    as [st Hst].
  exists st. split; [exact Hst|].
  exact (proj1 (proj2 (saturation_factor_spec unitEngine 0 redPixel st Hst))).
Defined.

(** Under the guard the ratio is not used: with average input
    saturation 0.5 and average post-invert saturation 0.0005 the clamped
    ratio is 5 and the code derives 1.5. *)
Lemma factor_under_guard :
  ~ (forall st, SATURATION_RESTORE_FACTOR st = claimed_factor st).
Proof.
  intros H. specialize (H lowSaturation).
  rewrite factor_fallback in H
    by (unfold avgAfterInvert, lowSaturation; cbn [satAfterInvert pixelCount]; lra).
  unfold claimed_factor, avgInput, avgAfterInvert, lowSaturation in H.
  cbn [inputSatSum satAfterInvert pixelCount] in H.
  unfold Math_min, Math_max in H.
  replace (0.5 / 1 / (0.0005 / 1) * 1.5) with 1500 in H by lra.
  rewrite Rmax_left in H by lra. rewrite Rmin_right in H by lra. lra.
Qed.

(** C9 as worded fails on an image: for one saturated red pixel among
    999 black ones on a reversal profile, the first pass leaves an
    average post-invert saturation of 0.0009, under the guard; the
    code derives 1.5 where the clamped ratio is 5/3. *)
Lemma claimed_factor_counterexample :
  ~ (forall engine totalExposure pixelData st,
       pass1 engine totalExposure pixelData (mkStats 0 0 0) = Some st ->
       SATURATION_RESTORE_FACTOR st = claimed_factor st).
Proof.
  intros H.
  destruct low_saturation_image as (e & st & _ & Hp & _ & Hf & Hc).
  specialize (H e 0 redDot st Hp). rewrite Hf, Hc in H. lra.
Qed.

(** *** Saturation *)

Lemma max3_ge r g b : r <= max3 r g b /\ g <= max3 r g b /\ b <= max3 r g b.
Proof.
  unfold max3, Math_max. pose proof (Rmax_l (Rmax r g) b).
  pose proof (Rmax_r (Rmax r g) b). pose proof (Rmax_l r g).
  pose proof (Rmax_r r g). lra.
Qed.

Lemma min3_le r g b : min3 r g b <= r /\ min3 r g b <= g /\ min3 r g b <= b.
Proof.
  unfold min3, Math_min. pose proof (Rmin_l (Rmin r g) b).
  pose proof (Rmin_r (Rmin r g) b). pose proof (Rmin_l r g).
  pose proof (Rmin_r r g). lra.
Qed.

Lemma max3_cases r g b : max3 r g b = r \/ max3 r g b = g \/ max3 r g b = b.
Proof.
  unfold max3, Math_max, Rmax.
  destruct (Rle_dec r g); destruct (Rle_dec _ b); auto.
Qed.

Lemma min3_cases r g b : min3 r g b = r \/ min3 r g b = g \/ min3 r g b = b.
Proof.
  unfold min3, Math_min, Rmin.
  destruct (Rle_dec r g); destruct (Rle_dec _ b); auto.
Qed.

Lemma min3_le_max3 r g b : min3 r g b <= max3 r g b.
Proof. pose proof (max3_ge r g b). pose proof (min3_le r g b). lra. Qed.

Lemma max3_eq_min3 r g b : max3 r g b = min3 r g b <-> r = g /\ g = b.
Proof.
  pose proof (max3_ge r g b). pose proof (min3_le r g b). split.
  - intros E. lra.
  - intros [-> ->]. destruct (max3_cases b b b) as [-> | [-> | ->]];
      destruct (min3_cases b b b) as [-> | [-> | ->]]; reflexivity.
Qed.

Lemma getSaturation_unit r g b :
  0 <= r -> 0 <= g -> 0 <= b -> 0 <= getSaturation r g b <= 1.
Proof.
  intros Hr Hg Hb. unfold getSaturation.
  pose proof (max3_ge r g b) as HM. pose proof (min3_le r g b) as Hm.
  assert (Hm0 : 0 <= min3 r g b)
    by (destruct (min3_cases r g b) as [-> | [-> | ->]]; assumption).
  set (M := max3 r g b) in *. set (m := min3 r g b) in *.
  destruct (Req_dec_T M 0) as [E | E]; [lra|].
  assert (HMpos : 0 < M) by lra. split.
  - apply Rmult_le_pos; [lra | left; now apply Rinv_0_lt_compat].
  - apply (Rmult_le_reg_r M); [lra|].
    unfold Rdiv. rewrite Rmult_assoc, Rinv_l by lra. lra.
Qed.

(** X19: for non-negative channels [getSaturation] lies in [0, 1]; it
    is 0 exactly on the greys and 1 exactly when the largest channel is
    positive and the smallest is 0. *)
Theorem getSaturation_range r g b :
  0 <= r -> 0 <= g -> 0 <= b ->
  0 <= getSaturation r g b <= 1
  /\ (getSaturation r g b = 0 <-> r = g /\ g = b)
  /\ (getSaturation r g b = 1 <-> 0 < max3 r g b /\ min3 r g b = 0).
Proof.
  intros Hr Hg Hb. unfold getSaturation.
  pose proof (max3_ge r g b) as HM. pose proof (min3_le r g b) as Hm.
  pose proof (max3_eq_min3 r g b) as Heq.
  assert (Hm0 : 0 <= min3 r g b)
    by (destruct (min3_cases r g b) as [-> | [-> | ->]]; assumption).
  set (M := max3 r g b) in *. set (m := min3 r g b) in *.
  destruct (Req_dec_T M 0) as [E | E].
  - split; [lra|]. split.
    + split; [intros _; lra | reflexivity].
    + split; [intros; lra | intros [H _]; lra].
  - assert (HMpos : 0 < M) by lra.
    assert (Hq : (M - m) / M = 1 - m / M) by (field; lra).
    assert (Hr1 : 0 <= m / M <= 1).
    { split; [apply Rmult_le_pos; [lra | left; now apply Rinv_0_lt_compat]|].
      apply (Rmult_le_reg_r M); [lra|].
      unfold Rdiv. rewrite Rmult_assoc, Rinv_l by lra. lra. }
    split; [lra|]. split.
    + rewrite <- Heq. split.
      * intros H0. assert (m / M = 1) by lra.
        assert (m = M); [|lra].
        replace m with (m / M * M) by (field; lra). rewrite H. lra.
      * intros H0. rewrite H0. unfold Rdiv.
        replace (m - m) with 0 by lra. apply Rmult_0_l.
    + split.
      * intros H1. split; [exact HMpos|].
        assert (m / M = 0) by lra.
        replace m with (m / M * M) by (field; lra). rewrite H. lra.
      * intros [_ H0]. rewrite H0. field. lra.
Qed.

Lemma getSaturation_range_witness :
  0 <= getSaturation 0.2 0.4 0.6 <= 1.
Proof.
  apply (getSaturation_range 0.2 0.4 0.6); lra.
Defined.

Lemma Math_pow_22_nonneg p : 0 <= p -> 0 <= Math_pow p 2.2.
Proof. intros H. apply Math_pow_nonneg; lra. Qed.

Lemma pass1_counts engine totalExposure pixelData : forall st st',
  nonneg_pixels pixelData ->
  pass1 engine totalExposure pixelData st = Some st' ->
  pixelCount st' = pixelCount st + INR (List.length pixelData)
  /\ inputSatSum st <= inputSatSum st'
     <= inputSatSum st + INR (List.length pixelData).
Proof.
  induction pixelData as [|px rest IH]; intros st st' Hnn H.
  - cbn in H. inversion H; subst. cbn. lra.
  - cbn [pass1] in H.
    destruct (pass1_step engine totalExposure st px) as [st1|] eqn:E;
      [|discriminate].
    inversion Hnn as [|? ? Hpx Hrest]; subst.
    destruct (IH st1 st' Hrest H) as [Hc Hs].
    unfold pass1_step in E. destruct px as [[[pr pg] pb] pa].
    destruct Hpx as (Hr & Hg & Hb).
    destruct (scan engine _) as [scanned|]; [|discriminate].
    inversion E; subst st1. cbn [pixelCount inputSatSum] in Hc, Hs.
    destruct (getSaturation_unit (Math_pow pr 2.2) (Math_pow pg 2.2)
                (Math_pow pb 2.2)) as [S0 S1];
      try (apply Math_pow_22_nonneg; assumption).
    change (List.length ((pr, pg, pb, pa) :: rest)) with (S (List.length rest)).
    rewrite S_INR. split; lra.
Qed.

(** X20: the statistics of the first pass.  On an image with
    non-negative channels, when the pass returns, [pixelCount] is the
    number of pixels and [inputSatSum] lies between 0 and that number:
    the average input saturation of a non-empty image is in [0, 1]. *)
Theorem pass1_statistics engine totalExposure pixelData st :
  nonneg_pixels pixelData ->
  pass1 engine totalExposure pixelData (mkStats 0 0 0) = Some st ->
  pixelCount st = INR (List.length pixelData)
  /\ 0 <= inputSatSum st <= pixelCount st
  /\ (pixelData <> [] -> 0 <= avgInput st <= 1).
Proof.
  intros Hnn H.
  destruct (pass1_counts _ _ _ _ _ Hnn H) as [Hc Hs].
  cbn [pixelCount inputSatSum] in Hc, Hs.
  rewrite Rplus_0_l in Hc, Hs. rewrite Hc.
  split; [reflexivity|]. split; [lra|].
  intros Hne. unfold avgInput. rewrite Hc.
  assert (Hn : 0 < INR (List.length pixelData)).
  { apply lt_0_INR. destruct pixelData; [congruence | cbn; lia]. }
  split.
  - apply Rmult_le_pos; [lra | left; now apply Rinv_0_lt_compat].
  - apply (Rmult_le_reg_r (INR (List.length pixelData))); [exact Hn|].
    unfold Rdiv. rewrite Rmult_assoc, Rinv_l by lra. lra.
Qed.

Lemma pass1_statistics_witness :
  exists st, pass1 unitEngine 0 fourPixels (mkStats 0 0 0) = Some st
    /\ pixelCount st = INR (List.length fourPixels)
    /\ 0 <= inputSatSum st <= pixelCount st
    /\ (fourPixels <> [] -> 0 <= avgInput st <= 1).
Proof.
  destruct (pass1_total unitEngine 0 fourPixels (mkStats 0 0 0) eq_refl)
    as [st Hst].
  exists st. split; [exact Hst|].
  apply (pass1_statistics unitEngine 0 fourPixels st); [|exact Hst].
  unfold nonneg_pixels, fourPixels. repeat constructor; lra.
Defined.

(** *** Auto exposure *)

Lemma logLuxSum_fold samples : forall a,
  fold_left (fun acc px => acc + Math_log (Math_max 0.0001 (lux px))) samples a
  = a + logLuxSum samples.
Proof.
  unfold logLuxSum.
  induction samples as [|px rest IH]; intros a; cbn [fold_left]; [lra|].
  rewrite IH, (IH (0 + _)). lra.
Qed.

Lemma logLuxSum_cons px rest :
  logLuxSum (px :: rest)
  = Math_log (Math_max 0.0001 (lux px)) + logLuxSum rest.
Proof.
  unfold logLuxSum at 1. cbn [fold_left]. rewrite logLuxSum_fold. lra.
Qed.

Lemma pow2_log2 x : 0 < x -> Math_pow 2 (Math_log2 x) = x.
Proof.
  intros H. rewrite Math_pow_pos_base by lra. unfold Math_log2, Rpower.
  assert (0 < ln 2) by (rewrite <- ln_1; apply ln_increasing; lra).
  replace (ln x / ln 2 * ln 2) with (ln x) by (field; lra).
  now apply exp_ln.
Qed.

Lemma sampled_repeat (px : Pixel) n : forall k,
  exists m, sampled (repeat px n) k = repeat px m
            /\ ((k < n)%nat -> (0 < m)%nat).
Proof.
  induction n as [|n IH]; intros k.
  - exists 0%nat. split; [reflexivity | lia].
  - cbn [repeat sampled]. destruct k as [|k].
    + destruct (IH 99%nat) as [m [Hm _]]. exists (S m).
      rewrite Hm. split; [reflexivity | lia].
    + destruct (IH k) as [m [Hm Hp]]. exists m. split; [exact Hm | lia].
Qed.

Lemma logLuxSum_repeat px m :
  logLuxSum (repeat px m) = INR m * Math_log (Math_max 0.0001 (lux px)).
Proof.
  induction m as [|m IH].
  - unfold logLuxSum. cbn. lra.
  - cbn [repeat]. rewrite logLuxSum_cons, IH, S_INR. lra.
Qed.

(** X21: auto exposure aims the geometric mean at 25 %, in exact
    arithmetic and away from the floor.  On a non-empty image whose
    log-average luminance of the sampled pixels is 0.00010001 or more,
    the bias b satisfies 2^b * average = 0.25.  On an empty image the
    bias is 0, and on a uniform grey image of value v, 0.00010001 or
    more, it is log2 (0.25 / v).  Nothing is said of an average at the
    floor 0.0001, where rounding decides the comparison. *)
Theorem autoExposure_target :
  (forall pixelData, pixelData <> [] ->
     let avg := logAvgLux (sampled pixelData 0) in
     0.00010001 <= avg ->
     Math_pow 2 (autoExposureBias pixelData) * avg = 0.25)
  /\ autoExposureBias [] = 0
  /\ (forall v n, 0.00010001 <= v -> (0 < n)%nat ->
        autoExposureBias (greyImage v n) = Math_log2 (0.25 / v)).
Proof.
  split; [|split].
  - intros pixelData Hne avg Hm.
    assert (Ha : 0.0001 < avg) by lra.
    unfold autoExposureBias. fold avg.
    destruct (sampled pixelData 0) as [|s0 srest] eqn:E.
    { destruct pixelData; [congruence | cbn in E; discriminate]. }
    apply ltb_true in Ha. rewrite Ha. apply ltb_true in Ha.
    rewrite pow2_log2 by (apply Rdiv_lt_0_compat; lra).
    field. lra.
  - reflexivity.
  - intros v n Hm Hn.
    assert (Hv : 0.0001 < v) by lra.
    unfold autoExposureBias, greyImage. cbv zeta.
    destruct (sampled_repeat (v, v, v, 1) n 0) as [m [Hm' Hp]].
    specialize (Hp Hn). unfold Pixel in Hm'. rewrite Hm'.
    destruct m as [|m]; [lia|].
    assert (Ea : logAvgLux (repeat (v, v, v, 1) (S m)) = v).
    { unfold logAvgLux, Math_exp. rewrite logLuxSum_repeat, repeat_length.
      assert (0 < INR (S m)) by (apply lt_0_INR; lia).
      replace (INR (S m) * Math_log (Math_max 0.0001 (lux (v, v, v, 1)))
               / INR (S m))
        with (Math_log (Math_max 0.0001 (lux (v, v, v, 1)))) by (field; lra).
      assert (El : lux (v, v, v, 1) = v) by (unfold lux; lra).
      rewrite El. unfold Math_max, Math_log. rewrite Rmax_right by lra.
      apply exp_ln. lra. }
    cbn [repeat] in Ea |- *. rewrite Ea.
    assert (Hb : ltb 0.0001 v = true) by (apply ltb_true; lra).
    rewrite Hb. reflexivity.
Qed.

Lemma autoExposure_target_witness :
  autoExposureBias (greyImage 0.18 1) = Math_log2 (0.25 / 0.18).
Proof.
  apply (proj2 (proj2 autoExposure_target) 0.18 1%nat); [lra | lia].
Defined.

(** *** The HSL round trip of [boostSaturation] *)

Lemma hue2rgb_rise p q t :
  0 <= t < 1 / 6 -> hue2rgb p q t = p + (q - p) * 6 * t.
Proof.
  intros H. unfold hue2rgb.
  assert (E1 : ltb t 0 = false) by (apply ltb_false; lra).
  assert (E2 : ltb 1 t = false) by (apply ltb_false; lra).
  assert (E3 : ltb t (1 / 6) = true) by (apply ltb_true; lra).
  rewrite E1, E2, E3. reflexivity.
Qed.

Lemma hue2rgb_top p q t : 1 / 6 <= t <= 1 / 2 -> hue2rgb p q t = q.
Proof.
  intros H. unfold hue2rgb.
  assert (E1 : ltb t 0 = false) by (apply ltb_false; lra).
  assert (E2 : ltb 1 t = false) by (apply ltb_false; lra).
  assert (E3 : ltb t (1 / 6) = false) by (apply ltb_false; lra).
  rewrite E1, E2, E3.
  destruct (ltb t (1 / 2)) eqn:E4; [reflexivity|].
  apply ltb_false in E4. assert (Et : t = 1 / 2) by lra.
  assert (E5 : ltb t (2 / 3) = true) by (apply ltb_true; lra).
  rewrite E5, Et. lra.
Qed.

Lemma hue2rgb_fall p q t :
  1 / 2 <= t < 2 / 3 -> hue2rgb p q t = p + (q - p) * (2 / 3 - t) * 6.
Proof.
  intros H. unfold hue2rgb.
  assert (E1 : ltb t 0 = false) by (apply ltb_false; lra).
  assert (E2 : ltb 1 t = false) by (apply ltb_false; lra).
  assert (E3 : ltb t (1 / 6) = false) by (apply ltb_false; lra).
  assert (E5 : ltb t (2 / 3) = true) by (apply ltb_true; lra).
  rewrite E1, E2, E3, E5.
  destruct (ltb t (1 / 2)) eqn:E4; [|reflexivity].
  apply ltb_true in E4. lra.
Qed.

Lemma hue2rgb_bottom p q t : 2 / 3 <= t <= 1 -> hue2rgb p q t = p.
Proof.
  intros H. unfold hue2rgb.
  assert (E1 : ltb t 0 = false) by (apply ltb_false; lra).
  assert (E2 : ltb 1 t = false) by (apply ltb_false; lra).
  assert (E3 : ltb t (1 / 6) = false) by (apply ltb_false; lra).
  assert (E4 : ltb t (1 / 2) = false) by (apply ltb_false; lra).
  assert (E5 : ltb t (2 / 3) = false) by (apply ltb_false; lra).
  rewrite E1, E2, E3, E4, E5. reflexivity.
Qed.

Lemma hue2rgb_wrap_up p q t :
  -1 <= t < 0 -> hue2rgb p q t = hue2rgb p q (t + 1).
Proof.
  intros H. unfold hue2rgb.
  assert (E1 : ltb t 0 = true) by (apply ltb_true; lra).
  assert (E2 : ltb 1 (t + 1) = false) by (apply ltb_false; lra).
  assert (E3 : ltb (t + 1) 0 = false) by (apply ltb_false; lra).
  rewrite E1, E3, E2. reflexivity.
Qed.

Lemma hue2rgb_wrap_down p q t :
  1 < t <= 2 -> hue2rgb p q t = hue2rgb p q (t - 1).
Proof.
  intros H. unfold hue2rgb.
  assert (E1 : ltb t 0 = false) by (apply ltb_false; lra).
  assert (E2 : ltb 1 t = true) by (apply ltb_true; lra).
  assert (E3 : ltb (t - 1) 0 = false) by (apply ltb_false; lra).
  assert (E4 : ltb 1 (t - 1) = false) by (apply ltb_false; lra).
  rewrite E1, E2, E3, E4. reflexivity.
Qed.

(** On [-1, 2] the result lies between [p] and [q]. *)
Lemma hue2rgb_between p q t :
  p <= q -> -1 <= t <= 2 -> p <= hue2rgb p q t <= q.
Proof.
  intros Hpq Ht.
  assert (Hin : forall u, 0 <= u <= 1 -> p <= hue2rgb p q u <= q).
  { intros u Hu.
    destruct (Rlt_dec u (1 / 6)); [rewrite hue2rgb_rise by lra; nra|].
    destruct (Rle_dec u (1 / 2)); [rewrite hue2rgb_top by lra; lra|].
    destruct (Rlt_dec u (2 / 3)); [rewrite hue2rgb_fall by lra; nra|].
    rewrite hue2rgb_bottom by lra. lra. }
  destruct (Rlt_dec t 0).
  - rewrite hue2rgb_wrap_up by lra. apply Hin. lra.
  - destruct (Rlt_dec 1 t).
    + rewrite hue2rgb_wrap_down by lra. apply Hin. lra.
    + apply Hin. lra.
Qed.

Lemma ratio_bounds x d : 0 < d -> - d <= x <= d -> -1 <= x / d <= 1.
Proof.
  intros Hd Hx.
  assert (I : 0 < / d) by now apply Rinv_0_lt_compat.
  split.
  - apply (Rmult_le_reg_r d); [exact Hd|].
    unfold Rdiv. rewrite Rmult_assoc, Rinv_l by lra. lra.
  - apply (Rmult_le_reg_r d); [exact Hd|].
    unfold Rdiv. rewrite Rmult_assoc, Rinv_l by lra. lra.
Qed.

Lemma ratio_sign x d : 0 < d -> (0 <= x -> 0 <= x / d) /\ (x < 0 -> x / d < 0).
Proof.
  intros Hd. assert (I : 0 < / d) by now apply Rinv_0_lt_compat.
  split; intros Hx; unfold Rdiv; nra.
Qed.

(** The hue computed by [boostSaturation] lies in [0, 1). *)
Lemma hue_range r g b :
  max3 r g b <> min3 r g b ->
  let max := max3 r g b in
  let d := max - min3 r g b in
  let h := if Req_dec_T max r then ((g - b) / d + (if ltb g b then 6 else 0)) / 6
           else if Req_dec_T max g then ((b - r) / d + 2) / 6
           else ((r - g) / d + 4) / 6 in
  0 <= h < 1.
Proof.
  intros Hne. cbv zeta.
  pose proof (max3_ge r g b) as HM. pose proof (min3_le r g b) as Hm.
  pose proof (min3_le_max3 r g b) as Hmm.
  set (M := max3 r g b) in *. set (m := min3 r g b) in *.
  assert (Hd : 0 < M - m) by lra.
  destruct (Req_dec_T M r) as [Er | Er].
  - destruct (ratio_bounds (g - b) (M - m) Hd ltac:(lra)) as [U0 U1].
    destruct (ratio_sign (g - b) (M - m) Hd) as [S0 S1].
    destruct (ltb g b) eqn:E.
    + apply ltb_true in E. specialize (S1 ltac:(lra)). lra.
    + apply ltb_false in E. specialize (S0 ltac:(lra)). lra.
  - destruct (Req_dec_T M g) as [Eg | Eg].
    + destruct (ratio_bounds (b - r) (M - m) Hd ltac:(lra)). lra.
    + destruct (ratio_bounds (r - g) (M - m) Hd ltac:(lra)). lra.
Qed.

(** X22: [boostSaturation] stays in gamut.  For an input in the unit
    cube and a factor that is not negative, every channel returned lies
    in [0, 1]; a grey input is returned unchanged. *)
Theorem boostSaturation_range r g b factor :
  in01 r -> in01 g -> in01 b -> 0 <= factor ->
  let out := boostSaturation r g b factor in
  (in01 (v0 out) /\ in01 (v1 out) /\ in01 (v2 out))
  /\ (r = g -> g = b -> out = (r, g, b)).
Proof.
  intros Hr Hg Hb Hf out. unfold in01 in *. unfold out, boostSaturation.
  pose proof (max3_ge r g b) as HM. pose proof (min3_le r g b) as Hm.
  pose proof (hue_range r g b) as Hh.
  pose proof (max3_eq_min3 r g b) as Heq.
  assert (HM1 : max3 r g b <= 1)
    by (destruct (max3_cases r g b) as [-> | [-> | ->]]; lra).
  assert (Hm0 : 0 <= min3 r g b)
    by (destruct (min3_cases r g b) as [-> | [-> | ->]]; lra).
  cbv zeta in Hh |- *.
  set (M := max3 r g b) in *. set (m := min3 r g b) in *.
  destruct (Req_dec_T M m) as [E | E].
  { cbn [v0 v1 v2 fst snd]. tauto. }
  specialize (Hh E).
  set (h := if Req_dec_T M r then _ else _) in *.
  split; [|intros E1 E2; exfalso; apply E; apply Heq; tauto].
  assert (Hd : 0 < M - m) by lra.
  set (s := if ltb 0.5 ((M + m) / 2) then (M - m) / (2 - M - m)
            else (M - m) / (M + m)).
  assert (Hs : 0 <= s).
  { unfold s. destruct (ltb 0.5 ((M + m) / 2)) eqn:El.
    - apply ltb_true in El. apply Rmult_le_pos; [lra|].
      left. apply Rinv_0_lt_compat. lra.
    - apply Rmult_le_pos; [lra|]. left. apply Rinv_0_lt_compat. lra. }
  set (s' := Math_min 1 (s * factor)).
  assert (Hs' : 0 <= s' <= 1).
  { unfold s', Math_min. split; [|apply Rmin_l].
    apply Rmin_glb; [lra | now apply Rmult_le_pos]. }
  set (l := (M + m) / 2). assert (Hl : 0 <= l <= 1) by (unfold l; lra).
  destruct (Req_dec_T s' 0) as [E0 | E0].
  { cbn [v0 v1 v2 fst snd]. lra. }
  set (q := if ltb l 0.5 then l * (1 + s') else l + s' - l * s').
  assert (Hq : l <= q <= 1 /\ 0 <= 2 * l - q).
  { unfold q. destruct (ltb l 0.5) eqn:El.
    - apply ltb_true in El. nra.
    - apply ltb_false in El. nra. }
  cbn [v0 v1 v2 fst snd].
  assert (Hb3 : forall t, -1 <= t <= 2 -> 0 <= hue2rgb (2 * l - q) q t <= 1).
  { intros t Ht.
    pose proof (hue2rgb_between (2 * l - q) q t ltac:(lra) Ht). lra. }
  repeat split; apply Hb3; lra.
Qed.

Lemma boostSaturation_range_witness :
  let out := boostSaturation 0.2 0.4 0.6 1.5 in
  (in01 (v0 out) /\ in01 (v1 out) /\ in01 (v2 out))
  /\ (0.2 = 0.4 -> 0.4 = 0.6 -> out = (0.2, 0.4, 0.6)).
Proof.
  apply (boostSaturation_range 0.2 0.4 0.6 1.5); unfold in01; lra.
Defined.

Lemma ratio_eq x d : 0 < d -> x / d * d = x.
Proof. intros H. field. lra. Qed.

(** X23: with factor 1 [boostSaturation] is the identity on the unit
    cube: converting to hue, saturation and lightness and back returns
    the input. *)
Theorem boostSaturation_identity r g b :
  in01 r -> in01 g -> in01 b -> boostSaturation r g b 1 = (r, g, b).
Proof.
  intros Hr Hg Hb. unfold in01 in *. unfold boostSaturation.
  pose proof (max3_ge r g b) as HM. pose proof (min3_le r g b) as Hm.
  pose proof (max3_cases r g b) as HMc. pose proof (min3_cases r g b) as Hmc.
  cbv zeta.
  set (M := max3 r g b) in *. set (m := min3 r g b) in *.
  destruct (Req_dec_T M m) as [E | E]; [reflexivity|].
  assert (Hd : 0 < M - m) by lra.
  assert (HM1 : M <= 1) by (destruct HMc as [-> | [-> | ->]]; lra).
  assert (Hm0 : 0 <= m) by (destruct Hmc as [-> | [-> | ->]]; lra).
  set (l := (M + m) / 2).
  set (s := if ltb 0.5 l then (M - m) / (2 - M - m) else (M - m) / (M + m)).
  assert (Hs : 0 < s <= 1
               /\ (if ltb l 0.5 then l * (1 + s) else l + s - l * s) = M).
  { unfold s. destruct (ltb 0.5 l) eqn:El.
    - apply ltb_true in El. unfold l in El.
      assert (D : 0 < 2 - M - m) by lra.
      assert (El' : ltb l 0.5 = false) by (apply ltb_false; unfold l; lra).
      rewrite El'. split; [split|].
      + apply Rdiv_lt_0_compat; lra.
      + apply (Rmult_le_reg_r (2 - M - m)); [exact D|].
        rewrite ratio_eq by exact D. lra.
      + unfold l. field. lra.
    - apply ltb_false in El. unfold l in El.
      assert (D : 0 < M + m) by lra.
      split; [split|].
      + apply Rdiv_lt_0_compat; lra.
      + apply (Rmult_le_reg_r (M + m)); [exact D|].
        rewrite ratio_eq by exact D. lra.
      + destruct (ltb l 0.5) eqn:El'.
        * unfold l. field. lra.
        * apply ltb_false in El'. unfold l in El'.
          assert (E1 : M + m = 1) by lra.
          unfold l. rewrite E1. replace m with (1 - M) by lra. field. }
  destruct Hs as [[Hs0 Hs1] Hq].
  assert (Es : Math_min 1 (s * 1) = s).
  { unfold Math_min. rewrite Rmult_1_r. apply Rmin_right. exact Hs1. }
  rewrite Es.
  destruct (Req_dec_T s 0) as [E0 | E0]; [lra|].
  rewrite Hq. replace (2 * l - M) with m by (unfold l; lra).
  clear Hq Es E0 Hs0 Hs1. clearbody s. clear s.
  destruct (Req_dec_T M r) as [Er | Er].
  - (* red is the largest channel *)
    set (u := (g - b) / (M - m)).
    assert (Hu : u * (M - m) = g - b) by (apply ratio_eq; exact Hd).
    destruct (ltb g b) eqn:Egb.
    + apply ltb_true in Egb.
      assert (Em : m = g) by (destruct Hmc as [Em | [Em | Em]]; lra).
      assert (Hu1 : -1 <= u < 0) by (split; nra).
      f_equal; [f_equal|].
      * rewrite hue2rgb_wrap_down by lra. rewrite hue2rgb_top by lra. lra.
      * rewrite hue2rgb_bottom by lra. lra.
      * rewrite hue2rgb_fall by lra. nra.
    + apply ltb_false in Egb.
      assert (Em : m = b) by (destruct Hmc as [Em | [Em | Em]]; lra).
      assert (Hu1 : 0 <= u <= 1) by (split; nra).
      f_equal; [f_equal|].
      * rewrite hue2rgb_top by lra. lra.
      * destruct (Rlt_dec u 1) as [Hlt | Hge].
        -- rewrite hue2rgb_rise by lra. nra.
        -- rewrite hue2rgb_top by lra. nra.
      * rewrite hue2rgb_wrap_up by lra. rewrite hue2rgb_bottom by lra. lra.
  - destruct (Req_dec_T M g) as [Eg | Eg].
    + (* green is the largest channel, red is smaller *)
      set (u := (b - r) / (M - m)).
      assert (Hu : u * (M - m) = b - r) by (apply ratio_eq; exact Hd).
      assert (Hu1 : -1 <= u <= 1) by (split; nra).
      destruct (Rlt_dec b r) as [Hbr | Hbr].
      * assert (Em : m = b) by (destruct Hmc as [Em | [Em | Em]]; lra).
        assert (Hu2 : u < 0) by nra.
        f_equal; [f_equal|].
        -- rewrite hue2rgb_fall by lra. nra.
        -- rewrite hue2rgb_top by lra. lra.
        -- rewrite hue2rgb_wrap_up by lra. rewrite hue2rgb_bottom by lra. lra.
      * assert (Em : m = r) by (destruct Hmc as [Em | [Em | Em]]; lra).
        assert (Hu2 : 0 <= u) by nra.
        f_equal; [f_equal|].
        -- rewrite hue2rgb_bottom by lra. lra.
        -- rewrite hue2rgb_top by lra. lra.
        -- destruct (Rlt_dec u 1) as [Hlt | Hge].
           ++ rewrite hue2rgb_rise by lra. nra.
           ++ rewrite hue2rgb_top by lra. nra.
    + (* blue is the largest channel, red and green are smaller *)
      assert (Eb : M = b) by (destruct HMc as [E1 | [E1 | E1]]; congruence).
      set (u := (r - g) / (M - m)).
      assert (Hu : u * (M - m) = r - g) by (apply ratio_eq; exact Hd).
      assert (Hrb : r < M) by lra. assert (Hgb : g < M) by lra.
      assert (Hu1 : -1 < u < 1) by (split; nra).
      destruct (Rlt_dec g r) as [Hgr | Hgr].
      * assert (Em : m = g) by (destruct Hmc as [Em | [Em | Em]]; lra).
        assert (Hu2 : 0 < u) by nra.
        f_equal; [f_equal|].
        -- rewrite hue2rgb_wrap_down by lra. rewrite hue2rgb_rise by lra. nra.
        -- rewrite hue2rgb_bottom by lra. lra.
        -- rewrite hue2rgb_top by lra. lra.
      * assert (Em : m = r) by (destruct Hmc as [Em | [Em | Em]]; lra).
        assert (Hu2 : u <= 0) by nra.
        f_equal; [f_equal|].
        -- rewrite hue2rgb_bottom by lra. lra.
        -- destruct (Rlt_dec u 0) as [Hlt | Hge].
           ++ rewrite hue2rgb_fall by lra. nra.
           ++ rewrite hue2rgb_bottom by lra. nra.
        -- rewrite hue2rgb_top by lra. lra.
Qed.

Lemma boostSaturation_identity_witness :
  boostSaturation 0.2 0.4 0.6 1 = (0.2, 0.4, 0.6).
Proof.
  apply (boostSaturation_identity 0.2 0.4 0.6); unfold in01; lra.
Defined.

(** *** Auto levels *)

Lemma insert_In x l y : In y (insert x l) <-> y = x \/ In y l.
Proof.
  induction l as [|a l IH]; cbn [insert].
  - cbn. intuition.
  - destruct (leb x a).
    + cbn. intuition.
    + cbn [In]. rewrite IH. intuition.
Qed.

Lemma sortNumbers_In l y : In y (sortNumbers l) <-> In y l.
Proof.
  induction l as [|a l IH]; cbn [sortNumbers fold_right]; [reflexivity|].
  fold (sortNumbers l). rewrite insert_In, IH. cbn. intuition.
Qed.

Lemma insert_ascending x l : ascending l -> ascending (insert x l).
Proof.
  induction l as [|a l IH]; intros H.
  - cbn. split; [intros y []| exact I].
  - cbn [insert]. destruct H as [Ha Hl]. destruct (leb x a) eqn:E.
    + apply leb_true in E. cbn [ascending]. split; [|split; assumption].
      intros y [<- | Hy]; [exact E|]. specialize (Ha y Hy). lra.
    + apply leb_false in E. cbn [ascending]. split; [|now apply IH].
      intros y Hy. apply insert_In in Hy. destruct Hy as [-> | Hy];
        [lra | now apply Ha].
Qed.

Lemma sortNumbers_ascending l : ascending (sortNumbers l).
Proof.
  induction l as [|a l IH]; cbn [sortNumbers fold_right]; [exact I|].
  apply insert_ascending. exact IH.
Qed.

Lemma last_number_default (l : list R) : forall a d d',
  last (a :: l) d = last (a :: l) d'.
Proof.
  induction l as [|b l IH]; intros a d d'; [reflexivity|].
  change (last (b :: l) d = last (b :: l) d'). apply IH.
Qed.

Lemma nth_error_last (l : list R) : forall a,
  nth_error (a :: l) (List.length l) = Some (last (a :: l) a).
Proof.
  induction l as [|b l IH]; intros a; [reflexivity|].
  cbn [List.length nth_error]. rewrite IH.
  change (last (a :: b :: l) a) with (last (b :: l) a).
  now rewrite (last_number_default l b a b).
Qed.

Lemma ascending_first a l y : ascending (a :: l) -> In y (a :: l) -> a <= y.
Proof. intros [H _] [<- | Hy]; [lra | now apply H]. Qed.

Lemma ascending_last l : forall a y,
  ascending (a :: l) -> In y (a :: l) -> y <= last (a :: l) a.
Proof.
  induction l as [|b l IH]; intros a y H Hy.
  - destruct Hy as [<- | []]. cbn. lra.
  - change (last (a :: b :: l) a) with (last (b :: l) a).
    rewrite (last_number_default l b a b).
    destruct H as [Ha Hl]. destruct Hy as [<- | Hy].
    + specialize (Ha b (or_introl eq_refl)).
      specialize (IH b b Hl (or_introl eq_refl)). lra.
    + now apply IH.
Qed.

(** The range and the normalisation of one channel, from its sorted
    densities. *)
Lemma autoLevels_linear_shape densities :
  densities <> [] ->
  exists lo hi,
    In lo densities /\ In hi densities
    /\ (forall y, In y densities -> lo <= y <= hi)
    /\ autoLevels true densities
       = mkRange lo (or_else hi 3)
                 (if ltb 0.001 (or_else hi 3 - lo)
                  then 1 / (or_else hi 3 - lo) else 1).
Proof.
  intros Hne.
  pose proof (sortNumbers_ascending densities) as Hasc.
  pose proof (sortNumbers_In densities) as Hin.
  unfold autoLevels. cbv zeta.
  rewrite Rmult_0_r, Rmult_1_r, Int_part_INR.
  unfold Math_floor. replace (Int_part 0) with 0%Z
    by (replace 0 with (INR 0) by reflexivity; now rewrite Int_part_INR).
  destruct (sortNumbers densities) as [|a l] eqn:Es.
  { destruct densities as [|d ds]; [congruence|].
    exfalso. apply (proj2 (Hin d)). now left. }
  set (lst := last (a :: l) a).
  assert (Ha : forall y, In y densities -> a <= y <= lst).
  { intros y Hy. apply Hin in Hy. split.
    - now apply (ascending_first a l).
    - now apply ascending_last. }
  assert (Hlo : read_or (a :: l) 0 0 = a).
  { unfold read_or. cbn [Z.ltb Z.compare Z.to_nat nth_error].
    unfold or_else. destruct (Req_dec_T a 0); [now subst | reflexivity]. }
  assert (Hhi : read_or (a :: l) (Z.of_nat (List.length (a :: l)) - 1) 3
                = or_else lst 3).
  { unfold read_or. cbn [List.length].
    replace (Z.of_nat (S (List.length l)) - 1)%Z
      with (Z.of_nat (List.length l)) by lia.
    assert (E : (Z.of_nat (List.length l) <? 0)%Z = false)
      by (apply Z.ltb_ge; lia).
    rewrite E, Nat2Z.id, nth_error_last. reflexivity. }
  exists a, lst. split; [apply Hin; now left|].
  split.
  { apply Hin. unfold lst. clear. generalize a at 2 as d. revert a.
    induction l as [|b l IH]; intros a d; [now left|].
    right. change (last (a :: b :: l) d) with (last (b :: l) d).
    apply IH. }
  split; [exact Ha|].
  unfold getRange. rewrite Hlo, Hhi. reflexivity.
Qed.

Lemma halation_overshoot : halation_leaves_range.
Proof.
  unfold halation_leaves_range. cbv zeta.
  destruct (autoLevels_linear_shape [0; 0.04]) as (lo & hi & Hlo & Hhi & Hb & E);
    [discriminate|].
  assert (Elo : lo = 0).
  { destruct (Hb 0) as [H _]; [now left|].
    destruct Hlo as [<- | [<- | []]]; lra. }
  assert (Ehi : hi = 0.04).
  { destruct (Hb 0.04) as [_ H]; [right; now left|].
    destruct Hhi as [<- | [<- | []]]; lra. }
  subst lo hi. rewrite E. clear E.
  assert (Eo : or_else 0.04 3 = 0.04).
  { unfold or_else. destruct (Req_dec_T 0.04 0); [lra | reflexivity]. }
  rewrite Eo.
  assert (El : ltb 0.001 (0.04 - 0) = true) by (apply ltb_true; lra).
  rewrite El. unfold normalise. cbn [min_ scale].
  destruct (HalationFacts.halation_bright 0.04 3 3 Halation.pipelineOptions)
    as [Hf ->].
  - unfold Halation.thresholdOf, Halation.pipelineOptions.
    cbn [Halation.threshold]. lra.
  - unfold Halation.meanRGB, Halation.thresholdOf, Halation.pipelineOptions.
    cbn [Halation.threshold]. lra.
  - cbn [v0 fst]. unfold Math_min.
    assert (Hh : Halation.highlightFraction 0.04 3 3 Halation.pipelineOptions
                 * Halation.strength Halation.pipelineOptions * 0.1 = 0.053).
    { unfold Halation.highlightFraction, Halation.meanRGB, Halation.thresholdOf,
        Halation.pipelineOptions.
      cbn [Halation.threshold Halation.strength].
      replace (1 - 0.6) with 0.4 by lra. lra. }
    rewrite Hh. rewrite Rmin_right by lra. lra.
Qed.

(** X27: auto levels in linear mode (preserveExposure off), in exact
    arithmetic.  For the non-empty list of densities one channel
    collects in the first pass, min is the smallest of them, max is the
    largest (3 when the largest is exactly 0), and scale is
    1 / (max - min) when max - min exceeds 0.001, and 1 otherwise.  The
    map (v - min) * scale of the second pass sends every density of the
    first pass into [0, 1], the smallest to 0 and, when the largest is
    not 0 and exceeds the smallest by more than 0.001, the largest to
    1.  The bound is on the densities of the first pass only: the
    second pass normalises the value that comes out of red halation,
    which can be above the largest of them and land over 1. *)
Theorem autoLevels_linear densities :
  densities <> [] ->
  (exists lo hi,
     In lo densities /\ In hi densities
     /\ (forall y, In y densities -> lo <= y <= hi)
     /\ let rg := autoLevels true densities in
        min_ rg = lo
        /\ max_ rg = or_else hi 3
        /\ scale rg = (if ltb 0.001 (max_ rg - min_ rg)
                       then 1 / (max_ rg - min_ rg) else 1)
        /\ (forall d, In d densities -> 0 <= normalise rg d <= 1)
        /\ normalise rg lo = 0
        /\ (hi <> 0 -> 0.001 < hi - lo -> normalise rg hi = 1))
  /\ halation_leaves_range.
Proof.
  intros Hne. split; [|exact halation_overshoot].
  destruct (autoLevels_linear_shape densities Hne)
    as (lo & hi & Hlo & Hhi & Hb & E).
  exists lo, hi. split; [exact Hlo|]. split; [exact Hhi|].
  split; [exact Hb|]. intros rg. unfold rg. rewrite E. clear E rg.
  cbn [min_ max_ scale]. unfold normalise. cbn [min_ scale].
  assert (Hmax : hi <= or_else hi 3).
  { unfold or_else. destruct (Req_dec_T hi 0) as [E | E]; lra. }
  split; [reflexivity|]. split; [reflexivity|]. split; [reflexivity|].
  split; [|split].
  - intros d Hd. destruct (Hb d Hd) as [D0 D1].
    destruct (ltb 0.001 (or_else hi 3 - lo)) eqn:El.
    + apply ltb_true in El.
      assert (I : 0 < / (or_else hi 3 - lo)) by (apply Rinv_0_lt_compat; lra).
      split.
      * apply Rmult_le_pos; [lra|]. unfold Rdiv. lra.
      * apply (Rmult_le_reg_r (or_else hi 3 - lo)); [lra|].
        unfold Rdiv. rewrite Rmult_assoc, Rmult_1_l, Rinv_l by lra. lra.
    + apply ltb_false in El. lra.
  - replace (lo - lo) with 0 by lra. apply Rmult_0_l.
  - intros Hnz Hsp.
    assert (Eo : or_else hi 3 = hi).
    { unfold or_else. destruct (Req_dec_T hi 0); [contradiction | reflexivity]. }
    rewrite Eo.
    assert (El : ltb 0.001 (hi - lo) = true) by (apply ltb_true; lra).
    rewrite El. field. lra.
Qed.

Lemma autoLevels_linear_witness :
  exists lo hi,
    In lo [0.5; 0.25; 2] /\ In hi [0.5; 0.25; 2]
    /\ (forall y, In y [0.5; 0.25; 2] -> lo <= y <= hi)
    /\ let rg := autoLevels true [0.5; 0.25; 2] in
       min_ rg = lo
       /\ max_ rg = or_else hi 3
       /\ scale rg = (if ltb 0.001 (max_ rg - min_ rg)
                      then 1 / (max_ rg - min_ rg) else 1)
       /\ (forall d, In d [0.5; 0.25; 2] -> 0 <= normalise rg d <= 1)
       /\ normalise rg lo = 0
       /\ (hi <> 0 -> 0.001 < hi - lo -> normalise rg hi = 1).
Proof.
  apply (autoLevels_linear [0.5; 0.25; 2]). discriminate.
Defined.

End PipelineFacts.

(** ** Dye coupling, on binary64 *)

Module DyeCouplingFacts.
Import DyeCoupling.
Local Open Scope float_scope.

(** *** C5: the shape check *)

Lemma applyDyeCoupling_throws log pow rgb matrix :
  List.length matrix <> 9%nat ->
  exists msg, applyDyeCoupling log pow rgb matrix = Throw msg.
Proof.
  intros H. unfold applyDyeCoupling.
  apply Nat.eqb_neq in H. rewrite H. cbn [negb]. eexists. reflexivity.
Qed.

Lemma applyDyeCoupling_returns log pow rgb matrix :
  List.length matrix = 9%nat ->
  exists v, applyDyeCoupling log pow rgb matrix = Return v.
Proof.
  intros H. unfold applyDyeCoupling.
  apply Nat.eqb_eq in H. rewrite H. cbn [negb].
  destruct rgb as [[r g] b]. cbv zeta.
  destruct (applyDyeCouplingToDensity _ matrix) as [[n0 n1] n2].
  eexists. reflexivity.
Qed.

(** C5: only the transmittance entry point checks the shape.  With a
    matrix of three elements and the triple (1, 1, 1), whatever the
    implementation of [Math.log10] and [Math.pow], [applyDyeCoupling]
    throws, and [applyDyeCouplingToDensity] returns (1, NaN, NaN)
    without raising. *)
Theorem density_coupling_accepts_short_matrix log pow :
  List.length shortMatrix <> 9%nat
  /\ applyDyeCoupling log pow (1, 1, 1) shortMatrix
     = Throw "Dye coupling matrix must have 9 elements (3x3)"
  /\ applyDyeCouplingToDensity (1, 1, 1) shortMatrix = (1, nan, nan).
Proof.
  split; [cbn; lia|]. split; reflexivity.
Qed.

(** *** C3: the identity matrix *)

Lemma one_SF : Prim2SF 1 = SF1.
Proof. reflexivity. Qed.

Lemma zero_SF : Prim2SF 0 = S754_zero false.
Proof. reflexivity. Qed.

(** 1.0 * x is x, bit for bit, for every double that is not NaN. *)
Lemma SFmul_one_l s m e :
  bounded prec emax m e = true ->
  SFmul prec emax SF1 (S754_finite s m e) = S754_finite s m e.
Proof.
  intros Hb. unfold bounded, canonical_mantissa in Hb.
  apply andb_prop in Hb. destruct Hb as [Hc He].
  apply Z.eqb_eq in Hc.
  unfold SF1, SFmul. cbn [xorb].
  unfold binary_round_aux.
  assert (Hd : Zdigits2 (Z.pos (4503599627370496 * m))
               = (Z.pos (digits2_pos m) + 52)%Z).
  { cbn [Pos.mul Zdigits2 digits2_pos]. lia. }
  unfold shr_fexp at 1. rewrite Hd.
  replace (Z.pos (digits2_pos m) + 52 + (-52 + e))%Z
    with (Z.pos (digits2_pos m) + e)%Z by lia.
  rewrite Hc.
  replace (e - (-52 + e))%Z with 52%Z by lia.
  cbn [shr shr_record_of_loc iter_pos Pos.mul shr_1 orb].
  cbn [shr_m loc_of_shr_record round_nearest_even].
  unfold shr_fexp. cbn [Zdigits2].
  replace (-52 + e + 52)%Z with e by lia.
  rewrite Hc. rewrite Z.sub_diag. cbn [shr shr_record_of_loc shr_m].
  rewrite He. reflexivity.
Qed.

Lemma SFmul_one_any X :
  valid_binary X = true -> SFmul prec emax SF1 X = X.
Proof.
  destruct X as [s|s| |s m e]; intros Hv; try reflexivity.
  apply SFmul_one_l. exact Hv.
Qed.

(** 0.0 * y is a zero with the sign of y, for finite y. *)
Lemma SFmul_zero_fin X :
  finiteSF X = true ->
  SFmul prec emax (S754_zero false) X = S754_zero (signSF X).
Proof. destruct X; intros H; try discriminate; reflexivity. Qed.

(** The three sums of a row of the identity. *)
Lemma add_pattern_0 X a b : finiteSF X = true ->
  keeps X (SFadd prec emax (SFadd prec emax X (S754_zero a)) (S754_zero b)).
Proof.
  unfold keeps. destruct X as [s|s| |s m e]; intros H; try discriminate.
  - destruct s, a, b; cbn; auto.
  - left. reflexivity.
Qed.

Lemma add_pattern_1 X a b : finiteSF X = true ->
  keeps X (SFadd prec emax (SFadd prec emax (S754_zero a) X) (S754_zero b)).
Proof.
  unfold keeps. destruct X as [s|s| |s m e]; intros H; try discriminate.
  - destruct s, a, b; cbn; auto.
  - left. reflexivity.
Qed.

Lemma add_pattern_2 X a b : finiteSF X = true ->
  keeps X (SFadd prec emax (SFadd prec emax (S754_zero a) (S754_zero b)) X).
Proof.
  unfold keeps. destruct X as [s|s| |s m e]; intros H; try discriminate.
  - destruct s, a, b; cbn; auto.
  - left. destruct a, b; reflexivity.
Qed.

Lemma keeps_kept x r : keeps (Prim2SF x) (Prim2SF r) -> kept x r.
Proof.
  intros [H | [H1 H2]]; [left | right].
  - apply Prim2SF_inj. exact H.
  - split; apply Prim2SF_inj; [rewrite H1 | rewrite H2]; reflexivity.
Qed.

Lemma SFeqb_refl X : finiteSF X = true -> SFeqb X X = true.
Proof.
  destruct X as [s|s| |s m e]; intros H; try discriminate; [reflexivity|].
  unfold SFeqb, SFcompare. rewrite Z.compare_refl.
  change (Pos.compare_cont Eq m m) with (Pos.compare m m).
  rewrite Pos.compare_refl. destruct s; reflexivity.
Qed.

Lemma kept_num_eq x r : finite x = true -> kept x r -> (r =? x) = true.
Proof.
  intros Hf [-> | [-> ->]].
  - rewrite eqb_spec. apply SFeqb_refl. exact Hf.
  - reflexivity.
Qed.

Lemma identity_rows dr dg db :
  finite dr = true -> finite dg = true -> finite db = true ->
  kept dr (1 * dr + 0 * dg + 0 * db)
  /\ kept dg (0 * dr + 1 * dg + 0 * db)
  /\ kept db (0 * dr + 0 * dg + 1 * db).
Proof.
  intros Hr Hg Hb.
  repeat split; apply keeps_kept;
    rewrite !add_spec, !mul_spec, ?one_SF, ?zero_SF; unfold SF64add, SF64mul;
    rewrite ?SFmul_one_any by apply Prim2SF_valid;
    rewrite ?SFmul_zero_fin by assumption.
  - apply add_pattern_0. exact Hr.
  - apply add_pattern_1. exact Hg.
  - apply add_pattern_2. exact Hb.
Qed.

(** C3, as the code has it.  For every triple d of finite doubles,
    [applyDyeCouplingToDensity(d, IDENTITY_MATRIX)] equals d under
    [==], and each component comes back bit for bit, except that a
    component [-0] may come back as [+0]. *)
Theorem identity_kept dr dg db :
  finite dr = true -> finite dg = true -> finite db = true ->
  let '(r0, r1, r2) := applyDyeCouplingToDensity (dr, dg, db) IDENTITY_MATRIX in
  num_eq (r0, r1, r2) (dr, dg, db) = true
  /\ kept dr r0 /\ kept dg r1 /\ kept db r2.
Proof.
  intros Hr Hg Hb.
  destruct (identity_rows dr dg db Hr Hg Hb) as (K0 & K1 & K2).
  unfold applyDyeCouplingToDensity, IDENTITY_MATRIX, elem. cbn [nth].
  split; [|auto].
  unfold num_eq.
  rewrite (kept_num_eq _ _ Hr K0), (kept_num_eq _ _ Hg K1),
    (kept_num_eq _ _ Hb K2).
  reflexivity.
Qed.

Lemma identity_kept_witness :
  let '(r0, r1, r2) :=
    applyDyeCouplingToDensity (0.5, -2, 0) IDENTITY_MATRIX in
  num_eq (r0, r1, r2) (0.5, -2, 0) = true
  /\ kept 0.5 r0 /\ kept (-2) r1 /\ kept 0 r2.
Proof. apply (identity_kept 0.5 (-2) 0); reflexivity. Defined.

(** C3 as worded fails on a negative zero: on (-0, 0.5, 0.25) the
    first row computes 1.0 * -0 + 0.0 * 0.5 + 0.0 * 0.25, which is
    [+0]; the two zeros differ in their sign bit. *)
Lemma identity_changes_negative_zero :
  ~ (forall d, applyDyeCouplingToDensity d IDENTITY_MATRIX = d).
Proof.
  intros H. specialize (H (neg_zero, 0.5, 0.25)).
  apply (f_equal (fun v => Prim2SF (fst (fst v)))) in H.
  vm_compute in H. discriminate H.
Qed.

(** A triple of negative zeros, the density of an unexposed pixel, is
    returned as it is. *)
Lemma identity_keeps_all_negative_zero :
  applyDyeCouplingToDensity (neg_zero, neg_zero, neg_zero) IDENTITY_MATRIX
  = (neg_zero, neg_zero, neg_zero).
Proof. reflexivity. Qed.

(** With an infinite component the products 0 * infinity are NaN. *)
Lemma identity_spoils_infinity :
  applyDyeCouplingToDensity (0, infinity, 0) IDENTITY_MATRIX = (nan, infinity, nan).
Proof. reflexivity. Qed.

End DyeCouplingFacts.

(** ** Tone mapping *)

Module ToneMappingFacts.
Import JS JSFacts ToneMapping.
Local Open Scope R_scope.



Lemma clamp01_inside v : 0 <= v <= 1 -> Math_max 0 (Math_min 1 v) = v.
Proof.
  intros H. unfold Math_max, Math_min.
  rewrite Rmin_right by lra. apply Rmax_right. lra.
Qed.













Lemma gamma_inverse p : 0 < p -> Math_pow (Math_pow p 2.2) (1 / 2.2) = p.
Proof.
  intros H. rewrite (Math_pow_pos_base p) by exact H.
  rewrite Math_pow_pos_base by apply exp_pos.
  rewrite Rpower_mult. replace (2.2 * (1 / 2.2)) with 1 by lra.
  apply Rpower_1. exact H.
Qed.

(** X12: the display encoding undoes the decoding of the input.  A
    sample p in [0, 1], decoded by the page as p^2.2, is returned
    unchanged by [applyToneMapping] in the modes 'aces_linear', 'simple'
    and 'linear' and in the default mode. *)
Theorem display_encoding_round_trip p mode whitePoint :
  0 <= p <= 1 -> plain_mode mode ->
  applyToneMapping (decode p) mode whitePoint = p.
Proof.
  intros Hp Hm.
  assert (E : applyToneMapping (decode p) mode whitePoint
              = simpleToneMapping (decode p)).
  { destruct Hm as [-> | [-> | [-> | ->]]]; reflexivity. }
  rewrite E. unfold simpleToneMapping, decode.
  destruct (Req_dec_T p 0) as [-> | Hn].
  - rewrite (Math_pow_0_l 2.2) by lra. rewrite clamp01_inside by lra.
    apply Math_pow_0_l. lra.
  - rewrite clamp01_inside by (apply Math_pow_unit_range; lra).
    apply gamma_inverse. lra.
Qed.

Lemma display_encoding_round_trip_witness :
  applyToneMapping (decode 0.5) None None = 0.5.
Proof.
  apply (display_encoding_round_trip 0.5 None None); [lra | now left].
Defined.






End ToneMappingFacts.

(** ** Density to display *)

Module AdxFacts.
Import JS JSFacts Curve Adx.
Local Open Scope R_scope.

(** Bounds on the power 5/12 (that is 1/2.4) by comparing fifth and
    twelfth powers. *)
Lemma Rpower_5_12_le v c :
  0 < v -> 0 < c -> v ^ 5 <= c ^ 12 -> Rpower v (5 / 12) <= c.
Proof.
  intros Hv Hc H. unfold Rpower.
  rewrite <- (exp_ln c) by exact Hc.
  assert (Hl : ln (v ^ 5) <= ln (c ^ 12)).
  { destruct H as [H | H]; [left; apply ln_increasing; [apply pow_lt|]; assumption
                           | rewrite H; lra]. }
  rewrite !ln_pow in Hl by assumption.
  replace (INR 5) with 5 in Hl by (cbn; lra).
  replace (INR 12) with 12 in Hl by (cbn; lra).
  assert (Hx : 5 / 12 * ln v <= ln c) by lra.
  destruct Hx as [Hx | Hx]; [left; now apply exp_increasing | rewrite Hx; lra].
Qed.

Lemma Rpower_5_12_ge v c :
  0 < v -> 0 < c -> c ^ 12 <= v ^ 5 -> c <= Rpower v (5 / 12).
Proof.
  intros Hv Hc H. unfold Rpower.
  rewrite <- (exp_ln c) at 1 by exact Hc.
  assert (Hl : ln (c ^ 12) <= ln (v ^ 5)).
  { destruct H as [H | H]; [left; apply ln_increasing; [apply pow_lt|]; assumption
                           | rewrite H; lra]. }
  rewrite !ln_pow in Hl by assumption.
  replace (INR 5) with 5 in Hl by (cbn; lra).
  replace (INR 12) with 12 in Hl by (cbn; lra).
  assert (Hx : ln c <= 5 / 12 * ln v) by lra.
  destruct Hx as [Hx | Hx]; [left; now apply exp_increasing | rewrite Hx; lra].
Qed.

Lemma gamma_branch v :
  0.0031308 < v -> Math_pow v (1 / 2.4) = Rpower v (5 / 12).
Proof.
  intros H. rewrite Math_pow_pos_base by lra. f_equal. lra.
Qed.

(** The power branch of the transfer function, above the knee. *)
Lemma power_branch_bounds v hi c :
  0.0031308 < v <= hi -> 0 < c -> hi ^ 5 <= c ^ 12 ->
  0.0083 <= 1.055 * Math_pow v (1 / 2.4) - 0.055 <= 1.055 * c - 0.055.
Proof.
  intros [Hk Hhi] Hc Hb. rewrite gamma_branch by exact Hk.
  assert (Hlo : 0.06 <= Rpower v (5 / 12)).
  { apply Rpower_5_12_ge; [lra | lra|].
    apply Rle_trans with (0.0031308 ^ 5); [cbn [pow]; lra|].
    apply pow_incr. lra. }
  assert (Hup : Rpower v (5 / 12) <= c).
  { apply Rpower_5_12_le; [lra | exact Hc|].
    apply Rle_trans with (hi ^ 5); [|exact Hb]. apply pow_incr. lra. }
  lra.
Qed.


Lemma applyGamma_range v : 0 <= applyGamma v <= 1.
Proof.
  unfold applyGamma.
  set (x := Math_max 0 (Math_min 1 v)).
  assert (Hx : 0 <= x <= 1).
  { unfold x, Math_max, Math_min. split; [apply Rmax_l|].
    apply Rmax_lub; [lra | apply Rmin_l]. }
  destruct (leb x 0.0031308) eqn:El.
  - apply leb_true in El. lra.
  - apply leb_false in El.
    pose proof (power_branch_bounds x 1 1 ltac:(lra) ltac:(lra)
                  ltac:(cbn [pow]; lra)).
    lra.
Qed.

(** X24: [acesToSRGB] returns display values in [0, 1] on every
    channel, for every input. *)
Theorem acesToSRGB_range sceneRGB :
  0 <= v0 (acesToSRGB sceneRGB) <= 1
  /\ 0 <= v1 (acesToSRGB sceneRGB) <= 1
  /\ 0 <= v2 (acesToSRGB sceneRGB) <= 1.
Proof.
  destruct sceneRGB as [[R0 G0] B0]. unfold acesToSRGB.
  cbn [v0 v1 v2 fst snd]. repeat split; apply applyGamma_range.
Qed.





End AdxFacts.
